(** * Velocity-tree orientation (dynamo/tools/construct_velocity_tree.py)
      and the Scribe wrapper (dynamo/external/scribe.py)

    A shallow embedding of the two Python modules.

    Numbers.  A NumPy [float64] is modelled by [float64] below: a finite
    value is an exact real number, and the three special values +inf, -inf
    and nan are kept apart, because the source produces them on purpose
    (division by a zero row total, [log1p] at and below -1) and removes them
    again with [np.isinf] and [np.nan_to_num].  Rounding, overflow of finite
    operations and the sign of zero are not modelled there; the module [F64]
    repeats [_compute_center_transition_matrix] on binary64 floats, to
    compute what rounding and overflow make of its result.

    Objects.  ndarrays, dicts and the AnnData attributes live in a store
    addressed by locations, so that [velocity_tree.copy()] and the item
    assignments into the copy are modelled as they happen. *)

From Stdlib Require Import Reals Lra Lia ZArith List.
From Stdlib Require Floats.
From stdpp Require Import gmap strings list fin_maps.

(** ** Exceptions and fallible computations *)

Inductive exn : Type :=
| KeyError
| IndexError
| ValueError
| TypeError
| ImportError
| OutOfFuel.   (* a [while] loop that did not finish within the fuel given *)

Inductive result (A : Type) : Type :=
| Ok (a : A)
| Raise (e : exn).
Arguments Ok {A} a.
Arguments Raise {A} e.

Definition rbind {A B} (c : result A) (k : A -> result B) : result B :=
  match c with
  | Ok a => k a
  | Raise e => Raise e
  end.

Declare Scope res_scope.
Delimit Scope res_scope with res.
Notation "'let?' x := c 'in' k" := (rbind c (fun x => k))
  (at level 10, x pattern, c at level 100, k at level 200) : res_scope.
Open Scope res_scope.

Fixpoint foldM {A B} (f : A -> B -> result A) (l : list B) (a : A) : result A :=
  match l with
  | [] => Ok a
  | x :: l' => let? a' := f a x in foldM f l' a'
  end.

Fixpoint mapM {A B} (f : A -> result B) (l : list A) : result (list B) :=
  match l with
  | [] => Ok []
  | x :: l' => let? y := f x in let? ys := mapM f l' in Ok (y :: ys)
  end.

(** ** float64 *)

Inductive float64 : Type :=
| Fin (x : R)
| PInf
| NInf
| NaN.

Definition Rltb (x y : R) : bool := if Rlt_dec x y then true else false.
Definition Reqb (x y : R) : bool := if Req_dec_T x y then true else false.

Definition fzero : float64 := Fin 0.

Definition fadd (a b : float64) : float64 :=
  match a, b with
  | NaN, _ | _, NaN => NaN
  | Fin x, Fin y => Fin (x + y)
  | PInf, NInf | NInf, PInf => NaN
  | PInf, _ | _, PInf => PInf
  | NInf, _ | _, NInf => NInf
  end.

Definition inf_times (pos : bool) (x : R) : float64 :=
  if Rltb 0 x then (if pos then PInf else NInf)
  else if Rltb x 0 then (if pos then NInf else PInf)
  else NaN.

Definition fmul (a b : float64) : float64 :=
  match a, b with
  | NaN, _ | _, NaN => NaN
  | Fin x, Fin y => Fin (x * y)
  | Fin x, PInf | PInf, Fin x => inf_times true x
  | Fin x, NInf | NInf, Fin x => inf_times false x
  | PInf, PInf | NInf, NInf => PInf
  | PInf, NInf | NInf, PInf => NInf
  end.

(** Division under [np.errstate(divide='ignore', invalid='ignore')]:
    x / 0 is an infinity for x <> 0 and nan for x = 0. *)
Definition fdiv (a b : float64) : float64 :=
  match a, b with
  | NaN, _ | _, NaN => NaN
  | Fin x, Fin y => if Reqb y 0 then inf_times true x else Fin (x / y)
  | Fin _, PInf | Fin _, NInf => Fin 0
  | PInf, Fin y => if Rltb y 0 then NInf else PInf
  | NInf, Fin y => if Rltb y 0 then PInf else NInf
  | _, _ => NaN
  end.

Definition fltb (a b : float64) : bool :=
  match a, b with
  | NaN, _ | _, NaN => false
  | Fin x, Fin y => Rltb x y
  | NInf, NInf | PInf, _ => false
  | NInf, _ => true
  | Fin _, PInf => true
  | Fin _, NInf => false
  end.

Definition fleb (a b : float64) : bool :=
  match a, b with
  | NaN, _ | _, NaN => false
  | Fin x, Fin y => negb (Rltb y x)
  | NInf, _ | _, PInf => true
  | _, _ => false
  end.

Definition fgtb (a b : float64) : bool := fltb b a.

Definition isnan (a : float64) : bool :=
  match a with NaN => true | _ => false end.

Definition isinf (a : float64) : bool :=
  match a with PInf | NInf => true | _ => false end.

(** [np.log1p]: log(1 + x), -inf at -1 and nan below. *)
Definition log1p (a : float64) : float64 :=
  match a with
  | Fin x => if Rltb (-1) x then Fin (ln (1 + x))
             else if Reqb x (-1) then NInf else NaN
  | PInf => PInf
  | NInf | NaN => NaN
  end.

(** [np.log], which the source does not call; it states what a
    log-likelihood would be. *)
Definition log (a : float64) : float64 :=
  match a with
  | Fin x => if Rltb 0 x then Fin (ln x)
             else if Reqb x 0 then NInf else NaN
  | PInf => PInf
  | NInf | NaN => NaN
  end.

Definition DBL_MAX : R := IZR (2 ^ 1024 - 2 ^ 971).

(** [np.nan_to_num] with its default arguments. *)
Definition nan_to_num (a : float64) : float64 :=
  match a with
  | NaN => Fin 0
  | PInf => Fin DBL_MAX
  | NInf => Fin (- DBL_MAX)
  | Fin x => Fin x
  end.

(** [res[np.isinf(res)] = 0] on one entry. *)
Definition zero_inf (a : float64) : float64 :=
  if isinf a then Fin 0 else a.

(** Python's builtin [max(a, b)]: the first argument unless the second
    compares greater. *)
Definition py_max (a b : float64) : float64 :=
  if fgtb b a then b else a.

Definition fsum (l : list float64) : float64 := fold_left fadd l (Fin 0).

(** [np.cumsum] of a 1-d array. *)
Fixpoint cumsum_from (acc : float64) (l : list float64) : list float64 :=
  match l with
  | [] => []
  | x :: l' => fadd acc x :: cumsum_from (fadd acc x) l'
  end.
Definition cumsum (l : list float64) : list float64 := cumsum_from (Fin 0) l.

(** ** Two-dimensional arrays *)

Record ndarray : Type := mk_ndarray {
  nrows : nat;
  ncols : nat;
  data : nat -> nat -> float64
}.

Definition of_rows (rows : list (list float64)) : ndarray :=
  {| nrows := length rows;
     ncols := match rows with [] => 0 | r :: _ => length r end;
     data := fun i j => nth j (nth i rows []) (Fin 0) |}.

(** NumPy index normalisation along an axis of length [n]. *)
Definition norm_index (n : nat) (i : Z) : result nat :=
  if ((0 <=? i) && (i <? Z.of_nat n))%Z then Ok (Z.to_nat i)
  else if ((- Z.of_nat n <=? i) && (i <? 0))%Z then Ok (Z.to_nat (Z.of_nat n + i))
  else Raise IndexError.

Definition getitem (m : ndarray) (r c : Z) : result float64 :=
  let? i := norm_index (nrows m) r in
  let? j := norm_index (ncols m) c in
  Ok (data m i j).

Definition upd1 (f : nat -> float64) (i : nat) (v : float64) : nat -> float64 :=
  fun i' => if i' =? i then v else f i'.

Definition upd2 (f : nat -> nat -> float64) (i j : nat) (v : float64)
  : nat -> nat -> float64 :=
  fun i' j' => if (i' =? i) && (j' =? j) then v else f i' j'.

Definition setitem (m : ndarray) (r c : Z) (v : float64) : result ndarray :=
  let? i := norm_index (nrows m) r in
  let? j := norm_index (ncols m) c in
  Ok {| nrows := nrows m; ncols := ncols m; data := upd2 (data m) i j v |}.

(** A [scipy.sparse.csr_matrix]: row [i] holds the entries
    [indptr[i] .. indptr[i+1]-1] of [indices] and [values]. *)
Record csr_matrix : Type := mk_csr {
  csr_rows : nat;
  csr_cols : nat;
  indptr : list nat;
  indices : list nat;
  values : list float64
}.

(** [csr.toarray()]: duplicate entries are summed. *)
Definition toarray (s : csr_matrix) : ndarray :=
  {| nrows := csr_rows s;
     ncols := csr_cols s;
     data := fun i j =>
       let lo := nth i (indptr s) 0 in
       let hi := nth (S i) (indptr s) 0 in
       fsum (map (fun p => nth p (values s) (Fin 0))
               (List.filter (fun p => nth p (indices s) 0 =? j) (seq lo (hi - lo)))) |}.

Inductive matrix_input : Type :=
| Dense (m : ndarray)
| Sparse (s : csr_matrix).

Definition issparse (t : matrix_input) : bool :=
  match t with Sparse _ => true | Dense _ => false end.

(** ** _compute_center_transition_matrix *)

(** [np.argmax] of one row of length [k >= 1]: the first maximum, a nan
    counting as the maximum. *)
Definition argmax (row : nat -> float64) (k : nat) : nat :=
  fst (fold_left
         (fun (st : nat * float64) i =>
            let '(best, mp) := st in
            if isnan mp then st
            else if fleb (row i) mp then st
            else (i, row i))
         (seq 1 (k - 1)) (0, row 0)).

(** [np.argmax(R, axis=1)] *)
Definition argmax_axis1 (Rm : ndarray) : result (list nat) :=
  if ncols Rm =? 0 then Raise ValueError
  else Ok (map (fun i => argmax (data Rm i) (ncols Rm)) (seq 0 (nrows Rm))).

(** [np.where(assignment == a)[0]] *)
Definition where_eq (assignment : list nat) (a : nat) : list nat :=
  List.filter (fun i => nth i assignment 0 =? a) (seq 0 (length assignment)).

Definition is_empty {A} (l : list A) : bool :=
  match l with [] => true | _ => false end.

(** The sum of lines 37-41, for non-empty index arrays. *)
Definition block_sum (T Rm : ndarray) (ia ib : list nat) (a b : nat) : float64 :=
  fsum (flat_map
          (fun i => map (fun j => fmul (fmul (data Rm i a) (data Rm j b)) (data T i j)) ib)
          ia).

(** [q] of lines 37-41; the fancy index [T[ia[:, None], ib]] raises
    IndexError when an index is outside [T]. *)
Definition block_q (T Rm : ndarray) (ia ib : list nat) (a b : nat) : result float64 :=
  if negb (is_empty ia) && negb (is_empty ib) then
    if forallb (fun i => i <? nrows T) ia && forallb (fun j => j <? ncols T) ib
    then Ok (block_sum T Rm ia ib a b)
    else Raise IndexError
  else Ok (Fin 0).

Definition acc : Type := (nat -> nat -> float64) * (nat -> float64).

Definition inner_body (T Rm : ndarray) (clusters : nat -> list nat) (a : nat)
    (st : acc) (b : nat) : result acc :=
  let '(transition, totals) := st in
  if a =? b then Ok st
  else
    let indices_a := clusters a in
    let indices_b := clusters b in
    let? q := block_q T Rm indices_a indices_b a b in
    let totals := upd1 totals a (fadd (totals a) q) in
    let transition := upd2 transition a b q in
    Ok (transition, totals).

Definition _compute_center_transition_matrix
    (transition_matrix : matrix_input) (Rm : ndarray) : result ndarray :=
  let transition_matrix :=
    match transition_matrix with
    | Sparse s => toarray s
    | Dense m => m
    end in
  let? assignment := argmax_axis1 Rm in
  let num_clusters := ncols Rm in
  let clusters := fun i => where_eq assignment i in
  let transition : nat -> nat -> float64 := fun _ _ => Fin 0 in
  let totals : nat -> float64 := fun _ => Fin 0 in
  let? st :=
    foldM (fun st a =>
             foldM (inner_body transition_matrix Rm clusters a)
                   (seq 0 num_clusters) st)
          (seq 0 num_clusters) (transition, totals) in
  let '(transition, totals) := st in
  Ok {| nrows := num_clusters;
        ncols := num_clusters;
        data := fun a b =>
          nan_to_num (zero_inf (fdiv (transition a b) (totals a))) |}.

(** ** _compute_center_transition_matrix on binary64 floats *)

(** The same function once more, on IEEE 754 binary64 numbers (Rocq's
    primitive floats) in place of exact reals: every operation rounds to
    nearest and can overflow, as NumPy's does.  It serves to compute what
    rounding makes of the rows of the result. *)
Module F64.
Import PrimFloat.

Record ndarray : Type := mk_ndarray {
  nrows : nat;
  ncols : nat;
  data : nat -> nat -> float
}.

Definition of_rows (rows : list (list float)) : ndarray :=
  {| nrows := length rows;
     ncols := match rows with [] => 0 | r :: _ => length r end;
     data := fun i j => nth j (nth i rows []) 0%float |}.

Definition to_rows (m : ndarray) : list (list float) :=
  map (fun i => map (data m i) (seq 0 (ncols m))) (seq 0 (nrows m)).

Definition upd1 (f : nat -> float) (i : nat) (v : float) : nat -> float :=
  fun i' => if i' =? i then v else f i'.

Definition upd2 (f : nat -> nat -> float) (i j : nat) (v : float)
  : nat -> nat -> float :=
  fun i' j' => if (i' =? i) && (j' =? j) then v else f i' j'.

(** [np.sum] of a short array: the entries are added from left to right. *)
Definition fsum (l : list float) : float := fold_left add l 0%float.

Definition DBL_MAX : float := 0x1.fffffffffffffp+1023%float.

Definition zero_inf (x : float) : float :=
  if is_infinity x then 0%float else x.

Definition nan_to_num (x : float) : float :=
  if is_nan x then 0%float
  else if eqb x infinity then DBL_MAX
  else if eqb x neg_infinity then opp DBL_MAX
  else x.

Definition argmax (row : nat -> float) (k : nat) : nat :=
  fst (fold_left
         (fun (st : nat * float) i =>
            let '(best, mp) := st in
            if is_nan mp then st
            else if leb (row i) mp then st
            else (i, row i))
         (seq 1 (k - 1)) (0, row 0)).

Definition argmax_axis1 (Rm : ndarray) : result (list nat) :=
  if ncols Rm =? 0 then Raise ValueError
  else Ok (map (fun i => argmax (data Rm i) (ncols Rm)) (seq 0 (nrows Rm))).

Definition block_sum (T Rm : ndarray) (ia ib : list nat) (a b : nat) : float :=
  fsum (flat_map
          (fun i => map (fun j => mul (mul (data Rm i a) (data Rm j b)) (data T i j)) ib)
          ia).

Definition block_q (T Rm : ndarray) (ia ib : list nat) (a b : nat) : result float :=
  if negb (is_empty ia) && negb (is_empty ib) then
    if forallb (fun i => i <? nrows T) ia && forallb (fun j => j <? ncols T) ib
    then Ok (block_sum T Rm ia ib a b)
    else Raise IndexError
  else Ok 0%float.

Definition acc : Type := (nat -> nat -> float) * (nat -> float).

Definition inner_body (T Rm : ndarray) (clusters : nat -> list nat) (a : nat)
    (st : acc) (b : nat) : result acc :=
  let '(transition, totals) := st in
  if a =? b then Ok st
  else
    let indices_a := clusters a in
    let indices_b := clusters b in
    let? q := block_q T Rm indices_a indices_b a b in
    let totals := upd1 totals a (add (totals a) q) in
    let transition := upd2 transition a b q in
    Ok (transition, totals).

(** Lines 24-44: the unnormalised entries and the row totals. *)
Definition center_sums (transition_matrix Rm : ndarray) : result acc :=
  let? assignment := argmax_axis1 Rm in
  let num_clusters := ncols Rm in
  let clusters := fun i => where_eq assignment i in
  let transition : nat -> nat -> float := fun _ _ => 0%float in
  let totals : nat -> float := fun _ => 0%float in
  foldM (fun st a =>
           foldM (inner_body transition_matrix Rm clusters a)
                 (seq 0 num_clusters) st)
        (seq 0 num_clusters) (transition, totals).

Definition _compute_center_transition_matrix (transition_matrix Rm : ndarray)
  : result ndarray :=
  let? st := center_sums transition_matrix Rm in
  let '(transition, totals) := st in
  Ok {| nrows := ncols Rm;
        ncols := ncols Rm;
        data := fun a b => nan_to_num (zero_inf (div (transition a b) (totals a))) |}.

(** The rows of the result, the sums of its rows and the row totals, as
    lists. *)
Definition center_rows (T Rm : ndarray) : result (list (list float)) :=
  let? C := _compute_center_transition_matrix T Rm in Ok (to_rows C).

Definition center_row_sums (T Rm : ndarray) : result (list float) :=
  let? C := _compute_center_transition_matrix T Rm in Ok (map fsum (to_rows C)).

Definition center_totals (T Rm : ndarray) : result (list float) :=
  let? st := center_sums T Rm in Ok (map (snd st) (seq 0 (ncols Rm))).

(** The assumptions of the invariant, decided: the entries of [R] lie in
    [0, 1], those of [T] are finite and not negative. *)
Definition in_unit_interval (m : ndarray) : bool :=
  forallb (forallb (fun x => leb 0 x && leb x 1)) (to_rows m).

Definition finite_nonnegative (m : ndarray) : bool :=
  forallb (forallb (fun x => leb 0 x && is_finite x)) (to_rows m).

(** [n] cells, each its own center. *)
Definition identity (n : nat) : ndarray :=
  {| nrows := n; ncols := n;
     data := fun i j => if i =? j then 1%float else 0%float |}.

(** Velocity from cell 0 to each of the six others, equally. *)
Definition T_seven : ndarray :=
  {| nrows := 7; ncols := 7;
     data := fun i j => if (i =? 0) && negb (j =? 0) then 1%float else 0%float |}.

(** Two transitions of 2^1023 out of cell 0: finite, with an infinite
    sum. *)
Definition T_huge : ndarray :=
  of_rows [[0; 0x1p+1023; 0x1p+1023]; [0; 0; 0]; [0; 0; 0]]%float.

End F64.

(** ** _calculate_segment_probability *)

Definition map_entries (f : float64 -> float64) (m : ndarray) : ndarray :=
  {| nrows := nrows m; ncols := ncols m; data := fun i j => f (data m i j) |}.

Definition _calculate_segment_probability
    (transition_matrix : ndarray) (segments : list (Z * Z)) : result (list float64) :=
  let log_transition_matrix := map_entries log1p transition_matrix in
  let log_transition_matrix := map_entries zero_inf log_transition_matrix in
  let log_transition_matrix := map_entries nan_to_num log_transition_matrix in
  let? picked :=
    mapM (fun s => getitem log_transition_matrix (fst s) (snd s)) segments in
  Ok (cumsum picked).

(** [a[-1]] on a 1-d array *)
Definition last_item {A} (l : list A) : result A :=
  match last l with
  | Some x => Ok x
  | None => Raise IndexError
  end.

(** ** _get_edges, _get_path, _get_all_segments *)

Definition truthy {A} (o : option (list A)) : bool :=
  match o with
  | Some (_ :: _) => true
  | _ => false
  end.

Definition _get_edges (orders : list Z) (parents : option (list Z)) : list (Z * Z) :=
  if truthy parents then
    List.filter (fun po => negb (fst po =? -1)%Z) (zip (default [] parents) orders)
  else
    map (fun i => (nth (i - 1) orders 0%Z, nth i orders 0%Z))
        (seq 1 (length orders - 1)).

Definition dict_getitem_Z (d : gmap Z Z) (k : Z) : result Z :=
  match d !! k with
  | Some v => Ok v
  | None => Raise KeyError
  end.

Definition inb (x : Z) (l : list Z) : bool := existsb (Z.eqb x) l.

(** The [while] loop of [_get_path]; one unit of fuel per test of its
    condition. *)
Fixpoint path_loop (fuel : nat) (parents_dict : gmap Z Z) (end_nodes : list Z)
    (cur : Z) (path : list Z) : result (list Z) :=
  match fuel with
  | O => Raise OutOfFuel
  | S fuel' =>
      if inb cur end_nodes then Ok path
      else
        let? cur := dict_getitem_Z parents_dict cur in
        path_loop fuel' parents_dict end_nodes cur (path ++ [cur])
  end.

Definition _get_path (fuel : nat) (parents_dict : gmap Z Z) (start : Z)
    (end_nodes : list Z) : result (option (list Z)) :=
  let? p := dict_getitem_Z parents_dict start in
  if (p =? -1)%Z then Ok None
  else
    let? cur := dict_getitem_Z parents_dict start in
    let? p' := dict_getitem_Z parents_dict start in
    let path := [start; p'] in
    let? path := path_loop fuel parents_dict end_nodes cur path in
    Ok (Some path).

(** [collections.Counter]: counts in order of first occurrence. *)
Fixpoint counter_add (x : Z) (c : list (Z * nat)) : list (Z * nat) :=
  match c with
  | [] => [(x, 1)]
  | (y, n) :: c' => if (x =? y)%Z then (y, S n) :: c' else (y, n) :: counter_add x c'
  end.

Definition Counter (l : list Z) : list (Z * nat) :=
  fold_left (fun c x => counter_add x c) l [].

Definition make_parents_dict (orders parents : list Z) : gmap Z Z :=
  fold_left (fun d cp => <[fst cp := snd cp]> d) (zip orders parents) ∅.

(** [parents_dict == -1]: a dict never equals an int. *)
Definition dict_eq_int (d : gmap Z Z) (n : Z) : bool := false.

Definition _get_all_segments (fuel : nat) (orders parents : list Z)
  : result (list (list Z)) :=
  let leaf_nodes := List.filter (fun node => negb (inb node parents)) orders in
  if length leaf_nodes =? 1 then Ok [orders]
  else
    let parents_dict := make_parents_dict orders parents in
    let element_counts := Counter parents in
    let bifurcation_nodes :=
      map fst
        (List.filter
           (fun nc : Z * nat =>
              let '(node, count) := nc in
              (1 <? count) && negb (node =? -1)%Z
              && negb ((count =? 2) && dict_eq_int parents_dict (-1)))
           element_counts) in
    let? root_nodes :=
      foldM (fun l node =>
               let? p := dict_getitem_Z parents_dict node in
               Ok (if (p =? -1)%Z then l ++ [node] else l))
            orders [] in
    let start_nodes := leaf_nodes ++ bifurcation_nodes in
    (* [end_nodes] is the same list object as [bifurcation_nodes] *)
    let end_nodes :=
      fold_left (fun end_nodes node =>
                   if inb node end_nodes then end_nodes else end_nodes ++ [node])
                root_nodes bifurcation_nodes in
    let parents_dict := make_parents_dict orders parents in
    foldM (fun segments node =>
             let? path := _get_path fuel parents_dict node end_nodes in
             match path with
             | Some path => Ok (segments ++ [path])
             | None => Ok segments
             end)
          start_nodes [].

(** ** The object store and the AnnData attributes *)

Definition loc : Type := positive.

Inductive pyobj : Type :=
| ODict (d : gmap string loc)      (* a dict with string keys *)
| OArray2 (m : ndarray)            (* a 2-d float ndarray *)
| OSparse (s : csr_matrix)         (* a scipy sparse matrix *)
| OArray1 (v : list Z).            (* a 1-d integer ndarray *)

(** [adata.obsp] and [adata.uns] map keys to objects of the store. *)
Record world : Type := mk_world {
  obsp : gmap string loc;
  uns : gmap string loc;
  store : gmap loc pyobj
}.

(** A statement: it may change the world and may raise; the world at the
    raise is kept. *)
Definition M (A : Type) : Type := world -> result A * world.

Definition ret {A} (a : A) : M A := fun w => (Ok a, w).
Definition raise {A} (e : exn) : M A := fun w => (Raise e, w).
Definition bind {A B} (c : M A) (k : A -> M B) : M B :=
  fun w =>
    match c w with
    | (Ok a, w') => k a w'
    | (Raise e, w') => (Raise e, w')
    end.
Definition lift {A} (r : result A) : M A := fun w => (r, w).

Declare Scope prog_scope.
Delimit Scope prog_scope with prog.
Notation "'let*' x := c 'in' k" := (bind c (fun x => k))
  (at level 10, x pattern, c at level 100, k at level 200) : prog_scope.
Notation "c ;; k" := (bind c (fun _ => k))
  (at level 100, k at level 200, right associativity) : prog_scope.
Open Scope prog_scope.

Fixpoint for_each {A} (l : list A) (body : A -> M unit) : M unit :=
  match l with
  | [] => ret tt
  | x :: l' => body x ;; for_each l' body
  end.

Fixpoint map_each {A B} (l : list A) (body : A -> M B) : M (list B) :=
  match l with
  | [] => ret []
  | x :: l' => let* y := body x in let* ys := map_each l' body in ret (y :: ys)
  end.

Definition obsp_contains (k : string) : M bool :=
  fun w => (Ok (bool_decide (is_Some (obsp w !! k))), w).

Definition uns_contains (k : string) : M bool :=
  fun w => (Ok (bool_decide (is_Some (uns w !! k))), w).

Definition obsp_getitem (k : string) : M loc :=
  fun w => match obsp w !! k with
           | Some l => (Ok l, w)
           | None => (Raise KeyError, w)
           end.

Definition uns_getitem (k : string) : M loc :=
  fun w => match uns w !! k with
           | Some l => (Ok l, w)
           | None => (Raise KeyError, w)
           end.

Definition uns_setitem (k : string) (l : loc) : M unit :=
  fun w => (Ok tt, {| obsp := obsp w; uns := <[k := l]> (uns w); store := store w |}).

Definition deref (l : loc) : M pyobj :=
  fun w => match store w !! l with
           | Some o => (Ok o, w)
           | None => (Raise TypeError, w)
           end.

(** [d[k]] for an object that should be a dict *)
Definition dict_getitem (l : loc) (k : string) : M loc :=
  let* o := deref l in
  match o with
  | ODict d => match d !! k with
               | Some v => ret v
               | None => raise KeyError
               end
  | _ => raise TypeError
  end.

Definition read_array2 (l : loc) : M ndarray :=
  let* o := deref l in
  match o with
  | OArray2 m => ret m
  | _ => raise TypeError
  end.

Definition read_array1 (l : loc) : M (list Z) :=
  let* o := deref l in
  match o with
  | OArray1 v => ret v
  | _ => raise TypeError
  end.

Definition read_matrix_input (l : loc) : M matrix_input :=
  let* o := deref l in
  match o with
  | OArray2 m => ret (Dense m)
  | OSparse s => ret (Sparse s)
  | _ => raise TypeError
  end.

Definition alloc (o : pyobj) : M loc :=
  fun w =>
    let l := fresh (dom (store w)) in
    (Ok l, {| obsp := obsp w; uns := uns w; store := <[l := o]> (store w) |}).

(** [x.copy()] *)
Definition copy (l : loc) : M loc :=
  let* o := deref l in alloc o.

(** [a[r, c]] *)
Definition array_getitem (l : loc) (r c : Z) : M float64 :=
  let* m := read_array2 l in lift (getitem m r c).

(** [a[r, c] = v] *)
Definition array_setitem (l : loc) (r c : Z) (v : float64) : M unit :=
  let* m := read_array2 l in
  let* m' := lift (setitem m r c v) in
  fun w => (Ok tt, {| obsp := obsp w; uns := uns w;
                      store := <[l := OArray2 m']> (store w) |}).

(** [np.argsort] of a 1-d array, as the stable order of the indices. *)
Fixpoint insert_by (v : list Z) (i : nat) (sorted : list nat) : list nat :=
  match sorted with
  | [] => [i]
  | j :: s => if (nth i v 0 <? nth j v 0)%Z then i :: j :: s
              else j :: insert_by v i s
  end.

Definition argsort (v : list Z) : list Z :=
  map Z.of_nat (fold_left (fun s i => insert_by v i s) (seq 0 (length v)) []).

(** [v[i]] on a 1-d array *)
Definition index1 (v : list Z) (i : Z) : result Z :=
  let? n := norm_index (length v) i in Ok (nth n v 0%Z).

(** ** construct_velocity_tree *)

(** The body of the loop over the segments (lines 177-192). *)
Definition orient_segment (center_transition_matrix : ndarray)
    (velocity_tree directed_velocity_tree : loc) (segment : list Z) : M unit :=
  let edge_pairs := _get_edges segment None in
  let edge_pairs_reversed := _get_edges (rev segment) None in
  let* segment_p :=
    lift (_calculate_segment_probability center_transition_matrix edge_pairs) in
  let* segment_p_reveresed :=
    lift (_calculate_segment_probability center_transition_matrix edge_pairs_reversed) in
  let* p := lift (last_item segment_p) in
  let* p_reversed := lift (last_item segment_p_reveresed) in
  if fgtb p p_reversed then
    for_each edge_pairs (fun rc =>
      let '(r, c) := rc in
      let* x := array_getitem velocity_tree r c in
      let* y := array_getitem velocity_tree c r in
      array_setitem directed_velocity_tree r c (py_max x y) ;;
      array_setitem directed_velocity_tree c r (Fin 0))
  else if fltb p p_reversed then
    for_each edge_pairs (fun rc =>
      let '(r, c) := rc in
      let* x := array_getitem velocity_tree r c in
      let* y := array_getitem velocity_tree c r in
      array_setitem directed_velocity_tree c r (py_max x y) ;;
      array_setitem directed_velocity_tree r c (Fin 0))
  else
    for_each edge_pairs (fun rc =>
      let '(r, c) := rc in
      let* y := array_getitem velocity_tree c r in
      array_setitem directed_velocity_tree c r y ;;
      let* x := array_getitem velocity_tree r c in
      array_setitem directed_velocity_tree r c x).

(** [main_info] and [main_info_insert_adata_uns] write log lines only (their
    module, dynamo_logger, is outside the excerpt); they are left out. *)
Definition construct_velocity_tree (fuel : nat) (transition_matrix_key : string)
  : M loc :=
  let* present := obsp_contains (transition_matrix_key +:+ "_transition_matrix") in
  if negb present then raise KeyError
  else
  let* present := uns_contains "cell_order" in
  if negb present then raise KeyError
  else
  let* transition_matrix := obsp_getitem (transition_matrix_key +:+ "_transition_matrix") in
  let* cell_order := uns_getitem "cell_order" in
  let* Rm := dict_getitem cell_order "R" in
  let* cell_order := uns_getitem "cell_order" in
  let* centers_order := dict_getitem cell_order "centers_order" in
  let* centers_order := read_array1 centers_order in
  let orders := argsort centers_order in
  let* parents :=
    map_each orders (fun node =>
      let* cell_order := uns_getitem "cell_order" in
      let* centers_parent := dict_getitem cell_order "centers_parent" in
      let* centers_parent := read_array1 centers_parent in
      lift (index1 centers_parent node)) in
  let* cell_order := uns_getitem "cell_order" in
  let* velocity_tree := dict_getitem cell_order "centers_minSpanningTree" in
  let* directed_velocity_tree := copy velocity_tree in
  let* segments := lift (_get_all_segments fuel orders parents) in
  let* transition_matrix := read_matrix_input transition_matrix in
  let* Rm := read_array2 Rm in
  let* center_transition_matrix :=
    lift (_compute_center_transition_matrix transition_matrix Rm) in
  for_each segments
    (orient_segment center_transition_matrix velocity_tree directed_velocity_tree) ;;
  uns_setitem "directed_velocity_tree" directed_velocity_tree ;;
  ret directed_velocity_tree.

(** * The Scribe wrapper (dynamo/external/scribe.py) *)

(** [scribe] is glue around pandas, anndata, the Scribe package and helpers
    of the repository that are defined in other files ([szFactor],
    [normalize_data], [TF_link_gene_chip]).  What those compute is left open:
    they are the fields of the class [Externals], each one free to raise.
    What is modelled is the way the AnnData objects travel through the
    function.  [adata.copy()] copies the whole object and [adata[...]]
    builds a new one, so AnnData objects are values here: an assignment into
    one of them never shows in another. *)
Module Scribe.
Section Wrapper.
Context {layer dataframe series mask network : Type}.

#[local] Set Warnings "-register-all".

Inductive uns_value : Type :=
| UNet (n : network)
| UFrame (d : dataframe)
| UDict (items : list (string * uns_value)).

Record AnnData : Type := mk_AnnData {
  n_obs : nat;
  n_vars : nat;
  layers : gmap string layer;
  uns : gmap string uns_value;
  obs : dataframe;
  var : dataframe
}.

Definition set_uns (a : AnnData) (k : string) (v : uns_value) : AnnData :=
  {| n_obs := n_obs a; n_vars := n_vars a; layers := layers a;
     uns := <[k := v]> (uns a); obs := obs a; var := var a |}.

Definition set_layer (a : AnnData) (k : string) (v : layer) : AnnData :=
  {| n_obs := n_obs a; n_vars := n_vars a; layers := <[k := v]> (layers a);
     uns := uns a; obs := obs a; var := var a |}.

Definition copy (a : AnnData) : AnnData := a.

Class Externals : Type := {
  (* pandas, numpy, scipy *)
  read_csv : string -> result dataframe;
  loc_column : dataframe -> string -> result series;
  expressed_in_more_than : layer -> R -> mask;       (* (x > 0).sum(0) > t *)
  row_sum_greater : layer -> Z -> mask;              (* x.sum(1) > t *)
  layer_issparse : layer -> bool;
  A1 : mask -> mask;
  mask_mul : mask -> mask -> mask;
  layer_sub : layer -> layer -> layer;
  intersection : list string -> list string -> list string;
  add_id_gene : dataframe -> result dataframe;
  gene_columns : dataframe -> result dataframe;
  melt : uns_value -> result dataframe;
  merge : dataframe -> dataframe -> result dataframe;
  (* anndata *)
  select_vars : AnnData -> mask -> result AnnData;   (* adata[:, m] *)
  select_obs : AnnData -> mask -> result AnnData;    (* adata[m, :] *)
  size_factors : AnnData -> result series;
  TF_names : AnnData -> series -> result (list string);
  other_names : AnnData -> list string -> list string;
  (* the Scribe package *)
  Scribe_installed : bool;
  causal_net_dynamics_coupling :
    AnnData -> list string -> list string -> string -> string -> result AnnData;
  CLR : uns_value -> result uns_value;
  (* helpers of the repository *)
  szFactor : AnnData -> result AnnData;
  normalize_data : layer -> series -> R -> result layer;
  TF_link_gene_chip : dataframe -> dataframe -> dataframe -> R -> result dataframe
}.

Context {E : Externals}.

Definition list_item (l : list string) (i : nat) : result string :=
  match l !! i with
  | Some x => Ok x
  | None => Raise IndexError
  end.

Definition layer_item (a : AnnData) (k : string) : result layer :=
  match layers a !! k with
  | Some x => Ok x
  | None => Raise KeyError
  end.

Definition has_layer (a : AnnData) (k : string) : bool :=
  bool_decide (is_Some (layers a !! k)).

(** [d.update({k: v})] on a dict kept in insertion order. *)
Fixpoint dict_update (d : list (string * uns_value)) (k : string) (v : uns_value)
  : list (string * uns_value) :=
  match d with
  | [] => [(k, v)]
  | (k', v') :: d' => if String.eqb k k' then (k, v) :: d'
                      else (k', v') :: dict_update d' k v
  end.

Definition A1_if_sparse (x : layer) (m : mask) : mask :=
  if layer_issparse x then A1 m else m.

(** Lines 75-139: all that happens between the copy and the final
    assignment.  [adata] is the local variable of the source, bound anew at
    each of its assignments. *)
Definition scribe_network (adata : AnnData) (n_obs : nat) (TF_list : series)
    (genes : option (list string)) (gene_filter_rate : R) (cell_filter_UMI : Z)
    (nt_layers : list string) (do_CLR : bool) (TF_link_ENCODE_ref : option string)
  : result (list (string * uns_value)) :=
  (* filter genes *)
  let? k0 := list_item nt_layers 0 in
  let? x0 := layer_item adata k0 in
  let gene_filter_new := expressed_in_more_than x0 (gene_filter_rate * INR n_obs) in
  let? k1 := list_item nt_layers 1 in
  let? x1 := layer_item adata k1 in
  let gene_filter_tot := expressed_in_more_than x1 (gene_filter_rate * INR n_obs) in
  let gene_filter_new := A1_if_sparse x0 gene_filter_new in
  let gene_filter_tot := A1_if_sparse x1 gene_filter_tot in
  let? adata := select_vars adata (mask_mul gene_filter_new gene_filter_tot) in
  (* filter cells *)
  let? x1 := layer_item adata k1 in
  let cell_filter := row_sum_greater x1 cell_filter_UMI in
  let cell_filter := A1_if_sparse x1 cell_filter in
  let? adata := select_obs adata cell_filter in
  (* the expression matrices *)
  let? new := layer_item adata k0 in
  let? total := layer_item adata k1 in
  (* size factors, then normalisation *)
  let? adata := szFactor adata in
  let? szfactors := size_factors adata in
  let? x := normalize_data new szfactors (1 / 10) in
  let adata := set_layer adata k0 x in
  let? x := normalize_data total szfactors (1 / 10) in
  let adata := set_layer adata k1 x in
  let? adata :=
    if String.eqb k1 "old" && negb (has_layer adata "old")
    then
      if negb (has_layer adata "velocity")
      then let? t := layer_item adata "total" in
           let? n := layer_item adata "new" in
           Ok (set_layer adata "old" (layer_sub t n))
      else let? t := layer_item adata "total" in
           let? v := layer_item adata "velocity" in
           Ok (set_layer adata "old" (layer_sub t v))
    else Ok adata in
  let? TFs := TF_names adata TF_list in
  let Targets := other_names adata TFs in
  let TFs' := match genes with Some g => intersection g TFs | None => TFs end in
  let Targets := match genes with Some g => intersection g Targets | None => Targets end in
  let? adata := causal_net_dynamics_coupling adata TFs' Targets k1 k0 in
  let? rdi := match uns adata !! "causal_net" with
              | Some v => Ok v
              | None => Raise KeyError
              end in
  let res_dict := [("RDI", rdi)] in
  let? res_dict :=
    if do_CLR then let? c := CLR rdi in Ok (dict_update res_dict "CLR" c)
    else Ok res_dict in
  match TF_link_ENCODE_ref with
  | Some ref =>
      let? df := read_csv ref in
      let? df := add_id_gene df in
      let? df_gene := gene_columns (var adata) in
      let? net := match last res_dict with
                  | Some kv => Ok (snd kv)
                  | None => Raise IndexError
                  end in
      let? net := melt net in
      let? net_var := merge net df_gene in
      let? net_var := add_id_gene net_var in
      let? filtered := TF_link_gene_chip net_var df (var adata) (2 / 100) in
      Ok (dict_update res_dict "filtered" (UFrame filtered))
  | None => Ok res_dict
  end.

Definition scribe (adata : AnnData) (genes : option (list string))
    (gene_filter_rate : R) (cell_filter_UMI : Z) (motif_ref : string)
    (nt_layers : list string) (do_CLR : bool) (TF_link_ENCODE_ref : option string)
  : result AnnData :=
  if negb Scribe_installed then Raise ImportError
  else
    let? motifAnnotations_hgnc := read_csv motif_ref in
    let? TF_list := loc_column motifAnnotations_hgnc "TF" in
    let adata_ := copy adata in
    let n_obs := n_obs adata_ in
    let? res_dict :=
      scribe_network adata n_obs TF_list genes gene_filter_rate cell_filter_UMI
                     nt_layers do_CLR TF_link_ENCODE_ref in
    let adata_ := set_uns adata_ "causal_net" (UDict res_dict) in
    Ok adata_.

End Wrapper.

Arguments uns_value : clear implicits.
Arguments AnnData : clear implicits.
Arguments Externals : clear implicits.

(** An object with two cells and three genes, and externals that succeed:
    the filters keep one gene and one cell, the network is a single value. *)
Definition adata_example : AnnData unit unit unit :=
  {| n_obs := 2; n_vars := 3;
     layers := <["new" := tt]> (<["total" := tt]> ∅);
     uns := ∅; obs := tt; var := tt |}.

Definition externals_example : Externals unit unit unit unit unit :=
  {| read_csv := fun _ => Ok tt;
     loc_column := fun _ _ => Ok tt;
     expressed_in_more_than := fun _ _ => tt;
     row_sum_greater := fun _ _ => tt;
     layer_issparse := fun _ => false;
     A1 := fun m => m;
     mask_mul := fun _ _ => tt;
     layer_sub := fun _ _ => tt;
     intersection := fun g _ => g;
     add_id_gene := fun d => Ok d;
     gene_columns := fun d => Ok d;
     melt := fun _ => Ok tt;
     merge := fun _ _ => Ok tt;
     select_vars := fun a _ =>
       Ok {| n_obs := n_obs a; n_vars := 1; layers := layers a;
             uns := uns a; obs := obs a; var := var a |};
     select_obs := fun a _ =>
       Ok {| n_obs := 1; n_vars := n_vars a; layers := layers a;
             uns := uns a; obs := obs a; var := var a |};
     size_factors := fun _ => Ok tt;
     TF_names := fun _ _ => Ok ["g1"];
     other_names := fun _ _ => ["g2"];
     Scribe_installed := true;
     causal_net_dynamics_coupling := fun a _ _ _ _ => Ok (set_uns a "causal_net" (UNet tt));
     CLR := fun v => Ok v;
     szFactor := fun a => Ok a;
     normalize_data := fun x _ _ => Ok x;
     TF_link_gene_chip := fun _ _ _ _ => Ok tt |}.

Definition result_example : AnnData unit unit unit :=
  set_uns adata_example "causal_net" (UDict [("RDI", UNet tt); ("CLR", UNet tt)]).

End Scribe.

(** * Vocabulary of the statements *)

(** ** Sums of reals, finite floats *)

Definition Rsum (l : list R) : R := fold_left Rplus l 0%R.

(** A float that is neither nan nor an infinity. *)
Definition finite (a : float64) : Prop := exists x, a = Fin x.

(** ** The center-level transition matrix *)

(** What the aggregation is meant to compute, in the words of its
    description: cell [i] is assigned to the center of its largest [R]
    entry; the unnormalised entry (a, b) sums R[i,a] * R[j,b] * T[i,j] over
    the cells [i] of [a] and [j] of [b]; a row total sums the unnormalised
    entries of the row off the diagonal. *)
Definition assigned_center (Rm : ndarray) (i : nat) : nat :=
  argmax (data Rm i) (ncols Rm).


Definition cells_of (Rm : ndarray) (a : nat) : list nat :=
  List.filter (fun i => assigned_center Rm i =? a) (seq 0 (nrows Rm)).

Definition unnormalized (T Rm : ndarray) (a b : nat) : float64 :=
  fsum (flat_map
          (fun i => map (fun j => fmul (fmul (data Rm i a) (data Rm j b)) (data T i j))
                        (cells_of Rm b))
          (cells_of Rm a)).

Definition off_diagonal (k a : nat) : list nat :=
  List.filter (fun b => negb (b =? a)) (seq 0 k).

Definition row_total (T Rm : ndarray) (a : nat) : float64 :=
  fsum (map (unnormalized T Rm a) (off_diagonal (ncols Rm) a)).

Definition dense_of (t : matrix_input) : ndarray :=
  match t with
  | Sparse s => toarray s
  | Dense m => m
  end.

Definition clean (a : float64) : float64 := nan_to_num (zero_inf a).

Definition to_R (a : float64) : R :=
  match a with Fin x => x | _ => 0%R end.

Definition nonneg (a : float64) : Prop := exists x, a = Fin x /\ (0 <= x)%R.

(** Example inputs: one cell, two centers; the cell belongs to center 0
    and center 1 is empty. *)
Definition R_one_cell : ndarray := of_rows [[Fin 1; Fin 0]].

Definition T_one_cell : ndarray := of_rows [[Fin 0]].

(** Four cells on three centers: cells 0 and 1 on center 0 (cell 1 with
    weight 1/2), cell 2 on center 1, cell 3 on center 2; velocity from the
    cells of center 0 to the two others. *)
Definition R_three : ndarray :=
  of_rows [[Fin 1; Fin 0; Fin 0];
           [Fin (1 / 2); Fin (1 / 4); Fin (1 / 4)];
           [Fin 0; Fin 1; Fin 0];
           [Fin 0; Fin 0; Fin 1]].

Definition T_four : ndarray :=
  of_rows [[Fin 0; Fin 0; Fin 1; Fin 1];
           [Fin 0; Fin 0; Fin 2; Fin 0];
           [Fin 0; Fin 0; Fin 0; Fin 0];
           [Fin 0; Fin 0; Fin 0; Fin 0]].

(** ** The orientation loop as a function on arrays *)

Definition set_store (w : world) (st : gmap loc pyobj) : world :=
  {| obsp := obsp w; uns := uns w; store := st |}.

(** The three loop bodies of lines 182-192 on array values: [V] is the
    undirected tree that is read, [D] the copy that is written. *)
Definition write_forward (V D : ndarray) (rc : Z * Z) : result ndarray :=
  let '(r, c) := rc in
  let? x := getitem V r c in
  let? y := getitem V c r in
  let? D := setitem D r c (py_max x y) in
  setitem D c r (Fin 0).

Definition write_backward (V D : ndarray) (rc : Z * Z) : result ndarray :=
  let '(r, c) := rc in
  let? x := getitem V r c in
  let? y := getitem V c r in
  let? D := setitem D c r (py_max x y) in
  setitem D r c (Fin 0).

Definition write_keep (V D : ndarray) (rc : Z * Z) : result ndarray :=
  let '(r, c) := rc in
  let? y := getitem V c r in
  let? D := setitem D c r y in
  let? x := getitem V r c in
  setitem D r c x.

Definition segment_scores (C : ndarray) (segment : list Z) : result (float64 * float64) :=
  let? segment_p := _calculate_segment_probability C (_get_edges segment None) in
  let? segment_p_reversed :=
    _calculate_segment_probability C (_get_edges (rev segment) None) in
  let? p := last_item segment_p in
  let? p_reversed := last_item segment_p_reversed in
  Ok (p, p_reversed).

Definition orient_segment_array (C V D : ndarray) (segment : list Z) : result ndarray :=
  let? pp := segment_scores C segment in
  let '(p, p_reversed) := pp in
  if fgtb p p_reversed then foldM (write_forward V) (_get_edges segment None) D
  else if fltb p p_reversed then foldM (write_backward V) (_get_edges segment None) D
  else foldM (write_keep V) (_get_edges segment None) D.

(** The store [w0] in which the array at [d] has become [D]. *)
Definition at_array (w0 : world) (d : loc) (D : ndarray) (w : world) : Prop :=
  w = set_store w0 (<[d := OArray2 D]> (store w0)).

(** A statement that behaves on the store as [r] does on the array. *)
Definition runs_as (w0 : world) (d : loc) (c : M unit) (r : ndarray -> result ndarray)
  : Prop :=
  forall D w, at_array w0 d D w ->
    match r D with
    | Ok D' => exists w', c w = (Ok tt, w') /\ at_array w0 d D' w'
    | Raise e => fst (c w) = Raise e
    end.

(** ** What a run leaves untouched *)

(** [ext w0 w]: [w] has the attributes of [w0] and every object of [w0]
    with its value in [w0]; it may hold objects that [w0] did not have. *)
Definition ext (w0 w : world) : Prop :=
  obsp w = obsp w0 /\ uns w = uns w0
  /\ forall l, l ∈ dom (store w0) -> store w !! l = store w0 !! l.

Definition keeps {A} (w0 : world) (c : M A) (Q : A -> Prop) : Prop :=
  forall w, ext w0 w -> ext w0 (snd (c w)) /\ forall a, fst (c w) = Ok a -> Q a.

Definition triple {A} (w0 : world) (c : M A) (Q : result A -> world -> Prop) : Prop :=
  forall w, ext w0 w -> Q (fst (c w)) (snd (c w)).

(** The state after [construct_velocity_tree], against the state [w0]
    before it. *)
Definition construct_post (w0 : world) (r : result loc) (w' : world) : Prop :=
  obsp w' = obsp w0
  /\ (forall l, l ∈ dom (store w0) -> store w' !! l = store w0 !! l)
  /\ match r with
     | Ok l => uns w' = <["directed_velocity_tree" := l]> (uns w0)
               /\ l ∉ dom (store w0)
     | Raise _ => uns w' = uns w0
     end.

(** ** A run of [construct_velocity_tree] on well-typed inputs *)

Definition matrix_at (w : world) (l : loc) (t : matrix_input) : Prop :=
  match t with
  | Dense m => store w !! l = Some (OArray2 m)
  | Sparse s => store w !! l = Some (OSparse s)
  end.

(** The objects the function reads: the cell-level matrix [t], the
    assignment matrix [Rm], the arrays [co] = centers_order and
    [cp] = centers_parent, and the tree [V] at location [lV]. *)
Definition reads (key : string) (w : world) (t : matrix_input) (Rm : ndarray)
    (co cp : list Z) (lV : loc) (V : ndarray) : Prop :=
  exists lT lco dco lR lord lpar,
    obsp w !! (key +:+ "_transition_matrix") = Some lT
    /\ uns w !! "cell_order" = Some lco
    /\ store w !! lco = Some (ODict dco)
    /\ dco !! "R" = Some lR
    /\ dco !! "centers_order" = Some lord
    /\ dco !! "centers_parent" = Some lpar
    /\ dco !! "centers_minSpanningTree" = Some lV
    /\ store w !! lord = Some (OArray1 co)
    /\ store w !! lpar = Some (OArray1 cp)
    /\ store w !! lV = Some (OArray2 V)
    /\ store w !! lR = Some (OArray2 Rm)
    /\ matrix_at w lT t.

(** The array computed from the objects read. *)
Definition directed_tree (fuel : nat) (t : matrix_input) (Rm : ndarray)
    (co cp : list Z) (V : ndarray) : result ndarray :=
  let orders := argsort co in
  let? parents := mapM (index1 cp) orders in
  let? segments := _get_all_segments fuel orders parents in
  let? C := _compute_center_transition_matrix t Rm in
  foldM (orient_segment_array C V) segments V.

Definition final_world (w : world) (D : ndarray) : world :=
  let l := fresh (dom (store w)) in
  {| obsp := obsp w;
     uns := <["directed_velocity_tree" := l]> (uns w);
     store := <[l := OArray2 D]> (store w) |}.

(** ** Item assignments on arrays *)

(** The undirected edge {r, c} against an ordered pair. *)
Definition touches (rc : Z * Z) (r c : Z) : Prop :=
  rc = (r, c) \/ rc = (c, r).

(** What one loop body leaves at the two entries of its edge, by the
    branch taken. *)
Inductive branch : Type := Forward | Backward | Keep.

Definition write_of (b : branch) : ndarray -> ndarray -> Z * Z -> result ndarray :=
  match b with
  | Forward => write_forward
  | Backward => write_backward
  | Keep => write_keep
  end.

Definition written (b : branch) (x y : float64) : float64 * float64 :=
  match b with
  | Forward => (py_max x y, Fin 0)
  | Backward => (Fin 0, py_max x y)
  | Keep => (x, y)
  end.

Definition branch_of (p p_reversed : float64) : branch :=
  if fgtb p p_reversed then Forward
  else if fltb p p_reversed then Backward
  else Keep.

Definition edges_of (segment : list Z) : list (Z * Z) := _get_edges segment None.

Definition nonneg_edges (edges : list (Z * Z)) : Prop :=
  forall rc, In rc edges -> (0 <= fst rc)%Z /\ (0 <= snd rc)%Z.

(** ** Edge pairs and segment scores *)

(** The log-transformed entry that the scores add up. *)
Definition log_entry (a : float64) : float64 := nan_to_num (zero_inf (log1p a)).

(** ** Lists, counters and the parent dictionary *)

Fixpoint counter_get (c : list (Z * nat)) (y : Z) : nat :=
  match c with
  | [] => 0
  | (z, n) :: c' => if (y =? z)%Z then n else counter_get c' y
  end.

Fixpoint occurrences (y : Z) (l : list Z) : nat :=
  match l with
  | [] => 0
  | x :: l' => (if (x =? y)%Z then 1 else 0) + occurrences y l'
  end.

(** The bifurcation nodes of [_get_all_segments]. *)
Definition bifurcation_nodes_of (parents : list Z) (parents_dict : gmap Z Z) : list Z :=
  map fst
    (List.filter
       (fun nc : Z * nat =>
          let '(node, count) := nc in
          (1 <? count) && negb (node =? -1)%Z
          && negb ((count =? 2) && dict_eq_int parents_dict (-1)))
       (Counter parents)).

(** Consecutive nodes of a list are linked by the parent dictionary. *)
Definition chain (pd : gmap Z Z) (l : list Z) : Prop :=
  forall i x y, l !! i = Some x -> l !! S i = Some y -> pd !! x = Some y.

(** ** Trees given by a traversal order and parent array *)

(** [orders] lists the nodes, [parents] the parent of each node of [orders]
    at the same position, -1 for a root.  In a traversal order every parent
    comes before its children. *)
Record tree (orders parents : list Z) : Prop := {
  tree_nodup : NoDup orders;
  tree_length : length parents = length orders;
  tree_nonneg : forall x, x ∈ orders -> (0 <= x)%Z;
  tree_parent_before : forall i p, parents !! i = Some p ->
    p = (-1)%Z \/ exists j, j < i /\ orders !! j = Some p
}.

Definition parent_of (orders parents : list Z) (x p : Z) : Prop :=
  exists i, orders !! i = Some x /\ parents !! i = Some p.

Definition is_leaf (orders parents : list Z) (x : Z) : Prop :=
  x ∈ orders /\ x ∉ parents.

Definition is_bifurcation (parents : list Z) (x : Z) : Prop :=
  2 <= occurrences x parents /\ x <> (-1)%Z.

Definition is_root (orders parents : list Z) (x : Z) : Prop :=
  parent_of orders parents x (-1)%Z.

Definition leaf_nodes_of (orders parents : list Z) : list Z :=
  List.filter (fun node => negb (inb node parents)) orders.

(** [x] is immediately followed by [y] in [l]. *)
Definition adjacent (x y : Z) (l : list Z) : Prop :=
  exists i, l !! i = Some x /\ l !! S i = Some y.

(** What [_get_path] returns for a start node: the node, its parent, and
    the chain of parents up to the first end node. *)
Definition path_from (orders parents ends : list Z) (start : Z) (seg : list Z) : Prop :=
  exists p ext,
    seg = start :: p :: ext
    /\ make_parents_dict orders parents !! start = Some p /\ p <> (-1)%Z
    /\ chain (make_parents_dict orders parents) (p :: ext)
    /\ (exists z, last (p :: ext) = Some z /\ z ∈ ends)
    /\ forall i x, (p :: ext) !! i = Some x -> i < length ext -> x ∉ ends.

(** The end nodes of the source: the bifurcation nodes and the roots. *)
Definition ends_ok (orders parents ends : list Z) : Prop :=
  forall x, x ∈ ends <->
    x ∈ bifurcation_nodes_of parents (make_parents_dict orders parents)
    \/ (x ∈ orders /\ make_parents_dict orders parents !! x = Some (-1)%Z).

(** The accumulation of the paths of the start nodes (lines 133-137). *)
Definition collect_paths (gp : Z -> result (option (list Z)))
    (starts : list Z) (acc : list (list Z)) : result (list (list Z)) :=
  foldM (fun segments node =>
           let? path := gp node in
           match path with
           | Some path => Ok (segments ++ [path])
           | None => Ok segments
           end)
        starts acc.

(** ** The segments of a tree *)

(** No two edge pairs of the segments are the same undirected edge. *)
Definition edges_isolated (segs : list (list Z)) : Prop :=
  forall s s' i i' r c rc',
    s ∈ segs -> s' ∈ segs ->
    edges_of s !! i = Some (r, c) -> edges_of s' !! i' = Some rc' ->
    touches rc' r c -> s = s' /\ i = i'.

Definition well_separated (segs : list (list Z)) : Prop :=
  NoDup segs
  /\ (forall s x, s ∈ segs -> x ∈ s -> (0 <= x)%Z)
  /\ (forall s i r c, s ∈ segs -> edges_of s !! i = Some (r, c) -> r <> c)
  /\ edges_isolated segs.

(** ** The entries of the directed tree *)

(** The tree that [construct_velocity_tree] reads from the world. *)
Definition tree_read (co cp parents : list Z) : Prop :=
  mapM (index1 cp) (argsort co) = Ok parents /\ tree (argsort co) parents.

(** ** Example inputs *)

(** Two cells, two centers, cell [i] on center [i]; the tree is the chain
    0 -> 1 with weight 3 stored in both directions. *)
Definition R_two : ndarray := of_rows [[Fin 1; Fin 0]; [Fin 0; Fin 1]].

Definition V_two : ndarray := of_rows [[Fin 0; Fin 3]; [Fin 3; Fin 0]].

(** velocity from cell 0 to cell 1 only *)
Definition T_two : ndarray := of_rows [[Fin 0; Fin 1]; [Fin 0; Fin 0]].

(** no velocity at all *)
Definition T_zero : ndarray := of_rows [[Fin 0; Fin 0]; [Fin 0; Fin 0]].

(** [T_two] in CSR form *)
Definition csr_two : csr_matrix :=
  {| csr_rows := 2; csr_cols := 2; indptr := [0; 1; 1]; indices := [1]; values := [Fin 1] |}.

Definition cell_order_two : gmap string loc :=
  {[ "R" := 2%positive; "centers_order" := 3%positive;
     "centers_parent" := 4%positive; "centers_minSpanningTree" := 5%positive ]}.

Definition world_with (transitions : pyobj) : world :=
  {| obsp := {[ "pearson_transition_matrix" := 1%positive ]};
     uns := {[ "cell_order" := 6%positive ]};
     store := list_to_map
                [ (1%positive, transitions); (2%positive, OArray2 R_two);
                  (3%positive, OArray1 [0; 1]%Z); (4%positive, OArray1 [-1; 0]%Z);
                  (5%positive, OArray2 V_two); (6%positive, ODict cell_order_two) ] |}.

Definition world_two : world := world_with (OArray2 T_two).

Definition world_tie : world := world_with (OArray2 T_zero).

Definition world_sparse : world := world_with (OSparse csr_two).

(** No transition matrix under the key. *)
Definition world_no_matrix : world :=
  {| obsp := ∅; uns := {[ "cell_order" := 6%positive ]};
     store := {[ 6%positive := ODict cell_order_two ]} |}.

(** Both keys present, but [cell_order] has no entry "R". *)
Definition world_no_R : world :=
  {| obsp := {[ "pearson_transition_matrix" := 1%positive ]};
     uns := {[ "cell_order" := 6%positive ]};
     store := {[ 1%positive := OArray2 T_two; 6%positive := ODict ∅ ]} |}.

Definition fresh_of (w : world) : loc := fresh (dom (store w)).

Definition world_after (w : world) : world := snd (construct_velocity_tree 2 "pearson" w).

(** ** The log-likelihood of a path *)

(** What a log-likelihood under a first-order Markov assumption would be:
    the sum of the logarithms of the transition probabilities along the
    edges. *)
Definition log_likelihood (C : ndarray) (edges : list (Z * Z)) : result float64 :=
  let? ps := mapM (fun e => getitem C (fst e) (snd e)) edges in
  Ok (fsum (map log ps)).

(** ** Inputs and variants for the further properties *)

(** A transition matrix that holds a nan and an infinity. *)
Definition T_bad : ndarray := of_rows [[Fin 0; NaN]; [PInf; Fin 0]].

(** [T] seen with [r] more rows and [c] more columns: the same entries. *)
Definition enlarge (T : ndarray) (r c : nat) : ndarray :=
  {| nrows := nrows T + r; ncols := ncols T + c; data := data T |}.

(** Two cells on two centers, and a transition matrix with the row of the
    first cell only. *)
Definition T_one_row : ndarray := of_rows [[Fin 0; Fin 1]].

(** One cell on one center: a tree that is a single node. *)
Definition R_single : ndarray := of_rows [[Fin 1]].

Definition world_one_center : world :=
  {| obsp := {[ "pearson_transition_matrix" := 1%positive ]};
     uns := {[ "cell_order" := 6%positive ]};
     store := list_to_map
                [ (1%positive, OArray2 T_one_cell); (2%positive, OArray2 R_single);
                  (3%positive, OArray1 [0]%Z); (4%positive, OArray1 [-1]%Z);
                  (5%positive, OArray2 T_one_cell); (6%positive, ODict cell_order_two) ] |}.

(** An assignment matrix with a row and no column. *)
Definition R_no_center : ndarray := of_rows [[]].

Definition world_no_center : world :=
  {| obsp := {[ "pearson_transition_matrix" := 1%positive ]};
     uns := {[ "cell_order" := 6%positive ]};
     store := list_to_map
                [ (1%positive, OArray2 T_two); (2%positive, OArray2 R_no_center);
                  (3%positive, OArray1 [0; 1]%Z); (4%positive, OArray1 [-1; 0]%Z);
                  (5%positive, OArray2 V_two); (6%positive, ODict cell_order_two) ] |}.

(** The externals [E] with another subtraction of layers. *)
Definition with_layer_sub {layer dataframe series mask network : Type}
    (E : Scribe.Externals layer dataframe series mask network)
    (f : layer -> layer -> layer)
  : Scribe.Externals layer dataframe series mask network :=
  {| Scribe.read_csv := Scribe.read_csv;
     Scribe.loc_column := Scribe.loc_column;
     Scribe.expressed_in_more_than := Scribe.expressed_in_more_than;
     Scribe.row_sum_greater := Scribe.row_sum_greater;
     Scribe.layer_issparse := Scribe.layer_issparse;
     Scribe.A1 := Scribe.A1;
     Scribe.mask_mul := Scribe.mask_mul;
     Scribe.layer_sub := f;
     Scribe.intersection := Scribe.intersection;
     Scribe.add_id_gene := Scribe.add_id_gene;
     Scribe.gene_columns := Scribe.gene_columns;
     Scribe.melt := Scribe.melt;
     Scribe.merge := Scribe.merge;
     Scribe.select_vars := Scribe.select_vars;
     Scribe.select_obs := Scribe.select_obs;
     Scribe.size_factors := Scribe.size_factors;
     Scribe.TF_names := Scribe.TF_names;
     Scribe.other_names := Scribe.other_names;
     Scribe.Scribe_installed := Scribe.Scribe_installed;
     Scribe.causal_net_dynamics_coupling := Scribe.causal_net_dynamics_coupling;
     Scribe.CLR := Scribe.CLR;
     Scribe.szFactor := Scribe.szFactor;
     Scribe.normalize_data := Scribe.normalize_data;
     Scribe.TF_link_gene_chip := Scribe.TF_link_gene_chip |}.

(** ** Sparse matrices and their dense equivalents *)

(** Position [p] of the CSR arrays holds an entry of row [i] and column
    [j]: it lies between the row pointers of [i] and its column index is
    [j]. *)
Definition stored_at (s : csr_matrix) (i j p : nat) : Prop :=
  nth i (indptr s) 0 <= p < nth (S i) (indptr s) 0 /\ nth p (indices s) 0 = j.

(** No entry is stored twice. *)
Definition no_duplicate_entries (s : csr_matrix) : Prop :=
  forall i j p p', stored_at s i j p -> stored_at s i j p' -> p = p'.

(** "The equivalent dense ndarray" of a sparse matrix: an array of the
    same shape that has every stored entry at its place and 0 where nothing
    is stored. *)
Definition dense_equivalent (s : csr_matrix) (m : ndarray) : Prop :=
  nrows m = csr_rows s
  /\ ncols m = csr_cols s
  /\ forall i j, i < csr_rows s -> j < csr_cols s ->
       (forall p, stored_at s i j p -> data m i j = nth p (values s) (Fin 0))
       /\ ((forall p, ~ stored_at s i j p) -> data m i j = Fin 0).

(** ** The Scribe wrapper: the object handed to Scribe and the dict of results *)

Section ScribeVocabulary.
Context {layer dataframe series mask network : Type}.
Context {E : Scribe.Externals layer dataframe series mask network}.

(** [a] is what lines 78-111 make of [adata]: the genes expressed in
    enough cells in both layers are kept, then the cells with enough counts
    in the second layer, the size factors are recomputed and both layers are
    normalised. *)
Definition scribe_prepared (adata : Scribe.AnnData layer dataframe network)
    (gene_filter_rate : R) (cell_filter_UMI : Z) (k0 k1 : string)
    (a : Scribe.AnnData layer dataframe network) : Prop :=
  exists x0 x1 a1 y1 a2 new total a3 szfactors n0 n1,
    Scribe.layers adata !! k0 = Some x0
    /\ Scribe.layers adata !! k1 = Some x1
    /\ Scribe.select_vars adata
         (Scribe.mask_mul
            (Scribe.A1_if_sparse x0
               (Scribe.expressed_in_more_than x0
                  (gene_filter_rate * INR (Scribe.n_obs adata))))
            (Scribe.A1_if_sparse x1
               (Scribe.expressed_in_more_than x1
                  (gene_filter_rate * INR (Scribe.n_obs adata))))) = Ok a1
    /\ Scribe.layers a1 !! k1 = Some y1
    /\ Scribe.select_obs a1
         (Scribe.A1_if_sparse y1 (Scribe.row_sum_greater y1 cell_filter_UMI)) = Ok a2
    /\ Scribe.layers a2 !! k0 = Some new
    /\ Scribe.layers a2 !! k1 = Some total
    /\ Scribe.szFactor a2 = Ok a3
    /\ Scribe.size_factors a3 = Ok szfactors
    /\ Scribe.normalize_data new szfactors (1 / 10) = Ok n0
    /\ Scribe.normalize_data total szfactors (1 / 10) = Ok n1
    /\ a = Scribe.set_layer (Scribe.set_layer a3 k0 n0) k1 n1.

(** [res_dict] holds the inferred network results for [a]: under "RDI" the
    network that [causal_net_dynamics_coupling] left in [.uns['causal_net']]
    of the object it was run on; then, with [do_CLR], under "CLR" what [CLR]
    makes of that network; then, with a ChIP-seq reference, under "filtered"
    what [TF_link_gene_chip] keeps of the last of these networks. *)
Definition scribe_results (a : Scribe.AnnData layer dataframe network)
    (TF_list : series) (genes : option (list string)) (k0 k1 : string)
    (do_CLR : bool) (TF_link_ENCODE_ref : option string)
    (res_dict : list (string * Scribe.uns_value dataframe network)) : Prop :=
  exists TFs coupled rdi clr_items net chip_items,
    Scribe.TF_names a TF_list = Ok TFs
    /\ Scribe.causal_net_dynamics_coupling a
         (match genes with Some g => Scribe.intersection g TFs | None => TFs end)
         (match genes with
          | Some g => Scribe.intersection g (Scribe.other_names a TFs)
          | None => Scribe.other_names a TFs
          end) k1 k0 = Ok coupled
    /\ Scribe.uns coupled !! "causal_net" = Some rdi
    /\ (if do_CLR
        then exists clr, Scribe.CLR rdi = Ok clr /\ clr_items = [("CLR", clr)] /\ net = clr
        else clr_items = [] /\ net = rdi)
    /\ match TF_link_ENCODE_ref with
       | Some ref =>
           exists df df_id df_gene melted net_var net_var_id filtered,
             Scribe.read_csv ref = Ok df
             /\ Scribe.add_id_gene df = Ok df_id
             /\ Scribe.gene_columns (Scribe.var coupled) = Ok df_gene
             /\ Scribe.melt net = Ok melted
             /\ Scribe.merge melted df_gene = Ok net_var
             /\ Scribe.add_id_gene net_var = Ok net_var_id
             /\ Scribe.TF_link_gene_chip net_var_id df_id (Scribe.var coupled) (2 / 100)
                = Ok filtered
             /\ chip_items = [("filtered", Scribe.UFrame filtered)]
       | None => chip_items = []
       end
    /\ res_dict = ("RDI", rdi) :: clr_items ++ chip_items.

End ScribeVocabulary.

(** As [Scribe.adata_example], with networks that are numbers: the
    inference leaves network 7, and [CLR] turns network n into n + 1. *)
Definition adata_numbered : Scribe.AnnData unit unit nat :=
  {| Scribe.n_obs := 2; Scribe.n_vars := 3;
     Scribe.layers := <["new" := tt]> (<["total" := tt]> ∅);
     Scribe.uns := ∅; Scribe.obs := tt; Scribe.var := tt |}.

Definition externals_numbered : Scribe.Externals unit unit unit unit nat :=
  {| Scribe.read_csv := fun _ => Ok tt;
     Scribe.loc_column := fun _ _ => Ok tt;
     Scribe.expressed_in_more_than := fun _ _ => tt;
     Scribe.row_sum_greater := fun _ _ => tt;
     Scribe.layer_issparse := fun _ => false;
     Scribe.A1 := fun m => m;
     Scribe.mask_mul := fun _ _ => tt;
     Scribe.layer_sub := fun _ _ => tt;
     Scribe.intersection := fun g _ => g;
     Scribe.add_id_gene := fun d => Ok d;
     Scribe.gene_columns := fun d => Ok d;
     Scribe.melt := fun _ => Ok tt;
     Scribe.merge := fun _ _ => Ok tt;
     Scribe.select_vars := fun a _ =>
       Ok {| Scribe.n_obs := Scribe.n_obs a; Scribe.n_vars := 1;
             Scribe.layers := Scribe.layers a; Scribe.uns := Scribe.uns a;
             Scribe.obs := Scribe.obs a; Scribe.var := Scribe.var a |};
     Scribe.select_obs := fun a _ =>
       Ok {| Scribe.n_obs := 1; Scribe.n_vars := Scribe.n_vars a;
             Scribe.layers := Scribe.layers a; Scribe.uns := Scribe.uns a;
             Scribe.obs := Scribe.obs a; Scribe.var := Scribe.var a |};
     Scribe.size_factors := fun _ => Ok tt;
     Scribe.TF_names := fun _ _ => Ok ["g1"];
     Scribe.other_names := fun _ _ => ["g2"];
     Scribe.Scribe_installed := true;
     Scribe.causal_net_dynamics_coupling := fun a _ _ _ _ =>
       Ok (Scribe.set_uns a "causal_net" (Scribe.UNet 7));
     Scribe.CLR := fun v =>
       match v with
       | Scribe.UNet n => Ok (Scribe.UNet (S n))
       | _ => Raise TypeError
       end;
     Scribe.szFactor := fun a => Ok a;
     Scribe.normalize_data := fun x _ _ => Ok x;
     Scribe.TF_link_gene_chip := fun _ _ _ _ => Ok tt |}.

(** * Properties *)

(** ** Comparisons on reals and finite sums *)

Lemma Rltb_true x y : (x < y)%R -> Rltb x y = true.
Proof. intros H. unfold Rltb. destruct (Rlt_dec x y); [reflexivity | contradiction]. Qed.

Lemma Rltb_false x y : ~ (x < y)%R -> Rltb x y = false.
Proof. intros H. unfold Rltb. destruct (Rlt_dec x y); [contradiction | reflexivity]. Qed.

Lemma Reqb_true x y : x = y -> Reqb x y = true.
Proof. intros H. unfold Reqb. destruct (Req_dec_T x y); [reflexivity | contradiction]. Qed.

Lemma Reqb_false x y : x <> y -> Reqb x y = false.
Proof. intros H. unfold Reqb. destruct (Req_dec_T x y); [contradiction | reflexivity]. Qed.

(** Decide the real comparisons that occur in a goal. *)
Ltac Rdecide :=
  repeat match goal with
         | |- context [Rltb ?x ?y] =>
             first [ rewrite (Rltb_true x y) by lra
                   | rewrite (Rltb_false x y) by lra ]
         | |- context [Reqb ?x ?y] =>
             first [ rewrite (Reqb_true x y) by lra
                   | rewrite (Reqb_false x y) by lra ]
         end.

Lemma fold_left_Rplus_acc l (x : R) :
  fold_left Rplus l x = (x + fold_left Rplus l 0)%R.
Proof.
  revert x. induction l as [|y l IH]; intros x; simpl.
  - lra.
  - rewrite (IH (x + y)%R), (IH (0 + y)%R). lra.
Qed.

Lemma Rsum_cons x l : Rsum (x :: l) = (x + Rsum l)%R.
Proof. unfold Rsum. simpl. rewrite fold_left_Rplus_acc. lra. Qed.

Lemma Rsum_app l1 l2 : Rsum (l1 ++ l2) = (Rsum l1 + Rsum l2)%R.
Proof.
  induction l1 as [|x l1 IH]; simpl.
  - unfold Rsum at 2. simpl. lra.
  - rewrite !Rsum_cons, IH. lra.
Qed.

Lemma Rsum_nonneg l : Forall (fun x => 0 <= x)%R l -> (0 <= Rsum l)%R.
Proof.
  induction 1 as [|x l Hx _ IH].
  - unfold Rsum. simpl. lra.
  - rewrite Rsum_cons. lra.
Qed.

Lemma Rsum_zero_all l :
  Forall (fun x => 0 <= x)%R l -> Rsum l = 0%R -> Forall (fun x => x = 0%R) l.
Proof.
  induction 1 as [|x l Hx Hl IH]; intros Hs.
  - constructor.
  - rewrite Rsum_cons in Hs. pose proof (Rsum_nonneg l Hl).
    constructor; [lra | apply IH; lra].
Qed.

Lemma fold_left_fadd_Fin l x :
  fold_left fadd (map Fin l) (Fin x) = Fin (fold_left Rplus l x).
Proof.
  revert x. induction l as [|y l IH]; intros x; simpl; [reflexivity | apply IH].
Qed.

Lemma fsum_Fin l : fsum (map Fin l) = Fin (Rsum l).
Proof. apply fold_left_fadd_Fin. Qed.

Lemma Forall_finite_map l :
  Forall finite l -> exists xs, l = map Fin xs.
Proof.
  induction 1 as [|a l [x ->] _ [xs ->]].
  - exists []. reflexivity.
  - exists (x :: xs). reflexivity.
Qed.

Lemma fadd_zero_l a : fadd (Fin 0) a = a.
Proof. destruct a; simpl; try reflexivity. f_equal. lra. Qed.

(** ** Fallible folds *)

Lemma foldM_app {A B} (f : A -> B -> result A) l1 l2 a :
  foldM f (l1 ++ l2) a = let? a' := foldM f l1 a in foldM f l2 a'.
Proof.
  revert a. induction l1 as [|x l1 IH]; intros a; simpl; [reflexivity|].
  destruct (f a x); simpl; [apply IH | reflexivity].
Qed.

Lemma mapM_ok_length {A B} (f : A -> result B) l ys :
  mapM f l = Ok ys -> length ys = length l.
Proof.
  revert ys. induction l as [|x l IH]; intros ys; simpl.
  - intros [= <-]. reflexivity.
  - destruct (f x); simpl; [|discriminate].
    destruct (mapM f l); simpl; [|discriminate].
    intros [= <-]. simpl. f_equal. apply IH. reflexivity.
Qed.

Lemma mapM_all_ok {A B} (f : A -> result B) (g : A -> B) l :
  (forall x, In x l -> f x = Ok (g x)) -> mapM f l = Ok (map g l).
Proof.
  induction l as [|x l IH]; intros H; simpl; [reflexivity|].
  rewrite H by (left; reflexivity). simpl.
  rewrite IH by (intros y Hy; apply H; right; exact Hy). reflexivity.
Qed.

Lemma foldM_ext_in {A B} (f g : A -> B -> result A) (l : list B) :
  (forall a x, In x l -> f a x = g a x) ->
  forall a, foldM f l a = foldM g l a.
Proof.
  induction l as [|x l IH]; intros H a; simpl; [reflexivity|].
  rewrite (H a x) by (left; reflexivity).
  destruct (g a x) as [a'|]; simpl; [|reflexivity].
  apply IH. intros a0 y Hy. apply H. right. exact Hy.
Qed.

(** ** The center-level transition matrix *)

Lemma where_eq_cells Rm a :
  where_eq (map (fun i => argmax (data Rm i) (ncols Rm)) (seq 0 (nrows Rm))) a
  = cells_of Rm a.
Proof.
  unfold where_eq, cells_of, assigned_center.
  rewrite length_map, length_seq.
  apply List.filter_ext_in. intros i Hi. apply in_seq in Hi.
  rewrite (nth_indep _ 0 (argmax (data Rm 0) (ncols Rm))) by (rewrite length_map, length_seq; lia).
  rewrite (map_nth (fun i => argmax (data Rm i) (ncols Rm)) (seq 0 (nrows Rm)) 0 i).
  rewrite seq_nth by lia. reflexivity.
Qed.

Lemma cells_of_lt Rm a i : In i (cells_of Rm a) -> i < nrows Rm.
Proof.
  unfold cells_of. intros H. apply List.filter_In in H as [H _].
  apply in_seq in H. lia.
Qed.

Lemma block_q_in_range T Rm ia ib a b :
  (forall i, In i ia -> i < nrows T) ->
  (forall j, In j ib -> j < ncols T) ->
  block_q T Rm ia ib a b = Ok (block_sum T Rm ia ib a b).
Proof.
  intros Ha Hb. unfold block_q.
  destruct (negb (is_empty ia) && negb (is_empty ib)) eqn:E.
  - assert (forallb (fun i => i <? nrows T) ia = true) as ->.
    { apply forallb_forall. intros i Hi. apply Nat.ltb_lt. auto. }
    assert (forallb (fun j => j <? ncols T) ib = true) as ->.
    { apply forallb_forall. intros j Hj. apply Nat.ltb_lt. auto. }
    reflexivity.
  - f_equal. unfold block_sum.
    destruct ia as [|i ia]; [reflexivity|].
    destruct ib as [|j ib]; [|discriminate].
    replace (flat_map _ (i :: ia)) with (@nil float64); [reflexivity|].
    clear. generalize (i :: ia). intros l. induction l; simpl; auto.
Qed.

Section CenterLoops.
Variables (T Rm : ndarray) (clusters : nat -> list nat).
Hypothesis rows_ok : forall a i, In i (clusters a) -> i < nrows T.
Hypothesis cols_ok : forall a j, In j (clusters a) -> j < ncols T.

Let q (a b : nat) : float64 := block_sum T Rm (clusters a) (clusters b) a b.

Lemma inner_loop a bs transition totals :
  exists transition' totals',
    foldM (inner_body T Rm clusters a) bs (transition, totals)
    = Ok (transition', totals')
    /\ (forall i j, transition' i j =
          if (i =? a) && bool_decide (j ∈ bs) && negb (j =? a)
          then q a j else transition i j)
    /\ (forall i, totals' i =
          if i =? a
          then fold_left fadd
                 (map (q a) (List.filter (fun b => negb (b =? a)) bs)) (totals a)
          else totals i).
Proof.
  revert transition totals.
  induction bs as [|b bs IH]; intros transition totals.
  - exists transition, totals. split; [reflexivity|]. split.
    + intros i j. rewrite bool_decide_eq_false_2 by apply not_elem_of_nil.
      rewrite andb_false_r. reflexivity.
    + intros i. simpl. destruct (i =? a) eqn:E; [|reflexivity].
      apply Nat.eqb_eq in E. subst. reflexivity.
  - cbn [foldM]. unfold inner_body at 1.
    destruct (a =? b) eqn:Eab.
    + apply Nat.eqb_eq in Eab. subst b. cbn [rbind].
      destruct (IH transition totals) as (tr' & tot' & Hf & Htr & Htot).
      exists tr', tot'. split; [exact Hf|]. split.
      * intros i j. rewrite Htr.
        destruct (i =? a) eqn:Ei; [|reflexivity].
        destruct (j =? a) eqn:Ej; [rewrite !andb_false_r; reflexivity|].
        apply Nat.eqb_neq in Ej.
        rewrite (bool_decide_ext (j ∈ a :: bs) (j ∈ bs)); [reflexivity|].
        rewrite elem_of_cons. tauto.
      * intros i. rewrite Htot. cbn [List.filter].
        rewrite Nat.eqb_refl. reflexivity.
    + rewrite block_q_in_range by eauto. cbn [rbind]. fold (q a b).
      destruct (IH (upd2 transition a b (q a b))
                   (upd1 totals a (fadd (totals a) (q a b))))
        as (tr' & tot' & Hf & Htr & Htot).
      exists tr', tot'. split; [exact Hf|]. split.
      * intros i j. rewrite Htr. unfold upd2.
        destruct (i =? a) eqn:Ei; [|reflexivity].
        destruct (j =? a) eqn:Ej; [rewrite !andb_false_r|].
        { apply Nat.eqb_eq in Ej. subst j. cbn [andb].
          rewrite (proj2 (Nat.eqb_neq a b)); [reflexivity|].
          apply Nat.eqb_neq. exact Eab. }
        rewrite !andb_true_r. cbn [andb].
        destruct (j =? b) eqn:Ejb.
        { apply Nat.eqb_eq in Ejb. subst j.
          rewrite (bool_decide_eq_true_2 (b ∈ b :: bs)) by apply list_elem_of_here.
          destruct (bool_decide (b ∈ bs)); reflexivity. }
        apply Nat.eqb_neq in Ejb.
        rewrite (bool_decide_ext (j ∈ b :: bs) (j ∈ bs)); [reflexivity|].
        rewrite elem_of_cons. tauto.
      * intros i. rewrite Htot. unfold upd1. cbn [List.filter].
        rewrite (Nat.eqb_sym b a), Eab. cbn [negb map fold_left].
        rewrite Nat.eqb_refl.
        destruct (i =? a); reflexivity.
Qed.

Lemma outer_loop k as_ transition totals :
  NoDup as_ ->
  exists transition' totals',
    foldM (fun st a => foldM (inner_body T Rm clusters a) (seq 0 k) st)
          as_ (transition, totals)
    = Ok (transition', totals')
    /\ (forall i j, transition' i j =
          if bool_decide (i ∈ as_) && bool_decide (j ∈ seq 0 k) && negb (j =? i)
          then q i j else transition i j)
    /\ (forall i, totals' i =
          if bool_decide (i ∈ as_)
          then fold_left fadd (map (q i) (off_diagonal k i)) (totals i)
          else totals i).
Proof.
  intros Hnd. revert transition totals.
  induction Hnd as [|a as_ Hnotin Hnd IH]; intros transition totals.
  - exists transition, totals. split; [reflexivity|]. split; intros i.
    + intros j. rewrite bool_decide_eq_false_2 by apply not_elem_of_nil.
      reflexivity.
    + rewrite bool_decide_eq_false_2 by apply not_elem_of_nil. reflexivity.
  - cbn [foldM].
    destruct (inner_loop a (seq 0 k) transition totals)
      as (tr1 & tot1 & Hf1 & Htr1 & Htot1).
    rewrite Hf1. cbn [rbind].
    destruct (IH tr1 tot1) as (tr' & tot' & Hf & Htr & Htot).
    exists tr', tot'. split; [exact Hf|]. split.
    + intros i j. rewrite Htr, Htr1.
      destruct (decide (i = a)) as [->|Hne].
      * rewrite (bool_decide_eq_false_2 (a ∈ as_)) by exact Hnotin.
        rewrite (bool_decide_eq_true_2 (a ∈ a :: as_)) by apply list_elem_of_here.
        rewrite Nat.eqb_refl. reflexivity.
      * rewrite (proj2 (Nat.eqb_neq i a)) by exact Hne. cbn [andb].
        rewrite (bool_decide_ext (i ∈ a :: as_) (i ∈ as_)); [reflexivity|].
        rewrite elem_of_cons. tauto.
    + intros i. rewrite Htot, Htot1.
      destruct (decide (i = a)) as [->|Hne].
      * rewrite (bool_decide_eq_false_2 (a ∈ as_)) by exact Hnotin.
        rewrite (bool_decide_eq_true_2 (a ∈ a :: as_)) by apply list_elem_of_here.
        rewrite Nat.eqb_refl. reflexivity.
      * rewrite (proj2 (Nat.eqb_neq i a)) by exact Hne.
        rewrite (bool_decide_ext (i ∈ a :: as_) (i ∈ as_)); [reflexivity|].
        rewrite elem_of_cons. tauto.
Qed.
End CenterLoops.

Lemma clean_finite a : exists x, clean a = Fin x.
Proof. destruct a; unfold clean; simpl; eauto. Qed.

Lemma clean_div_zero t : clean (fdiv (Fin 0) t) = Fin 0.
Proof.
  destruct t as [y| | |]; unfold clean; simpl; try reflexivity.
  unfold Reqb. destruct (Req_dec_T y 0) as [->|Hy].
  - unfold inf_times. rewrite !Rltb_false by lra. reflexivity.
  - simpl. f_equal. unfold Rdiv. apply Rmult_0_l.
Qed.

(** The loops of [_compute_center_transition_matrix] compute the closed
    form: off the diagonal the cleaned quotient of the unnormalised entry by
    the row total, on the diagonal 0. *)
Lemma center_matrix_closed_form t Rm :
  0 < ncols Rm ->
  nrows Rm <= nrows (dense_of t) ->
  nrows Rm <= ncols (dense_of t) ->
  exists C,
    _compute_center_transition_matrix t Rm = Ok C
    /\ nrows C = ncols Rm /\ ncols C = ncols Rm
    /\ forall a b, a < ncols Rm -> b < ncols Rm ->
         data C a b =
           if a =? b then Fin 0
           else clean (fdiv (unnormalized (dense_of t) Rm a b)
                            (row_total (dense_of t) Rm a)).
Proof.
  intros Hk Hr Hc. unfold _compute_center_transition_matrix.
  fold (dense_of t). set (T := dense_of t) in *.
  unfold argmax_axis1. rewrite (proj2 (Nat.eqb_neq _ 0)) by lia.
  cbn [rbind].
  set (cl := fun i => where_eq _ i).
  assert (Hcl : forall a, cl a = cells_of Rm a).
  { intros a. apply where_eq_cells. }
  destruct (outer_loop T Rm cl) with
    (k := ncols Rm) (as_ := seq 0 (ncols Rm))
    (transition := fun _ _ : nat => Fin 0) (totals := fun _ : nat => Fin 0)
    as (tr & tot & Hf & Htr & Htot).
  - intros a i Hi. rewrite Hcl in Hi. apply cells_of_lt in Hi. lia.
  - intros a i Hi. rewrite Hcl in Hi. apply cells_of_lt in Hi. lia.
  - apply NoDup_ListNoDup, seq_NoDup.
  - rewrite Hf. cbn [rbind].
    eexists. split; [reflexivity|]. cbn [nrows ncols data].
    split; [reflexivity|]. split; [reflexivity|].
    intros a b Ha Hb. rewrite Htr, Htot.
    assert (Hin : forall i, i < ncols Rm -> bool_decide (i ∈ seq 0 (ncols Rm)) = true).
    { intros i Hi. apply bool_decide_eq_true_2, list_elem_of_In, in_seq. lia. }
    rewrite !Hin by assumption. cbn [andb].
    rewrite (Nat.eqb_sym b a).
    destruct (a =? b) eqn:E; cbn [negb].
    + apply clean_div_zero.
    + unfold clean, row_total, unnormalized, fsum, block_sum.
      do 2 f_equal. f_equal.
      * rewrite !Hcl. reflexivity.
      * f_equal. apply map_ext. intros c. rewrite !Hcl. reflexivity.
Qed.

Lemma nonneg_to_R a : nonneg a -> a = Fin (to_R a) /\ (0 <= to_R a)%R.
Proof. intros (x & -> & Hx). simpl. auto. Qed.

Lemma Forall_nonneg_map l :
  Forall nonneg l -> l = map Fin (map to_R l) /\ Forall (fun x => 0 <= x)%R (map to_R l).
Proof.
  induction 1 as [|a l Ha _ [IH1 IH2]]; simpl.
  - split; [reflexivity | constructor].
  - destruct (nonneg_to_R a Ha) as [E Hx]. split.
    + rewrite <- IH1, <- E. reflexivity.
    + constructor; assumption.
Qed.

Lemma fsum_nonneg l :
  Forall nonneg l -> fsum l = Fin (Rsum (map to_R l)) /\ (0 <= Rsum (map to_R l))%R.
Proof.
  intros H. destruct (Forall_nonneg_map l H) as [E Hx]. split.
  - rewrite E at 1. apply fsum_Fin.
  - apply Rsum_nonneg, Hx.
Qed.

Lemma fmul_nonneg a b : nonneg a -> nonneg b -> nonneg (fmul a b).
Proof.
  intros (x & -> & Hx) (y & -> & Hy). exists (x * y)%R. split; [reflexivity|].
  apply Rmult_le_pos; assumption.
Qed.

Section CenterInvariant.
Variables (T Rm : ndarray).
Hypothesis R_unit : forall i a, i < nrows Rm -> a < ncols Rm ->
  exists x, data Rm i a = Fin x /\ (0 <= x <= 1)%R.
Hypothesis T_nonneg : forall i j, i < nrows Rm -> j < nrows Rm ->
  nonneg (data T i j).

Lemma unnormalized_nonneg a b :
  a < ncols Rm -> b < ncols Rm -> nonneg (unnormalized T Rm a b).
Proof.
  intros Ha Hb. unfold unnormalized.
  match goal with |- nonneg (fsum ?l) => assert (HF : Forall nonneg l) end.
  { apply List.Forall_forall. intros v Hv.
    apply in_flat_map in Hv as (i & Hi & Hv).
    apply in_map_iff in Hv as (j & <- & Hj).
    apply cells_of_lt in Hi. apply cells_of_lt in Hj.
    apply fmul_nonneg; [apply fmul_nonneg|].
    - destruct (R_unit i a Hi Ha) as (x & -> & Hx). exists x. split; [reflexivity | lra].
    - destruct (R_unit j b Hj Hb) as (x & -> & Hx). exists x. split; [reflexivity | lra].
    - apply T_nonneg; assumption. }
  destruct (fsum_nonneg _ HF) as [E Hs]. eexists. split; [exact E | exact Hs].
Qed.

Lemma off_diagonal_lt k a b : In b (off_diagonal k a) -> b < k /\ b <> a.
Proof.
  unfold off_diagonal. intros H. apply List.filter_In in H as [H1 H2].
  apply in_seq in H1. apply negb_true_iff, Nat.eqb_neq in H2. lia.
Qed.

Lemma row_total_nonneg a :
  a < ncols Rm ->
  row_total T Rm a
  = Fin (Rsum (map (fun b => to_R (unnormalized T Rm a b)) (off_diagonal (ncols Rm) a)))
  /\ (0 <= Rsum (map (fun b => to_R (unnormalized T Rm a b))
                     (off_diagonal (ncols Rm) a)))%R.
Proof.
  intros Ha. unfold row_total.
  match goal with |- fsum ?l = _ /\ _ => assert (HF : Forall nonneg l) end.
  { apply List.Forall_forall. intros v Hv.
    apply in_map_iff in Hv as (b & <- & Hb). apply off_diagonal_lt in Hb as [Hb _].
    apply unnormalized_nonneg; assumption. }
  destruct (fsum_nonneg _ HF) as [E Hs]. rewrite List.map_map in E, Hs.
  split; assumption.
Qed.

Lemma row_total_zero_entries a b :
  a < ncols Rm -> b < ncols Rm -> b <> a ->
  row_total T Rm a = Fin 0 -> unnormalized T Rm a b = Fin 0.
Proof.
  intros Ha Hb Hne Hz.
  destruct (row_total_nonneg a Ha) as [E _]. rewrite E in Hz.
  injection Hz as Hz.
  assert (HF : Forall (fun x => 0 <= x)%R
                 (map (fun b => to_R (unnormalized T Rm a b))
                      (off_diagonal (ncols Rm) a))).
  { apply List.Forall_forall. intros v Hv.
    apply in_map_iff in Hv as (c & <- & Hc'). apply off_diagonal_lt in Hc' as [Hc' _].
    destruct (nonneg_to_R _ (unnormalized_nonneg a c Ha Hc')) as [_ H]. exact H. }
  pose proof (Rsum_zero_all _ HF Hz) as Hall.
  rewrite List.Forall_forall in Hall.
  destruct (nonneg_to_R _ (unnormalized_nonneg a b Ha Hb)) as [E' _].
  rewrite E'. f_equal. apply Hall.
  apply in_map_iff. exists b. split; [reflexivity|].
  unfold off_diagonal. apply List.filter_In. split.
  - apply in_seq. lia.
  - apply negb_true_iff, Nat.eqb_neq. exact Hne.
Qed.

Lemma Rsum_scaled_off_diagonal (f : nat -> R) (t : R) a l :
  Rsum (map (fun b => if a =? b then 0 else f b / t)%R l)
  = (Rsum (map f (List.filter (fun b => negb (b =? a)) l)) / t)%R.
Proof.
  induction l as [|b l IH]; simpl.
  - unfold Rsum. simpl. unfold Rdiv. rewrite Rmult_0_l. reflexivity.
  - rewrite Rsum_cons, IH. rewrite (Nat.eqb_sym b a).
    destruct (a =? b); simpl.
    + lra.
    + rewrite Rsum_cons. unfold Rdiv. lra.
Qed.
End CenterInvariant.

Lemma fsum_zeros {A} (l : list A) : fsum (map (fun _ => Fin 0) l) = Fin 0.
Proof.
  unfold fsum. induction l as [|x l IH]; simpl; [reflexivity|].
  replace (0 + 0)%R with 0%R by lra. exact IH.
Qed.

Lemma assigned_one_cell : assigned_center R_one_cell 0 = 0.
Proof. unfold assigned_center, argmax. cbn. Rdecide. reflexivity. Qed.




(** ** The order of floats and [np.argmax] *)









Lemma assigned_three i :
  i < 4 -> assigned_center R_three i = match i with 0 | 1 => 0 | 2 => 1 | _ => 2 end.
Proof.
  intros Hi. unfold assigned_center, argmax.
  destruct i as [|[|[|[|i]]]]; [| | | |lia]; repeat (cbn; Rdecide); reflexivity.
Qed.

Lemma cells_three a :
  cells_of R_three a = match a with 0 => [0; 1] | 1 => [2] | 2 => [3] | _ => [] end.
Proof.
  unfold cells_of. cbn [R_three of_rows nrows length seq List.filter].
  rewrite !assigned_three by lia.
  destruct a as [|[|[|a]]]; reflexivity.
Qed.




Lemma unnormalized_three_1 b : unnormalized T_four R_three 1 b = Fin 0.
Proof.
  unfold unnormalized. rewrite !cells_three.
  destruct b as [|[|[|b]]]; cbn; f_equal; lra.
Qed.

Lemma row_total_three_1 : row_total T_four R_three 1 = Fin 0.
Proof.
  unfold row_total.
  cbn [R_three of_rows ncols length off_diagonal seq List.filter Nat.eqb negb map].
  rewrite !unnormalized_three_1. cbn. f_equal. lra.
Qed.




(** Over the real numbers, where no operation rounds: for an assignment
    matrix with entries in [0, 1] and a cell-level matrix with non-negative
    entries, every entry of the center-level matrix is finite and
    non-negative, the diagonal is 0, and every row sums to 1 or is entirely
    0; it is entirely 0 exactly when its unnormalised total is 0. *)
Lemma center_rows_over_the_reals (t : matrix_input) (Rm : ndarray) :
  0 < ncols Rm ->
  nrows Rm <= nrows (dense_of t) ->
  nrows Rm <= ncols (dense_of t) ->
  (forall i a, i < nrows Rm -> a < ncols Rm ->
     exists x, data Rm i a = Fin x /\ (0 <= x <= 1)%R) ->
  (forall i j, i < nrows Rm -> j < nrows Rm ->
     exists x, data (dense_of t) i j = Fin x /\ (0 <= x)%R) ->
  exists C,
    _compute_center_transition_matrix t Rm = Ok C
    /\ forall a, a < ncols Rm ->
         (forall b, b < ncols Rm -> exists x, data C a b = Fin x /\ (0 <= x)%R)
         /\ data C a a = Fin 0
         /\ (fsum (map (data C a) (seq 0 (ncols Rm))) = Fin 1
             \/ forall b, b < ncols Rm -> data C a b = Fin 0)
         /\ ((forall b, b < ncols Rm -> data C a b = Fin 0)
             <-> row_total (dense_of t) Rm a = Fin 0).
Proof.
  intros Hk Hr Hc HR HT.
  destruct (center_matrix_closed_form t Rm Hk Hr Hc) as (C & HC & _ & _ & Hd).
  exists C. split; [exact HC|]. set (T := dense_of t) in *.
  intros a Ha.
  destruct (row_total_nonneg T Rm HR HT a Ha) as [Etot Htot].
  set (qf := fun b => to_R (unnormalized T Rm a b)) in *.
  set (tot := Rsum (map qf (off_diagonal (ncols Rm) a))) in *.
  assert (Hq : forall b, b < ncols Rm ->
                 unnormalized T Rm a b = Fin (qf b) /\ (0 <= qf b)%R).
  { intros b Hb. apply nonneg_to_R, (unnormalized_nonneg T Rm HR HT a b Ha Hb). }
  assert (Hdiag : data C a a = Fin 0).
  { rewrite Hd by assumption. rewrite Nat.eqb_refl. reflexivity. }
  destruct (Req_dec_T tot 0) as [Hz|Hnz].
  - (* the row total is 0 *)
    rewrite Hz in Etot.
    assert (Hall : forall b, b < ncols Rm -> data C a b = Fin 0).
    { intros b Hb. rewrite Hd by assumption.
      destruct (a =? b) eqn:E; [reflexivity|]. apply Nat.eqb_neq in E.
      rewrite (row_total_zero_entries T Rm HR HT a b Ha Hb) by auto.
      apply clean_div_zero. }
    split; [|split; [exact Hdiag|split; [right; exact Hall|]]].
    + intros b Hb. exists 0%R. split; [apply Hall; exact Hb | lra].
    + split; intros _; assumption.
  - (* the row total is positive *)
    assert (Hent : forall b, b < ncols Rm ->
                     data C a b = Fin (if a =? b then 0 else qf b / tot)%R).
    { intros b Hb. rewrite Hd by assumption.
      destruct (a =? b); [reflexivity|].
      rewrite (proj1 (Hq b Hb)), Etot. unfold clean. simpl.
      rewrite Reqb_false by exact Hnz. reflexivity. }
    assert (Hsum : fsum (map (data C a) (seq 0 (ncols Rm))) = Fin 1).
    { rewrite (map_ext_in _ (fun b => Fin (if a =? b then 0 else qf b / tot)%R)).
      2:{ intros b Hb. apply in_seq in Hb. apply Hent. lia. }
      rewrite <- (List.map_map (fun b => (if a =? b then 0 else qf b / tot)%R) Fin).
      rewrite fsum_Fin, Rsum_scaled_off_diagonal. fold (off_diagonal (ncols Rm) a).
      fold tot. f_equal. field. exact Hnz. }
    split; [|split; [exact Hdiag|split; [left; exact Hsum|]]].
    + intros b Hb. rewrite Hent by exact Hb. eexists. split; [reflexivity|].
      destruct (a =? b); [lra|].
      apply Rmult_le_pos; [apply (Hq b Hb)|].
      apply Rlt_le, Rinv_0_lt_compat. lra.
    + split.
      * intros Hall. exfalso.
        rewrite (map_ext_in _ (fun _ => Fin 0)) in Hsum.
        2:{ intros b Hb. apply in_seq in Hb. apply Hall. lia. }
        rewrite fsum_zeros in Hsum. injection Hsum as Hsum. lra.
      * intros E. rewrite Etot in E. injection E as E. contradiction.
Qed.

Lemma Rsum_ge_elem l x :
  Forall (fun y => 0 <= y)%R l -> In x l -> (x <= Rsum l)%R.
Proof.
  induction 1 as [|y l Hy Hl IH]; intros Hin; [destruct Hin|].
  rewrite Rsum_cons. pose proof (Rsum_nonneg l Hl).
  destruct Hin as [->|Hin]; [lra|]. specialize (IH Hin). lra.
Qed.

Lemma nonneg_entries_as_reals (f : nat -> float64) (l : list nat) :
  (forall c, In c l -> exists y, f c = Fin y /\ (0 <= y)%R) ->
  exists xs, map f l = map Fin xs /\ Forall (fun y => 0 <= y)%R xs.
Proof.
  induction l as [|c l IH]; intros H.
  - exists []. split; [reflexivity|constructor].
  - destruct IH as (xs & E & HF); [intros c0 Hc0; apply H; right; exact Hc0|].
    destruct (H c) as (y & Hy & Hy0); [left; reflexivity|].
    exists (y :: xs). split; [simpl; rewrite Hy, E; reflexivity|].
    constructor; assumption.
Qed.

(** C6, as amended.  For an assignment matrix with entries in [0, 1] and a
    cell-level matrix with non-negative entries, every entry of the
    center-level matrix is finite, non-negative and at most 1, the diagonal
    is 0, and a row whose unnormalised total is 0 is entirely 0. *)
Theorem center_matrix_entries_bounded (t : matrix_input) (Rm : ndarray) :
  0 < ncols Rm ->
  nrows Rm <= nrows (dense_of t) ->
  nrows Rm <= ncols (dense_of t) ->
  (forall i a, i < nrows Rm -> a < ncols Rm ->
     exists x, data Rm i a = Fin x /\ (0 <= x <= 1)%R) ->
  (forall i j, i < nrows Rm -> j < nrows Rm ->
     exists x, data (dense_of t) i j = Fin x /\ (0 <= x)%R) ->
  exists C,
    _compute_center_transition_matrix t Rm = Ok C
    /\ forall a, a < ncols Rm ->
         (forall b, b < ncols Rm -> exists x, data C a b = Fin x /\ (0 <= x <= 1)%R)
         /\ data C a a = Fin 0
         /\ (row_total (dense_of t) Rm a = Fin 0 ->
             forall b, b < ncols Rm -> data C a b = Fin 0).
Proof.
  intros Hk Hr Hc HR HT.
  destruct (center_rows_over_the_reals t Rm Hk Hr Hc HR HT) as (C & HC & Hrows).
  exists C. split; [exact HC|]. intros a Ha.
  destruct (Hrows a Ha) as (Hpos & Hdiag & Hsum & Hzero).
  split; [|split; [exact Hdiag | apply Hzero]].
  intros b Hb. destruct (Hpos b Hb) as (x & Hx & Hx0).
  exists x. split; [exact Hx|]. split; [exact Hx0|].
  destruct Hsum as [Hsum|Hall].
  - assert (Hxs : exists xs, map (data C a) (seq 0 (ncols Rm)) = map Fin xs
                             /\ Forall (fun y => 0 <= y)%R xs).
    { apply nonneg_entries_as_reals. intros c Hc0. apply in_seq in Hc0.
      apply Hpos. lia. }
    destruct Hxs as (xs & E & HF).
    rewrite E, fsum_Fin in Hsum. injection Hsum as Hsum. rewrite <- Hsum.
    apply Rsum_ge_elem; [exact HF|].
    assert (Hin : In (Fin x) (map Fin xs)).
    { rewrite <- E, <- Hx. apply in_map, in_seq. lia. }
    apply in_map_iff in Hin as (y & [= ->] & Hy). exact Hy.
  - rewrite (Hall b Hb) in Hx. injection Hx as <-. lra.
Qed.

Lemma R_three_in_unit_interval i a :
  i < 4 -> a < 3 -> exists x, data R_three i a = Fin x /\ (0 <= x <= 1)%R.
Proof.
  intros Hi Ha.
  destruct i as [|[|[|[|i]]]]; [| | | |lia];
    (destruct a as [|[|[|a]]]; [| | |lia]);
    eexists; (split; [reflexivity|lra]).
Qed.

Lemma T_four_nonnegative i j :
  i < 4 -> j < 4 -> exists x, data T_four i j = Fin x /\ (0 <= x)%R.
Proof.
  intros Hi Hj.
  destruct i as [|[|[|[|i]]]]; [| | | |lia];
    (destruct j as [|[|[|[|j]]]]; [| | | |lia]);
    eexists; (split; [reflexivity|lra]).
Qed.

Lemma center_matrix_entries_bounded_witness :
  exists C,
    _compute_center_transition_matrix (Dense T_four) R_three = Ok C
    /\ (exists x, data C 0 1 = Fin x /\ (0 <= x <= 1)%R)
    /\ data C 0 0 = Fin 0
    /\ data C 1 0 = Fin 0 /\ data C 1 2 = Fin 0.
Proof.
  destruct (center_matrix_entries_bounded (Dense T_four) R_three)
    as (C & HC & Hrows); [simpl; lia ..| | |].
  - exact R_three_in_unit_interval.
  - exact T_four_nonnegative.
  - exists C. split; [exact HC|].
    cbn [R_three of_rows ncols length dense_of] in Hrows.
    destruct (Hrows 0) as (Hpos & Hdiag & _); [lia|].
    destruct (Hrows 1) as (_ & _ & Hzero); [lia|].
    split; [apply Hpos; lia|]. split; [exact Hdiag|].
    split; apply Hzero; try exact row_total_three_1; lia.
Defined.

Section FloatRows.
Import PrimFloat.

(** C6 as stated fails on floats.  With seven cells that are their own
    centers and equal velocity from cell 0 to the six others, the entries of
    row 0 are six times the float nearest to 1/6, and their sum is the
    largest float below 1: the row is not zero and does not sum to 1.  With
    two transitions of 2^1023 out of cell 0 the row total overflows to
    +inf, and row 0 is entirely zero although its total is not 0. *)
Lemma float_rows_break_the_invariant :
  F64.in_unit_interval (F64.identity 7) = true
  /\ F64.finite_nonnegative F64.T_seven = true
  /\ F64.center_rows F64.T_seven (F64.identity 7)
     = Ok ([0; 0x1.5555555555555p-3; 0x1.5555555555555p-3; 0x1.5555555555555p-3;
            0x1.5555555555555p-3; 0x1.5555555555555p-3; 0x1.5555555555555p-3]%float
           :: repeat (repeat 0%float 7) 6)
  /\ F64.center_row_sums F64.T_seven (F64.identity 7)
     = Ok (0x1.fffffffffffffp-1%float :: repeat 0%float 6)
  /\ ltb 0x1.fffffffffffffp-1 1 = true
  /\ F64.in_unit_interval (F64.identity 3) = true
  /\ F64.finite_nonnegative F64.T_huge = true
  /\ F64.center_rows F64.T_huge (F64.identity 3) = Ok (repeat (repeat 0%float 3) 3)
  /\ F64.center_totals F64.T_huge (F64.identity 3)
     = Ok [infinity; 0; 0]%float.
Proof.
  repeat split; vm_compute; reflexivity.
Qed.

End FloatRows.

(** ** The orientation loop as a function on arrays *)

Lemma bind_lift {A B} (r : result A) (k : A -> M B) w :
  bind (lift r) k w
  = match r with
    | Ok a => k a w
    | Raise e => (Raise e, w)
    end.
Proof. unfold bind, lift. destruct r; reflexivity. Qed.

Section LoopOnStore.
Variables (w0 : world) (vt d : loc) (V : ndarray).
Hypothesis vt_array : store w0 !! vt = Some (OArray2 V).
Hypothesis vt_d : vt <> d.

Lemma getitem_vt D w r c :
  at_array w0 d D w -> array_getitem vt r c w = (getitem V r c, w).
Proof.
  intros ->. unfold array_getitem, read_array2, deref, bind, lift, ret. simpl.
  rewrite lookup_insert_ne by auto. rewrite vt_array. reflexivity.
Qed.

Lemma setitem_d D w r c v :
  at_array w0 d D w ->
  match setitem D r c v with
  | Ok D' => exists w', array_setitem d r c v w = (Ok tt, w') /\ at_array w0 d D' w'
  | Raise e => array_setitem d r c v w = (Raise e, w)
  end.
Proof.
  intros ->. unfold array_setitem, read_array2, deref, bind, lift, ret. simpl.
  rewrite lookup_insert_eq.
  destruct (setitem D r c v) as [D'|e]; [|reflexivity].
  eexists. split; [reflexivity|]. unfold at_array, set_store. simpl.
  rewrite insert_insert_eq. reflexivity.
Qed.

Lemma runs_as_for_each {A} (body : A -> M unit) (f : ndarray -> A -> result ndarray) l :
  (forall x, runs_as w0 d (body x) (fun D => f D x)) ->
  runs_as w0 d (for_each l body) (fun D => foldM f l D).
Proof.
  intros Hb. induction l as [|x l IH]; intros D w Hw; simpl.
  - exists w. split; [reflexivity | exact Hw].
  - pose proof (Hb x D w Hw) as H1. unfold bind.
    destruct (f D x) as [D1|e]; simpl.
    + destruct H1 as (w1 & E1 & Hw1). rewrite E1. apply IH. exact Hw1.
    + destruct (body x w) as [[?|?] ?]; simpl in *; congruence.
Qed.

Lemma bind_getitem_vt {B} D w r c (k : float64 -> M B) :
  at_array w0 d D w ->
  bind (array_getitem vt r c) k w
  = match getitem V r c with
    | Ok x => k x w
    | Raise e => (Raise e, w)
    end.
Proof.
  intros Hw. unfold bind at 1. rewrite (getitem_vt _ _ _ _ Hw).
  destruct (getitem V r c); reflexivity.
Qed.

Lemma bind_setitem_d {B} D w r c v (k : unit -> M B) :
  at_array w0 d D w ->
  bind (array_setitem d r c v) k w
  = match setitem D r c v with
    | Ok D' => k tt (set_store w0 (<[d := OArray2 D']> (store w0)))
    | Raise e => (Raise e, w)
    end.
Proof.
  intros Hw. unfold bind at 1.
  pose proof (setitem_d D w r c v Hw) as H.
  destruct (setitem D r c v) as [D'|e].
  - destruct H as (w' & -> & ->). reflexivity.
  - rewrite H. reflexivity.
Qed.

Lemma runs_as_forward rc :
  runs_as w0 d (let '(r, c) := rc in
           let* x := array_getitem vt r c in
           let* y := array_getitem vt c r in
           array_setitem d r c (py_max x y) ;;
           array_setitem d c r (Fin 0))
          (fun D => write_forward V D rc).
Proof.
  destruct rc as [r c]. intros D w Hw. unfold write_forward.
  rewrite (bind_getitem_vt D w _ _ _ Hw).
  destruct (getitem V r c) as [x|e]; simpl; [|reflexivity].
  rewrite (bind_getitem_vt D w _ _ _ Hw).
  destruct (getitem V c r) as [y|e]; simpl; [|reflexivity].
  rewrite (bind_setitem_d D w _ _ _ _ Hw).
  destruct (setitem D r c (py_max x y)) as [D1|e]; simpl; [|reflexivity].
  pose proof (setitem_d D1 _ c r (Fin 0) eq_refl) as H2.
  destruct (setitem D1 c r (Fin 0)) as [D2|e]; simpl.
  - exact H2.
  - rewrite H2. reflexivity.
Qed.

Lemma runs_as_backward rc :
  runs_as w0 d (let '(r, c) := rc in
           let* x := array_getitem vt r c in
           let* y := array_getitem vt c r in
           array_setitem d c r (py_max x y) ;;
           array_setitem d r c (Fin 0))
          (fun D => write_backward V D rc).
Proof.
  destruct rc as [r c]. intros D w Hw. unfold write_backward.
  rewrite (bind_getitem_vt D w _ _ _ Hw).
  destruct (getitem V r c) as [x|e]; simpl; [|reflexivity].
  rewrite (bind_getitem_vt D w _ _ _ Hw).
  destruct (getitem V c r) as [y|e]; simpl; [|reflexivity].
  rewrite (bind_setitem_d D w _ _ _ _ Hw).
  destruct (setitem D c r (py_max x y)) as [D1|e]; simpl; [|reflexivity].
  pose proof (setitem_d D1 _ r c (Fin 0) eq_refl) as H2.
  destruct (setitem D1 r c (Fin 0)) as [D2|e]; simpl.
  - exact H2.
  - rewrite H2. reflexivity.
Qed.

Lemma runs_as_keep rc :
  runs_as w0 d (let '(r, c) := rc in
           let* y := array_getitem vt c r in
           array_setitem d c r y ;;
           let* x := array_getitem vt r c in
           array_setitem d r c x)
          (fun D => write_keep V D rc).
Proof.
  destruct rc as [r c]. intros D w Hw. unfold write_keep.
  rewrite (bind_getitem_vt D w _ _ _ Hw).
  destruct (getitem V c r) as [y|e]; simpl; [|reflexivity].
  rewrite (bind_setitem_d D w _ _ _ _ Hw).
  destruct (setitem D c r y) as [D1|e]; simpl; [|reflexivity].
  rewrite (bind_getitem_vt D1 _ _ _ _ eq_refl).
  destruct (getitem V r c) as [x|e]; simpl; [|reflexivity].
  pose proof (setitem_d D1 _ r c x eq_refl) as H2.
  destruct (setitem D1 r c x) as [D2|e]; simpl.
  - exact H2.
  - rewrite H2. reflexivity.
Qed.

Lemma runs_as_orient_segment C segment :
  runs_as w0 d (orient_segment C vt d segment)
          (fun D => orient_segment_array C V D segment).
Proof.
  intros D w Hw. unfold orient_segment, orient_segment_array, segment_scores.
  rewrite bind_lift.
  destruct (_calculate_segment_probability C (_get_edges segment None))
    as [sp|e]; simpl; [|reflexivity].
  rewrite bind_lift.
  destruct (_calculate_segment_probability C (_get_edges (rev segment) None))
    as [spr|e]; simpl; [|reflexivity].
  rewrite bind_lift.
  destruct (last_item sp) as [p|e]; simpl; [|reflexivity].
  rewrite bind_lift.
  destruct (last_item spr) as [p'|e]; simpl; [|reflexivity].
  destruct (fgtb p p'); [|destruct (fltb p p')].
  - apply (runs_as_for_each _ (write_forward V)); [apply runs_as_forward | exact Hw].
  - apply (runs_as_for_each _ (write_backward V)); [apply runs_as_backward | exact Hw].
  - apply (runs_as_for_each _ (write_keep V)); [apply runs_as_keep | exact Hw].
Qed.

Lemma runs_as_loop C segments :
  runs_as w0 d (for_each segments (orient_segment C vt d))
          (fun D => foldM (orient_segment_array C V) segments D).
Proof. apply runs_as_for_each. intros seg. apply runs_as_orient_segment. Qed.
End LoopOnStore.

(** ** What a run leaves untouched *)

Lemma ext_refl w : ext w w.
Proof. unfold ext. auto. Qed.

Lemma ext_dom w0 w l : ext w0 w -> l ∈ dom (store w0) -> l ∈ dom (store w).
Proof.
  intros (_ & _ & H) Hl. apply elem_of_dom. rewrite (H l Hl).
  apply elem_of_dom. exact Hl.
Qed.

Lemma keeps_weaken {A} w0 (c : M A) (Q Q' : A -> Prop) :
  keeps w0 c Q -> (forall a, Q a -> Q' a) -> keeps w0 c Q'.
Proof. intros H HQ w Hw. destruct (H w Hw) as [H1 H2]. split; auto. Qed.

Lemma keeps_unchanged {A} w0 (c : M A) :
  (forall w, snd (c w) = w) -> keeps w0 c (fun _ => True).
Proof. intros H w Hw. rewrite H. auto. Qed.

Lemma keeps_bind {A B} w0 (c : M A) (k : A -> M B) (Q : A -> Prop) (Q' : B -> Prop) :
  keeps w0 c Q -> (forall a, Q a -> keeps w0 (k a) Q') -> keeps w0 (bind c k) Q'.
Proof.
  intros Hc Hk w Hw. destruct (Hc w Hw) as [H1 H2]. unfold bind.
  destruct (c w) as [[a|e] w1]; simpl in *.
  - apply Hk; auto.
  - split; [exact H1 | discriminate].
Qed.

Lemma keeps_for_each {A} w0 (l : list A) (body : A -> M unit) :
  (forall x, keeps w0 (body x) (fun _ => True)) ->
  keeps w0 (for_each l body) (fun _ => True).
Proof.
  intros Hb. induction l as [|x l IH]; simpl.
  - apply keeps_unchanged. reflexivity.
  - eapply keeps_bind; [apply Hb | intros; apply IH].
Qed.

Lemma keeps_map_each {A B} w0 (l : list A) (body : A -> M B) :
  (forall x, keeps w0 (body x) (fun _ => True)) ->
  keeps w0 (map_each l body) (fun _ => True).
Proof.
  intros Hb. induction l as [|x l IH]; simpl.
  - apply keeps_unchanged. reflexivity.
  - eapply keeps_bind; [apply Hb | intros y _].
    eapply keeps_bind; [apply IH | intros ys _].
    apply keeps_unchanged. reflexivity.
Qed.

Lemma deref_unchanged l w : snd (deref l w) = w.
Proof. unfold deref. destruct (store w !! l); reflexivity. Qed.

Lemma keeps_deref w0 l : keeps w0 (deref l) (fun _ => True).
Proof. apply keeps_unchanged, deref_unchanged. Qed.

Lemma keeps_lift {A} w0 (r : result A) : keeps w0 (lift r) (fun _ => True).
Proof. apply keeps_unchanged. reflexivity. Qed.

Lemma keeps_obsp_getitem w0 k : keeps w0 (obsp_getitem k) (fun _ => True).
Proof.
  apply keeps_unchanged. intros w. unfold obsp_getitem.
  destruct (obsp w !! k); reflexivity.
Qed.

Lemma keeps_uns_getitem w0 k : keeps w0 (uns_getitem k) (fun _ => True).
Proof.
  apply keeps_unchanged. intros w. unfold uns_getitem.
  destruct (uns w !! k); reflexivity.
Qed.

Lemma keeps_dict_getitem w0 l k : keeps w0 (dict_getitem l k) (fun _ => True).
Proof.
  unfold dict_getitem. eapply keeps_bind; [apply keeps_deref | intros o _].
  apply keeps_unchanged. intros w.
  destruct o as [d| | |]; try reflexivity. destruct (d !! k); reflexivity.
Qed.

Lemma keeps_read_array2 w0 l : keeps w0 (read_array2 l) (fun _ => True).
Proof.
  unfold read_array2. eapply keeps_bind; [apply keeps_deref | intros o _].
  apply keeps_unchanged. intros w. destruct o; reflexivity.
Qed.

Lemma keeps_read_array1 w0 l : keeps w0 (read_array1 l) (fun _ => True).
Proof.
  unfold read_array1. eapply keeps_bind; [apply keeps_deref | intros o _].
  apply keeps_unchanged. intros w. destruct o; reflexivity.
Qed.

Lemma keeps_read_matrix_input w0 l : keeps w0 (read_matrix_input l) (fun _ => True).
Proof.
  unfold read_matrix_input. eapply keeps_bind; [apply keeps_deref | intros o _].
  apply keeps_unchanged. intros w. destruct o; reflexivity.
Qed.

Lemma keeps_array_getitem w0 l r c : keeps w0 (array_getitem l r c) (fun _ => True).
Proof.
  unfold array_getitem. eapply keeps_bind; [apply keeps_read_array2 | intros m _].
  apply keeps_lift.
Qed.

(** A copy is a new object. *)
Lemma keeps_copy w0 l : keeps w0 (copy l) (fun d => d ∉ dom (store w0)).
Proof.
  unfold copy. eapply keeps_bind; [apply keeps_deref | intros o _].
  intros w Hw. unfold alloc. simpl.
  pose proof (is_fresh (dom (store w))) as Hfresh.
  split.
  - destruct Hw as (H1 & H2 & H3). split; [exact H1|]. split; [exact H2|].
    simpl. intros l' Hl'. rewrite lookup_insert_ne; [apply H3; exact Hl'|].
    intros E. subst l'. apply Hfresh. eapply ext_dom; [|exact Hl']. split; auto.
  - intros a [= Ha] Hin. subst a. apply Hfresh. eapply ext_dom; eauto.
Qed.

(** An item assignment into an object that [w0] did not have. *)
Lemma keeps_array_setitem w0 d r c v :
  d ∉ dom (store w0) -> keeps w0 (array_setitem d r c v) (fun _ => True).
Proof.
  intros Hd. unfold array_setitem.
  eapply keeps_bind; [apply keeps_read_array2 | intros m _].
  eapply keeps_bind; [apply keeps_lift | intros m' _].
  intros w (H1 & H2 & H3). simpl. split; [|auto].
  split; [exact H1|]. split; [exact H2|]. simpl.
  intros l Hl. rewrite lookup_insert_ne; [apply H3; exact Hl|].
  intros ->. contradiction.
Qed.

Lemma keeps_orient_segment w0 C vt d segment :
  d ∉ dom (store w0) -> keeps w0 (orient_segment C vt d segment) (fun _ => True).
Proof.
  intros Hd. unfold orient_segment.
  eapply keeps_bind; [apply keeps_lift | intros sp _].
  eapply keeps_bind; [apply keeps_lift | intros spr _].
  eapply keeps_bind; [apply keeps_lift | intros p _].
  eapply keeps_bind; [apply keeps_lift | intros p' _].
  destruct (fgtb p p'); [|destruct (fltb p p')];
    apply keeps_for_each; intros [r c];
    repeat (eapply keeps_bind;
            [first [apply keeps_array_getitem | apply keeps_array_setitem; exact Hd]
            | intros ? _]);
    apply keeps_array_setitem; exact Hd.
Qed.

Lemma triple_bind {A B} w0 (c : M A) (k : A -> M B) (R : A -> Prop)
    (Q : result B -> world -> Prop) :
  keeps w0 c R ->
  (forall e w, ext w0 w -> Q (Raise e) w) ->
  (forall a, R a -> triple w0 (k a) Q) ->
  triple w0 (bind c k) Q.
Proof.
  intros Hc Hraise Hk w Hw. destruct (Hc w Hw) as [H1 H2]. unfold bind.
  destruct (c w) as [[a|e] w1]; simpl in *.
  - apply Hk; auto.
  - apply Hraise. exact H1.
Qed.

Lemma construct_velocity_tree_triple w0 fuel key :
  triple w0 (construct_velocity_tree fuel key) (construct_post w0).
Proof.
  assert (Hraise : forall e w, ext w0 w -> construct_post w0 (@Raise loc e) w).
  { intros e w (H1 & H2 & H3). repeat split; assumption. }
  unfold construct_velocity_tree.
  eapply triple_bind; [apply keeps_unchanged; reflexivity | exact Hraise | intros p1 _].
  destruct (negb p1); [intros w Hw; apply Hraise, Hw|].
  eapply triple_bind; [apply keeps_unchanged; reflexivity | exact Hraise | intros p2 _].
  destruct (negb p2); [intros w Hw; apply Hraise, Hw|].
  eapply triple_bind; [apply keeps_obsp_getitem | exact Hraise | intros lT _].
  eapply triple_bind; [apply keeps_uns_getitem | exact Hraise | intros lco _].
  eapply triple_bind; [apply keeps_dict_getitem | exact Hraise | intros lR _].
  eapply triple_bind; [apply keeps_uns_getitem | exact Hraise | intros lco2 _].
  eapply triple_bind; [apply keeps_dict_getitem | exact Hraise | intros lord _].
  eapply triple_bind; [apply keeps_read_array1 | exact Hraise | intros co _].
  eapply triple_bind; [| exact Hraise | intros parents _].
  { apply keeps_map_each. intros node.
    eapply keeps_bind; [apply keeps_uns_getitem | intros ? _].
    eapply keeps_bind; [apply keeps_dict_getitem | intros ? _].
    eapply keeps_bind; [apply keeps_read_array1 | intros ? _].
    apply keeps_lift. }
  eapply triple_bind; [apply keeps_uns_getitem | exact Hraise | intros lco3 _].
  eapply triple_bind; [apply keeps_dict_getitem | exact Hraise | intros lV _].
  eapply triple_bind; [apply keeps_copy | exact Hraise | intros d Hd].
  eapply triple_bind; [apply keeps_lift | exact Hraise | intros segs _].
  eapply triple_bind; [apply keeps_read_matrix_input | exact Hraise | intros t _].
  eapply triple_bind; [apply keeps_read_array2 | exact Hraise | intros Rm _].
  eapply triple_bind; [apply keeps_lift | exact Hraise | intros C _].
  eapply triple_bind; [| exact Hraise | intros [] _].
  { apply keeps_for_each. intros seg. apply keeps_orient_segment. exact Hd. }
  intros w (H1 & H2 & H3). unfold bind, uns_setitem, ret. simpl.
  split; [exact H1|]. split; [exact H3|]. split; [|exact Hd].
  rewrite H2. reflexivity.
Qed.

(** ** A run of [construct_velocity_tree] on well-typed inputs *)

Lemma bind_pure {A B} (c : M A) (k : A -> M B) w r :
  c w = (r, w) ->
  bind c k w = match r with
               | Ok a => k a w
               | Raise e => (Raise e, w)
               end.
Proof. intros H. unfold bind. rewrite H. destruct r; reflexivity. Qed.

Lemma bind_ok {A B} (c : M A) (k : A -> M B) w a w1 :
  c w = (Ok a, w1) -> bind c k w = k a w1.
Proof. intros H. unfold bind. rewrite H. reflexivity. Qed.

Lemma map_each_pure {A B} (l : list A) (body : A -> M B) (f : A -> result B) w :
  (forall x, body x w = (f x, w)) ->
  map_each l body w = (mapM f l, w).
Proof.
  intros Hb. induction l as [|x l IH]; simpl; [reflexivity|].
  rewrite (bind_pure _ _ _ _ (Hb x)). destruct (f x) as [y|e]; simpl; [|reflexivity].
  rewrite (bind_pure _ _ _ _ IH). destruct (mapM f l); reflexivity.
Qed.

Lemma dict_getitem_ok w l d k v :
  store w !! l = Some (ODict d) -> d !! k = Some v ->
  dict_getitem l k w = (Ok v, w).
Proof.
  intros Hl Hk. unfold dict_getitem, deref, bind, ret. rewrite Hl, Hk. reflexivity.
Qed.

Lemma read_array1_ok w l v :
  store w !! l = Some (OArray1 v) -> read_array1 l w = (Ok v, w).
Proof. intros Hl. unfold read_array1, deref, bind, ret. rewrite Hl. reflexivity. Qed.

Lemma read_array2_ok w l m :
  store w !! l = Some (OArray2 m) -> read_array2 l w = (Ok m, w).
Proof. intros Hl. unfold read_array2, deref, bind, ret. rewrite Hl. reflexivity. Qed.

Lemma read_matrix_input_ok w l t :
  matrix_at w l t -> read_matrix_input l w = (Ok t, w).
Proof.
  intros Hl. unfold read_matrix_input, deref, bind, ret.
  destruct t; simpl in Hl; rewrite Hl; reflexivity.
Qed.

Lemma uns_getitem_ok w k l : uns w !! k = Some l -> uns_getitem k w = (Ok l, w).
Proof. intros H. unfold uns_getitem. rewrite H. reflexivity. Qed.

Lemma obsp_getitem_ok w k l : obsp w !! k = Some l -> obsp_getitem k w = (Ok l, w).
Proof. intros H. unfold obsp_getitem. rewrite H. reflexivity. Qed.

Lemma construct_velocity_tree_run fuel key w t Rm co cp lV V r w' :
  reads key w t Rm co cp lV V ->
  construct_velocity_tree fuel key w = (r, w') ->
  match directed_tree fuel t Rm co cp V with
  | Ok D => r = Ok (fresh (dom (store w))) /\ w' = final_world w D
  | Raise e => r = Raise e
  end.
Proof.
  intros (lT & lco & dco & lR & lord & lpar & HT & Hco & Hdco & HR & Hord & Hpar
          & HV & Hsord & Hspar & HsV & HsR & HsT) Hrun.
  unfold construct_velocity_tree in Hrun. unfold directed_tree.
  unfold bind at 1, obsp_contains in Hrun.
  rewrite bool_decide_eq_true_2 in Hrun by (rewrite HT; eauto).
  cbn [negb] in Hrun.
  unfold bind at 1, uns_contains in Hrun.
  rewrite bool_decide_eq_true_2 in Hrun by (rewrite Hco; eauto).
  cbn [negb] in Hrun.
  rewrite (bind_ok _ _ _ _ _ (obsp_getitem_ok _ _ _ HT)) in Hrun.
  rewrite (bind_ok _ _ _ _ _ (uns_getitem_ok _ _ _ Hco)) in Hrun.
  rewrite (bind_ok _ _ _ _ _ (dict_getitem_ok _ _ _ _ _ Hdco HR)) in Hrun.
  rewrite (bind_ok _ _ _ _ _ (uns_getitem_ok _ _ _ Hco)) in Hrun.
  rewrite (bind_ok _ _ _ _ _ (dict_getitem_ok _ _ _ _ _ Hdco Hord)) in Hrun.
  rewrite (bind_ok _ _ _ _ _ (read_array1_ok _ _ _ Hsord)) in Hrun.
  erewrite bind_pure in Hrun.
  2:{ apply (map_each_pure _ _ (index1 cp)). intros node.
      rewrite (bind_ok _ _ _ _ _ (uns_getitem_ok _ _ _ Hco)).
      rewrite (bind_ok _ _ _ _ _ (dict_getitem_ok _ _ _ _ _ Hdco Hpar)).
      rewrite (bind_ok _ _ _ _ _ (read_array1_ok _ _ _ Hspar)).
      reflexivity. }
  destruct (mapM (index1 cp) (argsort co)) as [parents|e]; simpl;
    [|injection Hrun as <- _; reflexivity].
  rewrite (bind_ok _ _ _ _ _ (uns_getitem_ok _ _ _ Hco)) in Hrun.
  rewrite (bind_ok _ _ _ _ _ (dict_getitem_ok _ _ _ _ _ Hdco HV)) in Hrun.
  set (d := fresh (dom (store w))) in *.
  assert (Hd : d ∉ dom (store w)) by apply is_fresh.
  assert (Hne : forall l o, store w !! l = Some o -> l <> d).
  { intros l o Hl ->. apply Hd, elem_of_dom. eauto. }
  set (w1 := set_store w (<[d := OArray2 V]> (store w))).
  assert (Hcopy : copy lV w = (Ok d, w1)).
  { unfold copy, deref, bind, alloc. rewrite HsV. reflexivity. }
  rewrite (bind_ok _ _ _ _ _ Hcopy) in Hrun.
  rewrite bind_lift in Hrun.
  destruct (_get_all_segments fuel (argsort co) parents) as [segs|e]; simpl;
    [|injection Hrun as <- _; reflexivity].
  assert (HT1 : matrix_at w1 lT t).
  { destruct t; simpl in *; rewrite lookup_insert_ne; eauto using not_eq_sym. }
  assert (HR1 : store w1 !! lR = Some (OArray2 Rm)).
  { simpl. rewrite lookup_insert_ne; eauto using not_eq_sym. }
  rewrite (bind_ok _ _ _ _ _ (read_matrix_input_ok _ _ _ HT1)) in Hrun.
  rewrite (bind_ok _ _ _ _ _ (read_array2_ok _ _ _ HR1)) in Hrun.
  rewrite bind_lift in Hrun.
  destruct (_compute_center_transition_matrix t Rm) as [C|e]; simpl;
    [|injection Hrun as <- _; reflexivity].
  pose proof (runs_as_loop w lV d V HsV (Hne _ _ HsV) C segs V w1 eq_refl) as Hloop.
  cbv beta in Hloop. unfold bind at 1 in Hrun.
  destruct (foldM (orient_segment_array C V) segs V) as [D|e].
  - destruct Hloop as (w2 & E & ->). rewrite E in Hrun.
    unfold bind, uns_setitem, ret in Hrun. simpl in Hrun.
    injection Hrun as <- <-. split; reflexivity.
  - destruct (for_each segs _ w1) as [[[]|e'] w2]; simpl in *; try congruence.
Qed.

(** ** Item assignments on arrays *)

Lemma norm_index_nonneg n i k :
  (0 <= i)%Z -> norm_index n i = Ok k -> k = Z.to_nat i /\ (i < Z.of_nat n)%Z.
Proof.
  intros Hi. unfold norm_index.
  destruct ((0 <=? i)%Z && (i <? Z.of_nat n)%Z) eqn:E.
  - intros [= <-]. apply andb_true_iff in E as [_ E]. apply Z.ltb_lt in E. auto.
  - destruct ((- Z.of_nat n <=? i)%Z && (i <? 0)%Z) eqn:E'; [|discriminate].
    apply andb_true_iff in E' as [_ E']. apply Z.ltb_lt in E'. lia.
Qed.

Lemma norm_index_in_range n i :
  (0 <= i < Z.of_nat n)%Z -> norm_index n i = Ok (Z.to_nat i).
Proof.
  intros Hi. unfold norm_index.
  rewrite (proj2 (Z.leb_le 0 i)) by lia. rewrite (proj2 (Z.ltb_lt i _)) by lia.
  reflexivity.
Qed.

Lemma getitem_nonneg m r c x :
  (0 <= r)%Z -> (0 <= c)%Z -> getitem m r c = Ok x ->
  (r < Z.of_nat (nrows m))%Z /\ (c < Z.of_nat (ncols m))%Z
  /\ x = data m (Z.to_nat r) (Z.to_nat c).
Proof.
  intros Hr Hc. unfold getitem.
  destruct (norm_index (nrows m) r) as [i|] eqn:Ei; simpl; [|discriminate].
  destruct (norm_index (ncols m) c) as [j|] eqn:Ej; simpl; [|discriminate].
  intros [= <-].
  apply norm_index_nonneg in Ei as [-> ?]; [|exact Hr].
  apply norm_index_nonneg in Ej as [-> ?]; [|exact Hc]. auto.
Qed.

Lemma getitem_in_range m r c :
  (0 <= r < Z.of_nat (nrows m))%Z -> (0 <= c < Z.of_nat (ncols m))%Z ->
  getitem m r c = Ok (data m (Z.to_nat r) (Z.to_nat c)).
Proof.
  intros Hr Hc. unfold getitem. rewrite !norm_index_in_range by assumption.
  reflexivity.
Qed.

(** Reading after an assignment, for non-negative indices. *)
Lemma getitem_setitem D r c v D' r' c' :
  (0 <= r)%Z -> (0 <= c)%Z -> (0 <= r')%Z -> (0 <= c')%Z ->
  setitem D r c v = Ok D' ->
  getitem D' r' c' = if ((r' =? r) && (c' =? c))%Z then Ok v else getitem D r' c'.
Proof.
  intros Hr Hc Hr' Hc'. unfold setitem.
  destruct (norm_index (nrows D) r) as [i|] eqn:Ei; simpl; [|discriminate].
  destruct (norm_index (ncols D) c) as [j|] eqn:Ej; simpl; [|discriminate].
  intros [= <-].
  apply norm_index_nonneg in Ei as [-> Hi]; [|exact Hr].
  apply norm_index_nonneg in Ej as [-> Hj]; [|exact Hc].
  unfold getitem. cbn [nrows ncols data].
  destruct (norm_index (nrows D) r') as [i'|] eqn:Ei'; simpl.
  2:{ destruct ((r' =? r)%Z) eqn:E; [|reflexivity]. apply Z.eqb_eq in E. subst r'.
      rewrite norm_index_in_range in Ei' by lia. discriminate. }
  destruct (norm_index (ncols D) c') as [j'|] eqn:Ej'; simpl.
  2:{ destruct ((c' =? c)%Z) eqn:E; [|rewrite andb_false_r; reflexivity].
      apply Z.eqb_eq in E. subst c'.
      rewrite norm_index_in_range in Ej' by lia. discriminate. }
  apply norm_index_nonneg in Ei' as [-> Hi']; [|exact Hr'].
  apply norm_index_nonneg in Ej' as [-> Hj']; [|exact Hc'].
  unfold upd2.
  destruct (Z.eqb_spec r' r) as [->|Hne].
  - rewrite Nat.eqb_refl. cbn [andb].
    destruct (Z.eqb_spec c' c) as [->|Hne'].
    + rewrite Nat.eqb_refl. reflexivity.
    + rewrite (proj2 (Nat.eqb_neq _ _)) by lia. reflexivity.
  - rewrite (proj2 (Nat.eqb_neq _ _)) by lia. reflexivity.
Qed.

Lemma orient_segment_array_branch C V D segment :
  orient_segment_array C V D segment =
  let? pp := segment_scores C segment in
  foldM (write_of (branch_of (fst pp) (snd pp)) V) (_get_edges segment None) D.
Proof.
  unfold orient_segment_array. destruct (segment_scores C segment) as [[p p']|e];
    simpl; [|reflexivity].
  unfold branch_of. destruct (fgtb p p'); [reflexivity|].
  destruct (fltb p p'); reflexivity.
Qed.

Lemma write_of_entries b V D r c D' :
  (0 <= r)%Z -> (0 <= c)%Z -> r <> c ->
  write_of b V D (r, c) = Ok D' ->
  exists x y,
    getitem V r c = Ok x /\ getitem V c r = Ok y
    /\ getitem D' r c = Ok (fst (written b x y))
    /\ getitem D' c r = Ok (snd (written b x y)).
Proof.
  intros Hr Hc Hne.
  assert (E1 : ((r =? c)%Z = false)) by (apply Z.eqb_neq; exact Hne).
  assert (E2 : ((c =? r)%Z = false)) by (apply Z.eqb_neq; auto).
  destruct b; simpl; unfold write_forward, write_backward, write_keep.
  - destruct (getitem V r c) as [x|]; simpl; [|discriminate].
    destruct (getitem V c r) as [y|]; simpl; [|discriminate].
    destruct (setitem D r c (py_max x y)) as [D1|] eqn:S1; simpl; [|discriminate].
    intros S2. exists x, y. split; [reflexivity|]. split; [reflexivity|].
    rewrite (getitem_setitem _ _ _ _ _ r c Hc Hr Hr Hc S2).
    rewrite (getitem_setitem _ _ _ _ _ c r Hc Hr Hc Hr S2).
    rewrite (getitem_setitem _ _ _ _ _ r c Hr Hc Hr Hc S1).
    rewrite !Z.eqb_refl, E1. cbn [andb]. auto.
  - destruct (getitem V r c) as [x|]; simpl; [|discriminate].
    destruct (getitem V c r) as [y|]; simpl; [|discriminate].
    destruct (setitem D c r (py_max x y)) as [D1|] eqn:S1; simpl; [|discriminate].
    intros S2. exists x, y. split; [reflexivity|]. split; [reflexivity|].
    rewrite (getitem_setitem _ _ _ _ _ r c Hr Hc Hr Hc S2).
    rewrite (getitem_setitem _ _ _ _ _ c r Hr Hc Hc Hr S2).
    rewrite (getitem_setitem _ _ _ _ _ c r Hc Hr Hc Hr S1).
    rewrite !Z.eqb_refl, E2. cbn [andb]. auto.
  - destruct (getitem V c r) as [y|]; simpl; [|discriminate].
    destruct (setitem D c r y) as [D1|] eqn:S1; simpl; [|discriminate].
    destruct (getitem V r c) as [x|]; simpl; [|discriminate].
    intros S2. exists x, y. split; [reflexivity|]. split; [reflexivity|].
    rewrite (getitem_setitem _ _ _ _ _ r c Hr Hc Hr Hc S2).
    rewrite (getitem_setitem _ _ _ _ _ c r Hr Hc Hc Hr S2).
    rewrite (getitem_setitem _ _ _ _ _ c r Hc Hr Hc Hr S1).
    rewrite !Z.eqb_refl, E2. cbn [andb]. auto.
Qed.

Lemma write_of_elsewhere b V D r c D' r' c' :
  (0 <= r)%Z -> (0 <= c)%Z -> (0 <= r')%Z -> (0 <= c')%Z ->
  ~ touches (r, c) r' c' ->
  write_of b V D (r, c) = Ok D' ->
  getitem D' r' c' = getitem D r' c'.
Proof.
  intros Hr Hc Hr' Hc' Hnt.
  assert (E1 : ((r' =? r) && (c' =? c))%Z = false).
  { apply andb_false_iff.
    destruct (Z.eqb_spec r' r), (Z.eqb_spec c' c); auto.
    subst. exfalso. apply Hnt. left. reflexivity. }
  assert (E2 : ((r' =? c) && (c' =? r))%Z = false).
  { apply andb_false_iff.
    destruct (Z.eqb_spec r' c), (Z.eqb_spec c' r); auto.
    subst. exfalso. apply Hnt. right. reflexivity. }
  destruct b; simpl; unfold write_forward, write_backward, write_keep.
  - destruct (getitem V r c) as [x|]; simpl; [|discriminate].
    destruct (getitem V c r) as [y|]; simpl; [|discriminate].
    destruct (setitem D r c (py_max x y)) as [D1|] eqn:S1; simpl; [|discriminate].
    intros S2.
    rewrite (getitem_setitem _ _ _ _ _ r' c' Hc Hr Hr' Hc' S2), E2.
    rewrite (getitem_setitem _ _ _ _ _ r' c' Hr Hc Hr' Hc' S1), E1. reflexivity.
  - destruct (getitem V r c) as [x|]; simpl; [|discriminate].
    destruct (getitem V c r) as [y|]; simpl; [|discriminate].
    destruct (setitem D c r (py_max x y)) as [D1|] eqn:S1; simpl; [|discriminate].
    intros S2.
    rewrite (getitem_setitem _ _ _ _ _ r' c' Hr Hc Hr' Hc' S2), E1.
    rewrite (getitem_setitem _ _ _ _ _ r' c' Hc Hr Hr' Hc' S1), E2. reflexivity.
  - destruct (getitem V c r) as [y|]; simpl; [|discriminate].
    destruct (setitem D c r y) as [D1|] eqn:S1; simpl; [|discriminate].
    destruct (getitem V r c) as [x|]; simpl; [|discriminate].
    intros S2.
    rewrite (getitem_setitem _ _ _ _ _ r' c' Hr Hc Hr' Hc' S2), E1.
    rewrite (getitem_setitem _ _ _ _ _ r' c' Hc Hr Hr' Hc' S1), E2. reflexivity.
Qed.

Lemma touches_sym rc r c : touches rc r c <-> touches rc c r.
Proof. unfold touches. tauto. Qed.

Lemma fold_write_elsewhere b V edges D D' r' c' :
  nonneg_edges edges -> (0 <= r')%Z -> (0 <= c')%Z ->
  (forall rc, In rc edges -> ~ touches rc r' c') ->
  foldM (write_of b V) edges D = Ok D' ->
  getitem D' r' c' = getitem D r' c'.
Proof.
  intros Hnn Hr' Hc'. revert D.
  induction edges as [|[r c] edges IH]; intros D Hnt; simpl.
  - intros [= <-]. reflexivity.
  - destruct (write_of b V D (r, c)) as [D1|] eqn:E1; simpl; [|discriminate].
    intros E2.
    rewrite (IH (fun rc H => Hnn rc (or_intror H)) D1
                (fun rc H => Hnt rc (or_intror H)) E2).
    destruct (Hnn (r, c) (or_introl eq_refl)) as [Hr Hc].
    apply (write_of_elsewhere b V D r c D1 r' c'); auto.
    apply Hnt. left. reflexivity.
Qed.

Lemma fold_write_at b V e1 r c e2 D D' :
  nonneg_edges (e1 ++ (r, c) :: e2) -> r <> c ->
  (forall rc, In rc e2 -> ~ touches rc r c) ->
  foldM (write_of b V) (e1 ++ (r, c) :: e2) D = Ok D' ->
  exists x y,
    getitem V r c = Ok x /\ getitem V c r = Ok y
    /\ getitem D' r c = Ok (fst (written b x y))
    /\ getitem D' c r = Ok (snd (written b x y)).
Proof.
  intros Hnn Hne Hnt. rewrite foldM_app.
  destruct (foldM (write_of b V) e1 D) as [D1|]; simpl; [|discriminate].
  destruct (write_of b V D1 (r, c)) as [D2|] eqn:E2; simpl; [|discriminate].
  intros E3.
  destruct (Hnn (r, c)) as [Hr Hc]; [apply in_or_app; right; left; reflexivity|].
  simpl in Hr, Hc.
  destruct (write_of_entries b V D1 r c D2 Hr Hc Hne E2) as (x & y & Hx & Hy & H1 & H2).
  assert (Hnn2 : nonneg_edges e2).
  { intros rc H. apply Hnn. apply in_or_app. right. right. exact H. }
  exists x, y. split; [exact Hx|]. split; [exact Hy|]. split.
  - rewrite (fold_write_elsewhere b V e2 D2 D' r c Hnn2 Hr Hc Hnt E3). exact H1.
  - rewrite (fold_write_elsewhere b V e2 D2 D' c r Hnn2 Hc Hr); [exact H2| |exact E3].
    intros rc H Ht. apply (Hnt rc H). apply touches_sym. exact Ht.
Qed.

Lemma segments_elsewhere C V segs D D' r' c' :
  (forall seg, In seg segs -> nonneg_edges (edges_of seg)) ->
  (0 <= r')%Z -> (0 <= c')%Z ->
  (forall seg rc, In seg segs -> In rc (edges_of seg) -> ~ touches rc r' c') ->
  foldM (orient_segment_array C V) segs D = Ok D' ->
  getitem D' r' c' = getitem D r' c'.
Proof.
  intros Hnn Hr' Hc'. revert D.
  induction segs as [|seg segs IH]; intros D Hnt; simpl.
  - intros [= <-]. reflexivity.
  - rewrite orient_segment_array_branch.
    destruct (segment_scores C seg) as [pp|]; simpl; [|discriminate].
    destruct (foldM _ (_get_edges seg None) D) as [D1|] eqn:E1; simpl; [|discriminate].
    intros E2.
    rewrite (IH (fun s H => Hnn s (or_intror H)) D1
                (fun s rc H => Hnt s rc (or_intror H)) E2).
    eapply fold_write_elsewhere; [| exact Hr' | exact Hc' | | exact E1].
    + apply (Hnn seg). left. reflexivity.
    + intros rc H. apply (Hnt seg rc); [left; reflexivity | exact H].
Qed.

Lemma segments_at C V s1 seg s2 e1 r c e2 D D' :
  edges_of seg = e1 ++ (r, c) :: e2 ->
  (forall s, In s (s1 ++ seg :: s2) -> nonneg_edges (edges_of s)) ->
  r <> c ->
  (forall rc, In rc e2 -> ~ touches rc r c) ->
  (forall s rc, In s s2 -> In rc (edges_of s) -> ~ touches rc r c) ->
  foldM (orient_segment_array C V) (s1 ++ seg :: s2) D = Ok D' ->
  exists p p' x y,
    segment_scores C seg = Ok (p, p')
    /\ getitem V r c = Ok x /\ getitem V c r = Ok y
    /\ getitem D' r c = Ok (fst (written (branch_of p p') x y))
    /\ getitem D' c r = Ok (snd (written (branch_of p p') x y)).
Proof.
  intros He Hnn Hne Hnt Hnt2. rewrite foldM_app.
  destruct (foldM (orient_segment_array C V) s1 D) as [D1|]; simpl; [|discriminate].
  rewrite orient_segment_array_branch.
  destruct (segment_scores C seg) as [[p p']|]; simpl; [|discriminate].
  fold (edges_of seg). rewrite He.
  destruct (foldM _ (e1 ++ (r, c) :: e2) D1) as [D2|] eqn:E2; simpl; [|discriminate].
  intros E3.
  assert (Hnn1 : nonneg_edges (e1 ++ (r, c) :: e2)).
  { rewrite <- He. apply Hnn. apply in_or_app. right. left. reflexivity. }
  destruct (fold_write_at _ V e1 r c e2 D1 D2 Hnn1 Hne Hnt E2)
    as (x & y & Hx & Hy & H1 & H2).
  destruct (Hnn1 (r, c)) as [Hr Hc]; [apply in_or_app; right; left; reflexivity|].
  simpl in Hr, Hc.
  assert (Hnn2 : forall s, In s s2 -> nonneg_edges (edges_of s)).
  { intros s H. apply Hnn. apply in_or_app. right. right. exact H. }
  exists p, p', x, y. split; [reflexivity|]. split; [exact Hx|]. split; [exact Hy|].
  split.
  - rewrite (segments_elsewhere C V s2 D2 D' r c Hnn2 Hr Hc Hnt2 E3). exact H1.
  - rewrite (segments_elsewhere C V s2 D2 D' c r Hnn2 Hc Hr); [exact H2| |exact E3].
    intros s rc Hs H Ht. apply (Hnt2 s rc Hs H). apply touches_sym. exact Ht.
Qed.

(** ** Edge pairs and segment scores *)

Lemma edges_of_lookup seg i r c :
  edges_of seg !! i = Some (r, c) <-> seg !! i = Some r /\ seg !! S i = Some c.
Proof.
  unfold edges_of, _get_edges. simpl. rewrite list_lookup_fmap.
  destruct (decide (i < length seg - 1)) as [Hlt|Hge].
  - rewrite lookup_seq_lt by exact Hlt. simpl.
    rewrite Nat.sub_0_r.
    destruct (lookup_lt_is_Some_2 seg i) as [x Hx]; [lia|].
    destruct (lookup_lt_is_Some_2 seg (S i)) as [y Hy]; [lia|].
    rewrite (nth_lookup_Some _ _ _ _ Hx), (nth_lookup_Some _ _ _ _ Hy).
    rewrite Hx, Hy. split.
    + intros [= -> ->]. auto.
    + intros [[= ->] [= ->]]. reflexivity.
  - rewrite lookup_seq_ge by lia. simpl. split; [discriminate|].
    intros [_ H]. apply lookup_lt_Some in H. lia.
Qed.

Lemma edges_of_length seg : length (edges_of seg) = length seg - 1.
Proof. unfold edges_of, _get_edges. simpl. rewrite length_map, length_seq. reflexivity. Qed.

Lemma edges_of_nonneg seg :
  (forall x, In x seg -> (0 <= x)%Z) -> nonneg_edges (edges_of seg).
Proof.
  intros H [r c] Hin. apply list_elem_of_In, list_elem_of_lookup in Hin as [i Hi].
  apply edges_of_lookup in Hi as [H1 H2]. simpl. split; apply H, list_elem_of_In.
  - eapply list_elem_of_lookup_2; eauto.
  - eapply list_elem_of_lookup_2; eauto.
Qed.

Lemma getitem_map_entries f m r c :
  getitem (map_entries f m) r c = let? x := getitem m r c in Ok (f x).
Proof.
  unfold getitem, map_entries. simpl.
  destruct (norm_index (nrows m) r); simpl; [|reflexivity].
  destruct (norm_index (ncols m) c); reflexivity.
Qed.

Lemma last_cumsum_from a l :
  l <> [] -> last (cumsum_from a l) = Some (fold_left fadd l a).
Proof.
  revert a. induction l as [|x l IH]; intros a Hne; [contradiction|].
  destruct l as [|y l]; [reflexivity|].
  change (last (fadd a x :: cumsum_from (fadd a x) (y :: l))
          = Some (fold_left fadd (y :: l) (fadd a x))).
  rewrite <- (IH (fadd a x)) by discriminate.
  simpl. reflexivity.
Qed.

Lemma cumsum_from_nth a l i :
  i < length l ->
  nth i (cumsum_from a l) NaN = fold_left fadd (take (S i) l) a.
Proof.
  revert a i. induction l as [|x l IH]; intros a i Hi; simpl in Hi; [lia|].
  destruct i as [|i]; simpl.
  - reflexivity.
  - apply IH. lia.
Qed.

Lemma length_cumsum_from a l : length (cumsum_from a l) = length l.
Proof. revert a. induction l; intros; simpl; auto. Qed.

Lemma log_entry_finite a : exists x, log_entry a = Fin x.
Proof. apply (clean_finite (log1p a)). Qed.

Lemma log_entry_probability x :
  (0 <= x)%R -> log_entry (Fin x) = Fin (ln (1 + x)).
Proof. intros Hx. unfold log_entry. simpl. rewrite Rltb_true by lra. reflexivity. Qed.

Lemma segment_probability_unfold C edges :
  _calculate_segment_probability C edges =
  let? picked := mapM (fun e => let? p := getitem C (fst e) (snd e) in Ok (log_entry p))
                      edges in
  Ok (cumsum picked).
Proof.
  unfold _calculate_segment_probability. f_equal.
  induction edges as [|e edges IH]; simpl; [reflexivity|].
  rewrite !getitem_map_entries. rewrite IH.
  destruct (getitem C e.1 e.2); reflexivity.
Qed.

Lemma mapM_rbind {A B C} (f : A -> result B) (g : B -> C) l ys :
  mapM f l = Ok ys -> mapM (fun x => let? y := f x in Ok (g y)) l = Ok (map g ys).
Proof.
  revert ys. induction l as [|x l IH]; intros ys; simpl.
  - intros [= <-]. reflexivity.
  - destruct (f x); simpl; [|discriminate].
    destruct (mapM f l); simpl; [|discriminate].
    intros [= <-]. rewrite (IH _ eq_refl). reflexivity.
Qed.

(** Scores are sums of finite numbers, hence finite. *)
Lemma fold_fadd_finite l a :
  Forall finite l -> finite a -> finite (fold_left fadd l a).
Proof.
  intros H. revert a. induction H as [|x l [y ->] _ IH]; intros a [z ->]; simpl.
  - exists z. reflexivity.
  - apply IH. eexists. reflexivity.
Qed.

Lemma segment_probability_last_finite C edges scores p :
  _calculate_segment_probability C edges = Ok scores ->
  last_item scores = Ok p -> finite p.
Proof.
  rewrite segment_probability_unfold.
  destruct (mapM _ edges) as [picked|] eqn:E; simpl; [|discriminate].
  intros [= <-]. unfold last_item.
  destruct picked as [|x picked].
  - discriminate.
  - assert (HF : Forall finite (x :: picked)).
    { clear -E. revert E. generalize (x :: picked). intros ys. revert ys.
      induction edges as [|e edges IH]; intros ys; simpl.
      + intros [= <-]. constructor.
      + destruct (getitem C e.1 e.2) as [q|]; simpl; [|discriminate].
        destruct (mapM _ edges) as [ys'|]; simpl; [|discriminate].
        intros [= <-]. constructor; [apply log_entry_finite | apply IH; reflexivity]. }
    unfold cumsum. rewrite last_cumsum_from by discriminate. intros [= <-].
    apply (fold_fadd_finite (x :: picked) (Fin 0) HF). exists 0%R. reflexivity.
Qed.

Lemma segment_scores_finite C seg p p' :
  segment_scores C seg = Ok (p, p') -> finite p /\ finite p'.
Proof.
  unfold segment_scores.
  destruct (_calculate_segment_probability C (_get_edges seg None)) as [sp|] eqn:E1;
    simpl; [|discriminate].
  destruct (_calculate_segment_probability C (_get_edges (rev seg) None)) as [spr|] eqn:E2;
    simpl; [|discriminate].
  destruct (last_item sp) as [q|] eqn:L1; simpl; [|discriminate].
  destruct (last_item spr) as [q'|] eqn:L2; simpl; [|discriminate].
  intros [= <- <-]. split.
  - exact (segment_probability_last_finite _ _ _ _ E1 L1).
  - exact (segment_probability_last_finite _ _ _ _ E2 L2).
Qed.

(** Finite scores are equal, or one is strictly larger. *)
Lemma branch_of_finite p p' :
  finite p -> finite p' ->
  (p = p' /\ branch_of p p' = Keep)
  \/ (fgtb p p' = true /\ branch_of p p' = Forward)
  \/ (fltb p p' = true /\ fgtb p p' = false /\ branch_of p p' = Backward).
Proof.
  intros [x ->] [y ->]. unfold branch_of, fgtb. simpl. unfold Rltb.
  destruct (Rlt_dec y x) as [H1|H1]; [right; left; auto|].
  destruct (Rlt_dec x y) as [H2|H2]; [right; right; auto|].
  left. split; [f_equal; lra | reflexivity].
Qed.

(** ** Lists, counters and the parent dictionary *)

Lemma inb_true x l : inb x l = true <-> x ∈ l.
Proof.
  unfold inb. rewrite existsb_exists. split.
  - intros (y & Hy & E). apply Z.eqb_eq in E. subst. apply list_elem_of_In. exact Hy.
  - intros H. exists x. split; [apply list_elem_of_In; exact H | apply Z.eqb_refl].
Qed.

Lemma inb_false x l : inb x l = false <-> x ∉ l.
Proof.
  rewrite <- inb_true. destruct (inb x l); split; intros; congruence.
Qed.

Lemma counter_get_add x c y :
  counter_get (counter_add x c) y
  = (if (x =? y)%Z then 1 else 0) + counter_get c y.
Proof.
  induction c as [|[z n] c IH]; simpl.
  - rewrite (Z.eqb_sym y x). destruct (x =? y)%Z; reflexivity.
  - destruct (Z.eqb_spec x z) as [->|Hxz]; simpl.
    + rewrite (Z.eqb_sym y z). destruct (z =? y)%Z; reflexivity.
    + destruct (Z.eqb_spec y z) as [->|Hyz].
      * rewrite (proj2 (Z.eqb_neq x z)) by exact Hxz. reflexivity.
      * exact IH.
Qed.

Lemma counter_keys_add x c :
  NoDup (map fst c) ->
  NoDup (map fst (counter_add x c))
  /\ forall y, y ∈ map fst (counter_add x c) <-> y = x \/ y ∈ map fst c.
Proof.
  induction c as [|[z n] c IH]; simpl; intros Hnd.
  - split; [apply NoDup_singleton|]. intros y. rewrite list_elem_of_singleton.
    rewrite elem_of_nil. tauto.
  - apply NoDup_cons in Hnd as [Hz Hnd]. destruct (IH Hnd) as [IH1 IH2].
    destruct (Z.eqb_spec x z) as [->|Hxz]; simpl.
    + split; [apply NoDup_cons; auto|]. intros y. rewrite elem_of_cons. tauto.
    + split.
      * apply NoDup_cons. split; [|exact IH1]. rewrite IH2. intros [E|E]; auto.
      * intros y. rewrite !elem_of_cons, IH2. tauto.
Qed.

Lemma Counter_spec l :
  NoDup (map fst (Counter l))
  /\ forall y, counter_get (Counter l) y = occurrences y l.
Proof.
  unfold Counter.
  assert (H : forall c, NoDup (map fst c) ->
            NoDup (map fst (fold_left (fun c x => counter_add x c) l c))
            /\ forall y, counter_get (fold_left (fun c x => counter_add x c) l c) y
                         = counter_get c y + occurrences y l).
  { induction l as [|x l IH]; intros c Hc; simpl.
    - split; [exact Hc | intros; lia].
    - destruct (counter_keys_add x c Hc) as [Hc' _].
      destruct (IH _ Hc') as [IH1 IH2]. split; [exact IH1|].
      intros y. rewrite IH2, counter_get_add. lia. }
  destruct (H [] (NoDup_nil_2)) as [H1 H2]. split; [exact H1|].
  intros y. rewrite H2. reflexivity.
Qed.

Lemma counter_get_elem c y n :
  NoDup (map fst c) -> (y, n) ∈ c -> counter_get c y = n.
Proof.
  induction c as [|[z m] c IH]; simpl; intros Hnd Hin.
  - apply elem_of_nil in Hin. contradiction.
  - apply NoDup_cons in Hnd as [Hz Hnd]. apply elem_of_cons in Hin as [[= -> ->]|Hin].
    + rewrite Z.eqb_refl. reflexivity.
    + destruct (Z.eqb_spec y z) as [->|_]; [|auto].
      exfalso. apply Hz. apply list_elem_of_fmap. exists (z, n). auto.
Qed.

Lemma counter_get_pos c y : counter_get c y <> 0 -> (y, counter_get c y) ∈ c.
Proof.
  induction c as [|[z m] c IH]; simpl; intros H; [contradiction|].
  destruct (Z.eqb_spec y z) as [->|_].
  - apply list_elem_of_here.
  - apply list_elem_of_further, IH, H.
Qed.

Lemma occurrences_pos y l : occurrences y l <> 0 -> y ∈ l.
Proof.
  induction l as [|x l IH]; simpl; [contradiction|].
  destruct (Z.eqb_spec x y) as [->|_]; intros H.
  - apply list_elem_of_here.
  - apply list_elem_of_further, IH. lia.
Qed.

Lemma occurrences_two y (l : list Z) i j :
  l !! i = Some y -> l !! j = Some y -> i <> j -> 2 <= occurrences y l.
Proof.
  assert (Hone : forall l k, l !! k = Some y -> 1 <= occurrences y l).
  { clear. intros l. induction l as [|x l IH]; intros k Hk; [discriminate|].
    simpl. destruct k as [|k]; simpl in Hk.
    - injection Hk as ->. rewrite Z.eqb_refl. lia.
    - specialize (IH k Hk). lia. }
  revert i j. induction l as [|x l IH]; intros i j Hi Hj Hne; [discriminate|].
  simpl. destruct i as [|i], j as [|j]; simpl in *; try lia.
  - injection Hi as ->. rewrite Z.eqb_refl. specialize (Hone l j Hj). lia.
  - injection Hj as ->. rewrite Z.eqb_refl. specialize (Hone l i Hi). lia.
  - specialize (IH i j Hi Hj). lia.
Qed.

Lemma bifurcation_spec parents pd x :
  x ∈ bifurcation_nodes_of parents pd <-> 2 <= occurrences x parents /\ x <> (-1)%Z.
Proof.
  destruct (Counter_spec parents) as [Hnd Hget]. unfold bifurcation_nodes_of.
  rewrite list_elem_of_fmap. split.
  - intros ([y n] & -> & Hin). apply list_elem_of_In, List.filter_In in Hin as [Hin Hp].
    apply list_elem_of_In in Hin. cbn [fst].
    rewrite <- Hget, (counter_get_elem _ _ _ Hnd Hin).
    unfold dict_eq_int in Hp. rewrite andb_false_r, andb_true_r in Hp.
    apply andb_true_iff in Hp as [H1 H2]. apply Nat.ltb_lt in H1.
    apply negb_true_iff, Z.eqb_neq in H2. split; [lia | exact H2].
  - intros [Hocc Hne]. exists (x, counter_get (Counter parents) x). split; [reflexivity|].
    apply list_elem_of_In, List.filter_In. split.
    + apply list_elem_of_In, counter_get_pos. rewrite Hget. lia.
    + unfold dict_eq_int. rewrite andb_false_r, andb_true_r.
      apply andb_true_iff. split.
      * apply Nat.ltb_lt. rewrite Hget. lia.
      * apply negb_true_iff, Z.eqb_neq. exact Hne.
Qed.

Lemma bifurcation_NoDup parents pd : NoDup (bifurcation_nodes_of parents pd).
Proof.
  destruct (Counter_spec parents) as [Hnd _]. unfold bifurcation_nodes_of.
  revert Hnd. generalize (Counter parents). intros c.
  induction c as [|[z n] c IH]; simpl; intros Hnd; [apply NoDup_nil_2|].
  apply NoDup_cons in Hnd as [Hz Hnd].
  destruct (_ && _); simpl; [|auto].
  apply NoDup_cons. split; [|auto].
  intros Hin. apply Hz. apply list_elem_of_fmap in Hin as ([y m] & -> & Hin).
  apply list_elem_of_In, List.filter_In in Hin as [Hin _].
  apply list_elem_of_fmap. exists (y, m). split; [reflexivity|].
  apply list_elem_of_In. exact Hin.
Qed.

Lemma fold_insert_lookup (l : list (Z * Z)) (m : gmap Z Z) x :
  NoDup (map fst l) ->
  (forall p, (x, p) ∈ l ->
     fold_left (fun d cp => <[fst cp := snd cp]> d) l m !! x = Some p)
  /\ (x ∉ map fst l ->
     fold_left (fun d cp => <[fst cp := snd cp]> d) l m !! x = m !! x).
Proof.
  revert m. induction l as [|[k v] l IH]; intros m Hnd; simpl.
  - split; [intros p H; apply elem_of_nil in H; contradiction | reflexivity].
  - apply NoDup_cons in Hnd as [Hk Hnd].
    destruct (IH (<[k:=v]> m) Hnd) as [IH1 IH2]. split.
    + intros p Hin. apply elem_of_cons in Hin as [[= -> ->]|Hin]; [|auto].
      rewrite IH2 by exact Hk. apply lookup_insert_eq.
    + intros Hx. apply not_elem_of_cons in Hx as [Hxk Hx].
      rewrite IH2 by exact Hx. apply lookup_insert_ne. auto.
Qed.

Lemma parents_dict_lookup orders parents x p :
  NoDup orders -> length parents = length orders ->
  make_parents_dict orders parents !! x = Some p
  <-> exists i, orders !! i = Some x /\ parents !! i = Some p.
Proof.
  intros Hnd Hlen. unfold make_parents_dict.
  assert (Hfst : map fst (zip orders parents) = orders).
  { apply fst_zip. lia. }
  destruct (fold_insert_lookup (zip orders parents) ∅ x) as [H1 H2].
  { rewrite Hfst. exact Hnd. }
  assert (Hzip : forall q, (x, q) ∈ zip orders parents
                   <-> exists i, orders !! i = Some x /\ parents !! i = Some q).
  { intros q. rewrite elem_of_lookup_zip_with. split.
    - intros (i & a & b & [= <- <-] & Ha & Hb). eauto.
    - intros (i & Ha & Hb). exists i, x, q. auto. }
  split.
  - intros Hx. destruct (decide (x ∈ map fst (zip orders parents))) as [Hin|Hnin].
    + apply list_elem_of_fmap in Hin as ([a q] & -> & Hin). simpl in *.
      rewrite (H1 q Hin) in Hx. injection Hx as ->. apply Hzip. exact Hin.
    + rewrite (H2 Hnin), lookup_empty in Hx. discriminate.
  - intros H. apply H1, Hzip, H.
Qed.

Lemma root_nodes_spec (pd : gmap Z Z) (orders acc : list Z) :
  (forall x, x ∈ orders -> is_Some (pd !! x)) ->
  exists roots,
    foldM (fun l node =>
             let? p := dict_getitem_Z pd node in
             Ok (if (p =? -1)%Z then l ++ [node] else l))
          orders acc = Ok roots
    /\ forall x, x ∈ roots <-> x ∈ acc \/ (x ∈ orders /\ pd !! x = Some (-1)%Z).
Proof.
  revert acc. induction orders as [|y orders IH]; intros acc Hall; simpl.
  - exists acc. split; [reflexivity|]. intros x. rewrite elem_of_nil. tauto.
  - destruct (Hall y) as [p Hp]; [apply list_elem_of_here|].
    unfold dict_getitem_Z at 1. rewrite Hp. simpl.
    destruct (IH (if (p =? -1)%Z then acc ++ [y] else acc)) as (roots & Hf & Hr).
    { intros x Hx. apply Hall, list_elem_of_further, Hx. }
    exists roots. split; [exact Hf|]. intros x. rewrite Hr, elem_of_cons.
    destruct (Z.eqb_spec p (-1)) as [->|Hne].
    + rewrite elem_of_app, list_elem_of_singleton. split.
      * intros [[H| ->]|[H1 H2]]; auto.
      * intros [H|[[ -> |H1] H2]]; auto.
    + split.
      * intros [H|[H1 H2]]; auto.
      * intros [H|[[ -> |H1] H2]]; auto. congruence.
Qed.

Lemma end_nodes_spec (roots bif : list Z) x :
  x ∈ fold_left (fun end_nodes node =>
                   if inb node end_nodes then end_nodes else end_nodes ++ [node])
                roots bif
  <-> x ∈ bif \/ x ∈ roots.
Proof.
  revert bif. induction roots as [|y roots IH]; intros bif; simpl.
  - rewrite elem_of_nil. tauto.
  - rewrite IH, elem_of_cons. destruct (inb y bif) eqn:E.
    + apply inb_true in E. split; [tauto|]. intros [H|[ -> |H]]; auto.
    + rewrite elem_of_app, list_elem_of_singleton. tauto.
Qed.

Lemma chain_cons pd x y l :
  pd !! x = Some y -> chain pd (y :: l) -> chain pd (x :: y :: l).
Proof.
  intros Hxy Hc [|i] a b; simpl.
  - intros [= <-] [= <-]. exact Hxy.
  - apply (Hc i).
Qed.

(** The loop of [_get_path] extends the path along the parent links and
    stops at the first end node. *)
Lemma path_loop_spec fuel pd en cur path path' :
  path_loop fuel pd en cur path = Ok path' ->
  exists ext,
    path' = path ++ ext
    /\ chain pd (cur :: ext)
    /\ (exists z, last (cur :: ext) = Some z /\ z ∈ en)
    /\ forall i x, (cur :: ext) !! i = Some x -> i < length ext -> x ∉ en.
Proof.
  revert cur path. induction fuel as [|fuel IH]; intros cur path; simpl; [discriminate|].
  destruct (inb cur en) eqn:E.
  - intros [= <-]. exists []. rewrite app_nil_r. split; [reflexivity|].
    split; [intros [|i] a b; discriminate|]. split.
    + exists cur. split; [reflexivity | apply inb_true; exact E].
    + simpl. intros i x _ Hi. lia.
  - unfold dict_getitem_Z. destruct (pd !! cur) as [p|] eqn:Hp; simpl; [|discriminate].
    intros Hrec. destruct (IH _ _ Hrec) as (ext & -> & Hc & (z & Hz & Hzen) & Hint).
    exists (p :: ext). rewrite <- app_assoc. split; [reflexivity|].
    split; [apply chain_cons; assumption|]. split.
    + exists z. split; [exact Hz | exact Hzen].
    + intros [|i] x; simpl.
      * intros [= <-] _. apply inb_false. exact E.
      * intros Hx Hi. apply (Hint i x Hx). lia.
Qed.

(** ** Trees given by a traversal order and parent array *)

Section TreeSegments.
Variables orders parents : list Z.
Hypothesis T : tree orders parents.

Let pd : gmap Z Z := make_parents_dict orders parents.
Let bif : list Z := bifurcation_nodes_of parents pd.

Lemma pd_parent_of x p : pd !! x = Some p <-> parent_of orders parents x p.
Proof. apply parents_dict_lookup; [apply T | apply T]. Qed.

Lemma pd_at i x :
  orders !! i = Some x -> exists p, parents !! i = Some p /\ pd !! x = Some p.
Proof.
  intros Hx. destruct (lookup_lt_is_Some_2 parents i) as [p Hp].
  { rewrite (tree_length _ _ T). eapply lookup_lt_Some; eauto. }
  exists p. split; [exact Hp|]. apply pd_parent_of. exists i. auto.
Qed.

Lemma pd_some x : x ∈ orders -> is_Some (pd !! x).
Proof.
  intros Hx. apply list_elem_of_lookup in Hx as [i Hi].
  destruct (pd_at i x Hi) as (p & _ & Hp). eauto.
Qed.

Lemma position_unique i j x :
  orders !! i = Some x -> orders !! j = Some x -> i = j.
Proof. apply NoDup_lookup, T. Qed.

(** A parent that is a node sits strictly before its child. *)
Lemma parent_position i x p :
  orders !! i = Some x -> pd !! x = Some p -> p <> (-1)%Z ->
  exists j, j < i /\ orders !! j = Some p.
Proof.
  intros Hx Hp Hne. apply pd_parent_of in Hp as (i' & Hx' & Hp).
  rewrite (position_unique _ _ _ Hx Hx').
  destruct (tree_parent_before _ _ T i' p Hp) as [E|H]; [contradiction | exact H].
Qed.

Lemma in_parents_in_orders p : p ∈ parents -> p <> (-1)%Z -> p ∈ orders.
Proof.
  intros Hp Hne. apply list_elem_of_lookup in Hp as [i Hi].
  destruct (tree_parent_before _ _ T i p Hi) as [E|(j & _ & Hj)]; [contradiction|].
  eapply list_elem_of_lookup_2; eauto.
Qed.

Lemma minus_one_not_node : (-1)%Z ∉ orders.
Proof. intros H. apply (tree_nonneg _ _ T) in H. lia. Qed.

Lemma leaf_nodes_spec x : x ∈ leaf_nodes_of orders parents <-> is_leaf orders parents x.
Proof.
  unfold leaf_nodes_of, is_leaf. rewrite list_elem_of_In, List.filter_In.
  rewrite <- list_elem_of_In, negb_true_iff, inb_false. reflexivity.
Qed.

Lemma bif_spec x : x ∈ bif <-> is_bifurcation parents x.
Proof. apply bifurcation_spec. Qed.

Lemma bif_in_parents x : x ∈ bif -> x ∈ parents /\ x ∈ orders.
Proof.
  intros H. apply bif_spec in H as [H1 H2].
  assert (x ∈ parents) by (apply occurrences_pos; lia).
  split; [assumption | apply in_parents_in_orders; assumption].
Qed.

(** A node that is no bifurcation has at most one child. *)
Lemma only_child x z z' :
  x ∉ bif -> x <> (-1)%Z -> pd !! z = Some x -> pd !! z' = Some x -> z = z'.
Proof.
  intros Hb Hne Hz Hz'.
  apply pd_parent_of in Hz as (i & Hi & Hpi).
  apply pd_parent_of in Hz' as (j & Hj & Hpj).
  destruct (decide (i = j)) as [->|Hij]; [congruence|].
  exfalso. apply Hb, bif_spec. split; [|exact Hne].
  exact (occurrences_two x parents i j Hpi Hpj Hij).
Qed.

Section WithEnds.
Variable ends : list Z.
Hypothesis ends_spec : forall x, x ∈ ends <-> x ∈ bif \/ (x ∈ orders /\ pd !! x = Some (-1)%Z).

Lemma path_loop_total i x fuel path :
  orders !! i = Some x -> i < fuel ->
  exists path', path_loop fuel pd ends x path = Ok path'.
Proof.
  revert x fuel path. induction i as [i IH] using lt_wf_ind.
  intros x fuel path Hx Hfuel. destruct fuel as [|fuel]; [lia|]. simpl.
  destruct (inb x ends) eqn:E; [eauto|].
  destruct (pd_at i x Hx) as (p & _ & Hp).
  unfold dict_getitem_Z. rewrite Hp. simpl.
  destruct (decide (p = (-1)%Z)) as [->|Hne].
  - exfalso. apply inb_false in E. apply E, ends_spec. right. split; [|exact Hp].
    eapply list_elem_of_lookup_2; eauto.
  - destruct (parent_position i x p Hx Hp Hne) as (j & Hj & Hpj).
    apply (IH j Hj); [exact Hpj | lia].
Qed.

Lemma get_path_spec fuel start r :
  _get_path fuel pd start ends = Ok r ->
  match r with
  | None => pd !! start = Some (-1)%Z
  | Some seg => path_from orders parents ends start seg
  end.
Proof.
  unfold _get_path, dict_getitem_Z.
  destruct (pd !! start) as [p|] eqn:Hp; simpl; [|discriminate].
  destruct (Z.eqb_spec p (-1)) as [->|Hne].
  - intros [= <-]. reflexivity.
  - destruct (path_loop fuel pd ends p [start; p]) as [path|] eqn:E; simpl;
      [|discriminate].
    intros [= <-].
    destruct (path_loop_spec _ _ _ _ _ _ E) as (ext & -> & Hc & Hl & Hint).
    exists p, ext. repeat split; auto.
Qed.

Lemma get_path_total fuel start :
  start ∈ orders -> length orders <= fuel ->
  exists r, _get_path fuel pd start ends = Ok r.
Proof.
  intros Hs Hfuel. apply list_elem_of_lookup in Hs as [i Hi].
  destruct (pd_at i start Hi) as (p & _ & Hp).
  unfold _get_path, dict_getitem_Z. rewrite Hp. simpl.
  destruct (Z.eqb_spec p (-1)) as [->|Hne]; [eauto|].
  destruct (parent_position i start p Hi Hp Hne) as (j & Hj & Hpj).
  destruct (path_loop_total j p fuel [start; p] Hpj) as [path' E].
  { apply lookup_lt_Some in Hi. lia. }
  rewrite E. simpl. eauto.
Qed.
End WithEnds.
End TreeSegments.

Lemma collect_paths_spec gp starts acc segs :
  collect_paths gp starts acc = Ok segs ->
  forall seg, seg ∈ segs <-> seg ∈ acc \/ exists node, node ∈ starts /\ gp node = Ok (Some seg).
Proof.
  unfold collect_paths. revert acc.
  induction starts as [|a starts IH]; intros acc; simpl.
  - intros [= <-] seg. split; [auto|]. intros [H|(node & H & _)]; [exact H|].
    apply elem_of_nil in H. contradiction.
  - destruct (gp a) as [[path|]|] eqn:E; simpl; [| |discriminate].
    + intros H seg. rewrite (IH _ H seg), elem_of_app, list_elem_of_singleton. split.
      * intros [[Hs| ->]|(node & Hn & Hg)]; [auto| |].
        -- right. exists a. split; [apply list_elem_of_here | exact E].
        -- right. exists node. split; [apply list_elem_of_further, Hn | exact Hg].
      * intros [Hs|(node & Hn & Hg)]; [auto|].
        apply elem_of_cons in Hn as [->|Hn].
        -- rewrite E in Hg. injection Hg as ->. auto.
        -- right. exists node. auto.
    + intros H seg. rewrite (IH _ H seg). split.
      * intros [Hs|(node & Hn & Hg)]; [auto|].
        right. exists node. split; [apply list_elem_of_further, Hn | exact Hg].
      * intros [Hs|(node & Hn & Hg)]; [auto|].
        apply elem_of_cons in Hn as [->|Hn]; [congruence|].
        right. exists node. auto.
Qed.

Lemma collect_paths_total gp starts acc :
  (forall node, node ∈ starts -> exists r, gp node = Ok r) ->
  exists segs, collect_paths gp starts acc = Ok segs.
Proof.
  unfold collect_paths. revert acc.
  induction starts as [|a starts IH]; intros acc Hall; simpl; [eauto|].
  destruct (Hall a) as [r Hr]; [apply list_elem_of_here|]. rewrite Hr. simpl.
  destruct r; apply IH; intros node Hn; apply Hall, list_elem_of_further, Hn.
Qed.

Lemma collect_paths_NoDup gp starts acc segs :
  NoDup starts ->
  (forall node s, gp node = Ok (Some s) -> head s = Some node) ->
  NoDup acc ->
  (forall s node, s ∈ acc -> node ∈ starts -> head s <> Some node) ->
  collect_paths gp starts acc = Ok segs ->
  NoDup segs.
Proof.
  unfold collect_paths. intros Hnd Hhead. revert acc.
  induction Hnd as [|a starts Ha Hnd IH]; intros acc Hacc Hdis; simpl.
  - intros [= <-]. exact Hacc.
  - destruct (gp a) as [[path|]|] eqn:E; simpl; [| |discriminate].
    + apply IH.
      * apply NoDup_app. split; [exact Hacc|]. split; [|apply NoDup_singleton].
        intros s Hs Hin. apply list_elem_of_singleton in Hin. subst s.
        apply (Hdis path a Hs); [apply list_elem_of_here | apply Hhead, E].
      * intros s node Hs Hn. apply elem_of_app in Hs as [Hs|Hs].
        -- apply Hdis; [exact Hs | apply list_elem_of_further, Hn].
        -- apply list_elem_of_singleton in Hs. subst s.
           rewrite (Hhead a path E). intros [= ->]. contradiction.
    + apply IH; [exact Hacc|].
      intros s node Hs Hn. apply Hdis; [exact Hs | apply list_elem_of_further, Hn].
Qed.

Section TreePaths.
Variables orders parents : list Z.
Hypothesis T : tree orders parents.
Variable ends : list Z.

Let pd : gmap Z Z := make_parents_dict orders parents.
Let bif : list Z := bifurcation_nodes_of parents pd.
Let starts : list Z := leaf_nodes_of orders parents ++ bif.

Hypothesis ends_spec :
  forall x, x ∈ ends <-> x ∈ bif \/ (x ∈ orders /\ pd !! x = Some (-1)%Z).

Let path := path_from orders parents ends.

Lemma path_chain a s : path a s -> chain pd s.
Proof.
  intros (p & ext & -> & Hp & _ & Hc & _). apply chain_cons; assumption.
Qed.

Lemma path_head a s : path a s -> s !! 0 = Some a.
Proof. intros (p & ext & -> & _). reflexivity. Qed.

Lemma path_interior a s i x :
  path a s -> s !! i = Some x -> 0 < i -> S i < length s -> x ∉ ends.
Proof.
  intros (p & ext & -> & _ & _ & _ & _ & Hint) Hx Hi Hlen.
  destruct i as [|i]; [lia|]. simpl in Hx, Hlen. apply (Hint i x Hx). lia.
Qed.

Lemma path_last_end a s : path a s -> exists z, last s = Some z /\ z ∈ ends.
Proof.
  intros (p & ext & -> & _ & _ & _ & (z & Hz & Hzen) & _).
  exists z. split; [|exact Hzen]. exact Hz.
Qed.

Lemma path_length a s : path a s -> 2 <= length s.
Proof. intros (p & ext & -> & _). simpl. lia. Qed.

Lemma starts_in_orders a : a ∈ starts -> a ∈ orders.
Proof.
  unfold starts. rewrite elem_of_app. intros [H|H].
  - apply (leaf_nodes_spec orders parents) in H. apply H.
  - apply (bif_in_parents orders parents T) in H. apply H.
Qed.

(** Every node of a path is a node of the tree, and each step goes to
    an earlier position of the order. *)
Lemma path_nodes a s i x :
  path a s -> a ∈ orders -> s !! i = Some x -> x ∈ orders.
Proof.
  intros Hp Ha. revert x. induction i as [|i IH]; intros x Hx.
  - rewrite (path_head _ _ Hp) in Hx. injection Hx as <-. exact Ha.
  - destruct (lookup_lt_is_Some_2 s i) as [z Hz].
    { apply lookup_lt_Some in Hx. lia. }
    specialize (IH z Hz).
    pose proof (path_chain _ _ Hp i z x Hz Hx) as Hzx.
    apply (in_parents_in_orders orders parents T).
    + apply (pd_parent_of orders parents T) in Hzx as (j & _ & Hj).
      eapply list_elem_of_lookup_2; eauto.
    + intros ->. destruct i as [|i].
      * destruct Hp as (p & ext & -> & Hp' & Hne & _). simpl in Hz, Hx.
        injection Hx as Hx. congruence.
      * apply (path_interior _ _ (S i) z Hp Hz); [lia| |].
        -- apply lookup_lt_Some in Hx. lia.
        -- apply ends_spec. right. split; [exact IH | exact Hzx].
Qed.

Lemma step_earlier x y :
  x ∈ orders -> y ∈ orders -> pd !! x = Some y ->
  exists i j, orders !! i = Some x /\ orders !! j = Some y /\ j < i.
Proof.
  intros Hx Hy Hxy. apply list_elem_of_lookup in Hx as [i Hi].
  destruct (parent_position orders parents T i x y Hi Hxy) as (j & Hj & Hyj).
  { intros ->. apply (minus_one_not_node orders parents T). exact Hy. }
  eauto.
Qed.

Lemma no_two_cycle x y :
  x ∈ orders -> y ∈ orders -> pd !! x = Some y -> pd !! y = Some x -> False.
Proof.
  intros Hx Hy Hxy Hyx.
  destruct (step_earlier x y Hx Hy Hxy) as (i & j & Hi & Hj & Hlt).
  destruct (step_earlier y x Hy Hx Hyx) as (j' & i' & Hj' & Hi' & Hlt').
  rewrite (position_unique orders parents T _ _ _ Hi Hi') in Hlt.
  rewrite (position_unique orders parents T _ _ _ Hj Hj') in Hlt. lia.
Qed.

Variable gp : Z -> result (option (list Z)).
Hypothesis gp_path : forall a s, gp a = Ok (Some s) -> path a s.

(** A node occurs at most once as a non-final node of the paths. *)
Lemma non_final_once i :
  forall i' a a' s s' x,
    a ∈ starts -> a' ∈ starts ->
    gp a = Ok (Some s) -> gp a' = Ok (Some s') ->
    s !! i = Some x -> S i < length s ->
    s' !! i' = Some x -> S i' < length s' ->
    s = s' /\ i = i'.
Proof.
  assert (Hstart : forall a a' s s' k x z,
            a ∈ starts -> a' ∈ starts -> path a s -> path a' s' ->
            s !! 0 = Some x -> s' !! S k = Some x -> s' !! k = Some z ->
            S (S k) < length s' -> False).
  { intros a a' s s' k x z Ha Ha' Hp Hp' H0 Hk Hz Hlen.
    rewrite (path_head _ _ Hp) in H0. injection H0 as <-.
    assert (Hne : a ∉ ends).
    { apply (path_interior a' s' (S k) a Hp' Hk); lia. }
    pose proof (path_chain _ _ Hp' k z a Hz Hk) as Hza.
    unfold starts in Ha. apply elem_of_app in Ha as [Hl|Hb].
    - apply (leaf_nodes_spec orders parents) in Hl as [_ Hl]. apply Hl.
      apply (pd_parent_of orders parents T) in Hza as (j & _ & Hj).
      eapply list_elem_of_lookup_2; eauto.
    - apply Hne, ends_spec. left. exact Hb. }
  induction i as [|i IH]; intros i' a a' s s' x Ha Ha' Hg Hg' Hx Hlen Hx' Hlen'.
  - destruct i' as [|i'].
    + rewrite (path_head _ _ (gp_path _ _ Hg)) in Hx.
      rewrite (path_head _ _ (gp_path _ _ Hg')) in Hx'.
      assert (a = a') by congruence. subst a'. split; [congruence | reflexivity].
    + exfalso. destruct (lookup_lt_is_Some_2 s' i') as [z Hz]; [lia|].
      eapply (Hstart a a' s s' i' x z); eauto.
  - destruct i' as [|i'].
    + exfalso. destruct (lookup_lt_is_Some_2 s i) as [z Hz]; [lia|].
      eapply (Hstart a' a s' s i x z); eauto.
    + destruct (lookup_lt_is_Some_2 s i) as [z Hz]; [lia|].
      destruct (lookup_lt_is_Some_2 s' i') as [z' Hz']; [lia|].
      pose proof (path_chain _ _ (gp_path _ _ Hg) i z x Hz Hx) as Hzx.
      pose proof (path_chain _ _ (gp_path _ _ Hg') i' z' x Hz' Hx') as Hzx'.
      assert (Hxo : x ∈ orders).
      { eapply (path_nodes a s); eauto. apply starts_in_orders, Ha. }
      assert (Hnb : x ∉ bif).
      { intros Hb. apply (path_interior a s (S i) x (gp_path _ _ Hg) Hx); [lia|lia|].
        apply ends_spec. left. exact Hb. }
      assert (Hneq : x <> (-1)%Z).
      { intros ->. apply (minus_one_not_node orders parents T). exact Hxo. }
      pose proof (only_child orders parents T x z z' Hnb Hneq Hzx Hzx') as <-.
      destruct (IH i' a a' s s' z Ha Ha' Hg Hg' Hz) as [-> ->]; [lia|exact Hz'|lia|].
      split; reflexivity.
Qed.
End TreePaths.

(** ** The segments of a tree *)

Lemma NoDup_edges (l : list Z) i i' r c rc' :
  NoDup l ->
  edges_of l !! i = Some (r, c) -> edges_of l !! i' = Some rc' ->
  r <> c /\ (touches rc' r c -> i = i').
Proof.
  intros Hnd Hi Hi'. destruct rc' as [r' c'].
  apply edges_of_lookup in Hi as [H1 H2]. apply edges_of_lookup in Hi' as [H1' H2'].
  split.
  - intros ->. pose proof (NoDup_lookup _ _ _ _ Hnd H1 H2). lia.
  - intros [[= -> ->]|[= -> ->]].
    + exact (eq_sym (NoDup_lookup _ _ _ _ Hnd H1' H1)).
    + pose proof (NoDup_lookup _ _ _ _ Hnd H1' H2).
      pose proof (NoDup_lookup _ _ _ _ Hnd H2' H1). lia.
Qed.

Section TreeResult.
Variables orders parents : list Z.
Hypothesis T : tree orders parents.

Let pd : gmap Z Z := make_parents_dict orders parents.
Let bif : list Z := bifurcation_nodes_of parents pd.
Let starts : list Z := leaf_nodes_of orders parents ++ bif.

Lemma starts_NoDup : NoDup starts.
Proof.
  unfold starts. apply NoDup_app. split; [|split].
  - unfold leaf_nodes_of. apply NoDup_ListNoDup, List.NoDup_filter, NoDup_ListNoDup, T.
  - intros x Hl Hb. apply (leaf_nodes_spec orders parents) in Hl as [_ Hl].
    apply Hl. apply (bif_in_parents orders parents T) in Hb. apply Hb.
  - apply bifurcation_NoDup.
Qed.

(** The function in the case of several leaves (or none). *)
Lemma get_all_segments_unfold fuel :
  length (leaf_nodes_of orders parents) <> 1 ->
  exists ends,
    ends_ok orders parents ends
    /\ _get_all_segments fuel orders parents
       = collect_paths (fun node => _get_path fuel pd node ends) starts [].
Proof.
  intros Hl. unfold _get_all_segments.
  fold (leaf_nodes_of orders parents). rewrite (proj2 (Nat.eqb_neq _ _) Hl).
  fold pd. fold (bifurcation_nodes_of parents pd). fold bif.
  destruct (root_nodes_spec pd orders []) as (roots & Hf & Hr).
  { apply (pd_some orders parents T). }
  rewrite Hf. cbn [rbind].
  eexists. split; [|reflexivity].
  intros x. rewrite end_nodes_spec, Hr, elem_of_nil. tauto.
Qed.

Lemma get_all_segments_total fuel :
  length orders <= fuel -> exists segs, _get_all_segments fuel orders parents = Ok segs.
Proof.
  intros Hfuel.
  destruct (decide (length (leaf_nodes_of orders parents) = 1)) as [E|Hl].
  - unfold _get_all_segments. fold (leaf_nodes_of orders parents).
    rewrite E. simpl. eauto.
  - destruct (get_all_segments_unfold fuel Hl) as (ends & He & ->).
    apply collect_paths_total. intros node Hn.
    apply (get_path_total orders parents T ends He); [|exact Hfuel].
    apply (starts_in_orders orders parents T). exact Hn.
Qed.

Lemma get_all_segments_paths fuel segs :
  length (leaf_nodes_of orders parents) <> 1 ->
  _get_all_segments fuel orders parents = Ok segs ->
  exists ends,
    ends_ok orders parents ends
    /\ NoDup segs
    /\ forall seg, seg ∈ segs <->
         exists a, a ∈ starts /\ _get_path fuel pd a ends = Ok (Some seg).
Proof.
  intros Hl Hrun.
  destruct (get_all_segments_unfold fuel Hl) as (ends & He & E).
  rewrite E in Hrun. exists ends. split; [exact He|]. split.
  - eapply collect_paths_NoDup; [apply starts_NoDup| |apply NoDup_nil_2| |exact Hrun].
    + intros node s Hg. apply (get_path_spec orders parents ends) in Hg.
      destruct Hg as (p & ext & -> & _). reflexivity.
    + intros s node Hs. apply elem_of_nil in Hs. contradiction.
  - intros seg. rewrite (collect_paths_spec _ _ _ _ Hrun seg), elem_of_nil. tauto.
Qed.

Lemma get_all_segments_separated fuel segs :
  _get_all_segments fuel orders parents = Ok segs -> well_separated segs.
Proof.
  intros Hrun.
  destruct (decide (length (leaf_nodes_of orders parents) = 1)) as [E|Hl].
  - (* one leaf: the only segment is the order itself *)
    unfold _get_all_segments in Hrun. fold (leaf_nodes_of orders parents) in Hrun.
    rewrite E in Hrun. simpl in Hrun. injection Hrun as <-.
    split; [apply NoDup_singleton|]. split; [|split].
    + intros s x Hs Hx. apply list_elem_of_singleton in Hs. subst s.
      apply (tree_nonneg _ _ T), Hx.
    + intros s i r c Hs Hi. apply list_elem_of_singleton in Hs. subst s.
      apply (NoDup_edges orders i i r c (r, c) (tree_nodup _ _ T) Hi Hi).
    + intros s s' i i' r c rc' Hs Hs' Hi Hi' Ht.
      apply list_elem_of_singleton in Hs, Hs'. subst s s'. split; [reflexivity|].
      apply (NoDup_edges orders i i' r c rc' (tree_nodup _ _ T) Hi Hi'), Ht.
  - destruct (get_all_segments_paths fuel segs Hl Hrun) as (ends & He & Hnd & Hsegs).
    set (gp := fun a => _get_path fuel pd a ends).
    assert (Hgp : forall a s, gp a = Ok (Some s) -> path_from orders parents ends a s).
    { intros a s Hg. apply (get_path_spec orders parents ends) in Hg. exact Hg. }
    assert (Hin : forall s x, s ∈ segs -> x ∈ s -> x ∈ orders).
    { intros s x Hs Hx. apply Hsegs in Hs as (a & Ha & Hg).
      apply list_elem_of_lookup in Hx as [i Hi].
      apply (path_nodes orders parents T ends He a s i x (Hgp _ _ Hg)); [|exact Hi].
      apply (starts_in_orders orders parents T), Ha. }
    assert (Hstep : forall s i r c, s ∈ segs -> edges_of s !! i = Some (r, c) ->
              r ∈ orders /\ c ∈ orders /\ pd !! r = Some c
              /\ s !! i = Some r /\ S i < length s).
    { intros s i r c Hs Hi. apply edges_of_lookup in Hi as [H1 H2].
      split; [eapply Hin; eauto; eapply list_elem_of_lookup_2; eauto|].
      split; [eapply Hin; eauto; eapply list_elem_of_lookup_2; eauto|].
      split; [|split; [exact H1 | apply lookup_lt_Some in H2; lia]].
      apply Hsegs in Hs as (a & Ha & Hg).
      apply (path_chain orders parents ends a s (Hgp _ _ Hg) i r c H1 H2). }
    split; [exact Hnd|]. split; [|split].
    + intros s x Hs Hx. apply (tree_nonneg _ _ T). eapply Hin; eauto.
    + intros s i r c Hs Hi ->.
      destruct (Hstep s i c c Hs Hi) as (Hc & _ & Hcc & _).
      apply (no_two_cycle orders parents T c c Hc Hc Hcc Hcc).
    + intros s s' i i' r c [r' c'] Hs Hs' Hi Hi' Ht.
      destruct (Hstep s i r c Hs Hi) as (Hr & Hc & Hrc & Hsi & Hlen).
      destruct (Hstep s' i' r' c' Hs' Hi') as (Hr' & Hc' & Hrc' & Hsi' & Hlen').
      destruct Ht as [[= -> ->]|[= -> ->]].
      * apply Hsegs in Hs as (a & Ha & Hg). apply Hsegs in Hs' as (a' & Ha' & Hg').
        apply (non_final_once orders parents T ends He gp Hgp i i' a a' s s' r);
          assumption.
      * exfalso. apply (no_two_cycle orders parents T r c Hr Hc Hrc Hrc').
Qed.
End TreeResult.

Lemma collect_paths_all_ok gp starts acc segs :
  collect_paths gp starts acc = Ok segs ->
  forall a, a ∈ starts -> exists r, gp a = Ok r.
Proof.
  unfold collect_paths. revert acc.
  induction starts as [|b starts IH]; intros acc H a Ha; simpl in H.
  - apply elem_of_nil in Ha. contradiction.
  - destruct (gp b) as [r|] eqn:E; simpl in H; [|discriminate].
    apply elem_of_cons in Ha as [->|Ha]; [eauto|].
    destruct r; eapply IH; eauto.
Qed.

Section TreeCover.
Variables orders parents : list Z.
Hypothesis T : tree orders parents.

Let pd : gmap Z Z := make_parents_dict orders parents.
Let bif : list Z := bifurcation_nodes_of parents pd.
Let starts : list Z := leaf_nodes_of orders parents ++ bif.

(** The last node of the order is a leaf. *)
Lemma last_is_leaf x :
  orders !! (length orders - 1) = Some x -> x ∈ leaf_nodes_of orders parents.
Proof.
  intros Hx. apply (leaf_nodes_spec orders parents). split.
  - eapply list_elem_of_lookup_2; eauto.
  - intros Hp. apply list_elem_of_lookup in Hp as [j Hj].
    pose proof (lookup_lt_Some _ _ _ Hj) as Hlt. rewrite (tree_length _ _ T) in Hlt.
    destruct (tree_parent_before _ _ T j x Hj) as [->|(j' & Hj' & Hx')].
    + apply (minus_one_not_node orders parents T).
      eapply list_elem_of_lookup_2; eauto.
    + pose proof (position_unique orders parents T _ _ _ Hx Hx'). lia.
Qed.

(** With a single leaf the tree is a chain and the order walks down it. *)
Lemma single_leaf_chain :
  length (leaf_nodes_of orders parents) = 1 ->
  forall i x, orders !! i = Some x -> S i < length orders -> parents !! S i = Some x.
Proof.
  intros Hone.
  assert (Hchild : forall i x, orders !! i = Some x -> S i < length orders ->
            exists j, i < j /\ parents !! j = Some x).
  { intros i x Hx Hi.
    destruct (decide (x ∈ parents)) as [Hp|Hp].
    - apply list_elem_of_lookup in Hp as [j Hj]. exists j. split; [|exact Hj].
      destruct (tree_parent_before _ _ T j x Hj) as [->|(j' & Hj' & Hx')].
      + exfalso. apply (minus_one_not_node orders parents T).
        eapply list_elem_of_lookup_2; eauto.
      + rewrite (position_unique orders parents T _ _ _ Hx Hx'). exact Hj'.
    - exfalso.
      destruct (lookup_lt_is_Some_2 orders (length orders - 1)) as [y Hy]; [lia|].
      pose proof (last_is_leaf y Hy) as Hyl.
      assert (Hxl : x ∈ leaf_nodes_of orders parents).
      { apply (leaf_nodes_spec orders parents). split; [|exact Hp].
        eapply list_elem_of_lookup_2; eauto. }
      destruct (leaf_nodes_of orders parents) as [|l [|l' ls]]; simpl in Hone; try lia.
      apply list_elem_of_singleton in Hyl, Hxl. subst.
      pose proof (position_unique orders parents T _ _ _ Hx Hy). lia. }
  assert (H : forall d i x, length orders - i <= d ->
            orders !! i = Some x -> S i < length orders -> parents !! S i = Some x).
  { induction d as [|d IH]; intros i x Hd Hx Hi; [lia|].
    destruct (Hchild i x Hx Hi) as (j & Hij & Hj).
    destruct (decide (j = S i)) as [->|Hne]; [exact Hj|].
    exfalso. destruct j as [|j0]; [lia|].
    pose proof (lookup_lt_Some _ _ _ Hj) as Hlt. rewrite (tree_length _ _ T) in Hlt.
    destruct (lookup_lt_is_Some_2 orders j0) as [z Hz]; [lia|].
    pose proof (IH j0 z ltac:(lia) Hz Hlt) as Hz'.
    rewrite Hz' in Hj. injection Hj as ->.
    pose proof (position_unique orders parents T _ _ _ Hx Hz). lia. }
  intros i x. apply (H (length orders)). lia.
Qed.

(** Every parent-child edge lies on a segment. *)
Lemma get_all_segments_cover fuel segs :
  _get_all_segments fuel orders parents = Ok segs ->
  forall c p, parent_of orders parents c p -> p <> (-1)%Z ->
    exists seg, seg ∈ segs /\ (adjacent c p seg \/ adjacent p c seg).
Proof.
  intros Hrun.
  destruct (decide (length (leaf_nodes_of orders parents) = 1)) as [E|Hl].
  - unfold _get_all_segments in Hrun. fold (leaf_nodes_of orders parents) in Hrun.
    rewrite E in Hrun. simpl in Hrun. injection Hrun as <-.
    intros c p (i & Hc & Hp) Hne. exists orders.
    split; [apply list_elem_of_here|]. right.
    destruct i as [|k].
    + destruct (tree_parent_before _ _ T 0 p Hp) as [?|(j & Hj & _)]; [contradiction|lia].
    + destruct (lookup_lt_is_Some_2 orders k) as [z Hz].
      { apply lookup_lt_Some in Hc. lia. }
      rewrite (single_leaf_chain E k z Hz) in Hp.
      * injection Hp as <-. exists k. auto.
      * apply lookup_lt_Some in Hc. exact Hc.
  - destruct (get_all_segments_paths orders parents T fuel segs Hl Hrun)
      as (ends & He & _ & Hsegs).
    destruct (get_all_segments_unfold orders parents T fuel Hl) as (ends' & He' & E').
    rewrite E' in Hrun.
    assert (Hends : forall x, x ∈ ends <-> x ∈ ends').
    { intros x. rewrite (He x), (He' x). reflexivity. }
    pose proof (collect_paths_all_ok _ _ _ _ Hrun) as Hok.
    assert (Hsegs' : forall seg, seg ∈ segs <->
              exists a, a ∈ starts /\ _get_path fuel pd a ends' = Ok (Some seg)).
    { intros seg. rewrite (collect_paths_spec _ _ _ _ Hrun seg), elem_of_nil. tauto. }
    assert (H : forall d i c p, length orders - i <= d ->
              orders !! i = Some c -> parents !! i = Some p -> p <> (-1)%Z ->
              exists seg, seg ∈ segs /\ adjacent c p seg).
    { induction d as [|d IH]; intros i c p Hd Hc Hp Hne.
      { apply lookup_lt_Some in Hc. lia. }
      assert (Hpd : pd !! c = Some p).
      { apply (pd_parent_of orders parents T). exists i. auto. }
      destruct (decide (c ∈ starts)) as [Hs|Hs].
      - destruct (Hok c Hs) as [r Hr]. pose proof Hr as Hr'.
        apply (get_path_spec orders parents ends') in Hr'.
        destruct r as [s|]; [|fold pd in Hr'; congruence].
        exists s. split; [apply Hsegs'; eauto|].
        destruct Hr' as (p' & ext & -> & Hp' & _). fold pd in Hp'.
        assert (p' = p) by congruence. subst p'. exists 0. auto.
      - assert (Hcp : c ∈ parents).
        { destruct (decide (c ∈ parents)) as [?|Hn]; [assumption|].
          exfalso. apply Hs. unfold starts. apply elem_of_app. left.
          apply (leaf_nodes_spec orders parents). split; [|exact Hn].
          eapply list_elem_of_lookup_2; eauto. }
        apply list_elem_of_lookup in Hcp as [j Hj].
        pose proof (lookup_lt_Some _ _ _ Hj) as Hlt.
        rewrite (tree_length _ _ T) in Hlt.
        destruct (lookup_lt_is_Some_2 orders j) as [z Hz]; [exact Hlt|].
        assert (Hcne : c <> (-1)%Z).
        { intros ->. apply (minus_one_not_node orders parents T).
          eapply list_elem_of_lookup_2; eauto. }
        assert (Hij : i < j).
        { destruct (tree_parent_before _ _ T j c Hj) as [?|(j' & Hj' & Hc')];
            [contradiction|].
          rewrite (position_unique orders parents T _ _ _ Hc Hc'). exact Hj'. }
        destruct (IH j z c ltac:(lia) Hz Hj Hcne) as (seg & Hseg & k & Hk & Hk').
        exists seg. split; [exact Hseg|].
        apply Hsegs' in Hseg as (a & Ha & Hg).
        apply (get_path_spec orders parents ends') in Hg.
        assert (Hnend : c ∉ ends').
        { intros Hin. apply He' in Hin as [Hb|[_ Hroot]].
          - apply Hs. unfold starts. apply elem_of_app. right. exact Hb.
          - fold pd in Hroot. congruence. }
        destruct (path_last_end orders parents ends' a seg Hg) as (zl & Hzl & Hzin).
        rewrite last_lookup in Hzl.
        assert (Hlen : S (S k) < length seg).
        { pose proof (lookup_lt_Some _ _ _ Hk') as Hlt'.
          destruct (decide (S (S k) = length seg)) as [El|]; [|lia].
          exfalso. apply Hnend.
          replace (pred (length seg)) with (S k) in Hzl by lia.
          rewrite Hk' in Hzl. injection Hzl as <-. exact Hzin. }
        destruct (lookup_lt_is_Some_2 seg (S (S k))) as [y Hy]; [exact Hlen|].
        pose proof (path_chain orders parents ends' a seg Hg (S k) c y Hk' Hy) as Hcy.
        fold pd in Hcy. assert (y = p) by congruence. subst y.
        exists (S k). auto. }
    intros c p (i & Hc & Hp) Hne.
    destruct (H (length orders) i c p ltac:(lia) Hc Hp Hne) as (seg & Hseg & Hadj).
    exists seg. auto.
Qed.
End TreeCover.

(** ** The entries of the directed tree *)

Lemma oriented_entries C V segs D seg i r c :
  well_separated segs ->
  seg ∈ segs -> edges_of seg !! i = Some (r, c) ->
  foldM (orient_segment_array C V) segs V = Ok D ->
  exists p p' x y,
    segment_scores C seg = Ok (p, p')
    /\ getitem V r c = Ok x /\ getitem V c r = Ok y
    /\ getitem D r c = Ok (fst (written (branch_of p p') x y))
    /\ getitem D c r = Ok (snd (written (branch_of p p') x y)).
Proof.
  intros (Hnd & Hnn & Hne & Hiso) Hseg Hi Hrun.
  destruct (list_elem_of_split _ _ Hseg) as (s1 & s2 & ->).
  pose proof (take_drop_middle _ _ _ Hi) as He.
  apply (segments_at C V s1 seg s2 (take i (edges_of seg)) r c
           (drop (S i) (edges_of seg)) V D).
  - symmetry. exact He.
  - intros s Hs. apply edges_of_nonneg. intros x Hx.
    apply (Hnn s x); apply list_elem_of_In; assumption.
  - apply (Hne seg i r c Hseg Hi).
  - intros rc Hrc Ht. apply list_elem_of_In, list_elem_of_lookup in Hrc as [j Hj].
    rewrite lookup_drop in Hj.
    destruct (Hiso seg seg i (S i + j) r c rc Hseg Hseg Hi Hj Ht) as [_ E]. lia.
  - intros s rc Hs Hrc Ht. apply list_elem_of_In in Hs.
    apply list_elem_of_In, list_elem_of_lookup in Hrc as [j Hj].
    assert (Hs' : s ∈ s1 ++ seg :: s2).
    { apply elem_of_app. right. apply list_elem_of_further. exact Hs. }
    destruct (Hiso seg s i j r c rc Hseg Hs' Hi Hj Ht) as [<- _].
    apply NoDup_app in Hnd as (_ & _ & Hnd). apply NoDup_cons in Hnd as [Hnin _].
    contradiction.
  - exact Hrun.
Qed.

Lemma fold_scores_ok C V segs D0 D :
  foldM (orient_segment_array C V) segs D0 = Ok D ->
  forall seg, seg ∈ segs -> exists p p', segment_scores C seg = Ok (p, p').
Proof.
  revert D0. induction segs as [|s segs IH]; intros D0 H seg Hseg.
  - apply elem_of_nil in Hseg. contradiction.
  - simpl in H. rewrite orient_segment_array_branch in H.
    destruct (segment_scores C s) as [[p p']|] eqn:E; simpl in H; [|discriminate].
    destruct (foldM _ (_get_edges s None) D0) as [D1|]; simpl in H; [|discriminate].
    apply elem_of_cons in Hseg as [->|Hseg]; [eauto|].
    apply (IH D1 H seg Hseg).
Qed.

Lemma construct_velocity_tree_entries fuel key w t Rm co cp lV V parents l w' :
  reads key w t Rm co cp lV V ->
  tree_read co cp parents ->
  construct_velocity_tree fuel key w = (Ok l, w') ->
  exists D segs C,
    store w' !! l = Some (OArray2 D)
    /\ _get_all_segments fuel (argsort co) parents = Ok segs
    /\ _compute_center_transition_matrix t Rm = Ok C
    /\ forall seg, seg ∈ segs ->
         exists p p',
           segment_scores C seg = Ok (p, p')
           /\ finite p /\ finite p'
           /\ forall i r c, edges_of seg !! i = Some (r, c) ->
                exists x y,
                  getitem V r c = Ok x /\ getitem V c r = Ok y
                  /\ getitem D r c = Ok (fst (written (branch_of p p') x y))
                  /\ getitem D c r = Ok (snd (written (branch_of p p') x y)).
Proof.
  intros Hreads [Hpar Htree] Hrun.
  pose proof (construct_velocity_tree_run _ _ _ _ _ _ _ _ _ _ _ Hreads Hrun) as H.
  unfold directed_tree in H. rewrite Hpar in H. cbn [rbind] in H.
  destruct (_get_all_segments fuel (argsort co) parents) as [segs|] eqn:Hsegs;
    cbn [rbind] in H; [|discriminate].
  destruct (_compute_center_transition_matrix t Rm) as [C|] eqn:HC;
    cbn [rbind] in H; [|discriminate].
  destruct (foldM (orient_segment_array C V) segs V) as [D|] eqn:HD; [|discriminate].
  destruct H as [[= ->] ->].
  exists D, segs, C. split; [apply lookup_insert_eq|].
  split; [reflexivity|]. split; [reflexivity|].
  intros seg Hseg.
  pose proof (get_all_segments_separated _ _ Htree fuel segs Hsegs) as Hsep.
  destruct (fold_scores_ok C V segs V D HD seg Hseg) as (p & p' & Hs).
  destruct (segment_scores_finite _ _ _ _ Hs) as [Hp Hp'].
  exists p, p'. split; [exact Hs|]. split; [exact Hp|]. split; [exact Hp'|].
  intros i r c Hi.
  destruct (oriented_entries C V segs D seg i r c Hsep Hseg Hi HD)
    as (q & q' & x & y & Hs' & Hx & Hy & H1 & H2).
  rewrite Hs in Hs'. injection Hs' as <- <-.
  exists x, y. repeat split; assumption.
Qed.

Lemma py_max_finite a b : py_max (Fin a) (Fin b) = Fin (Rmax a b).
Proof.
  unfold py_max, fgtb. simpl. unfold Rltb, Rmax.
  destruct (Rlt_dec a b) as [H|H]; destruct (Rle_dec a b) as [H'|H']; try reflexivity.
  - lra.
  - f_equal. lra.
Qed.

Lemma fgtb_finite_irrefl p : finite p -> fgtb p p = false.
Proof. intros [x ->]. unfold fgtb. simpl. apply Rltb_false. lra. Qed.

Lemma fltb_finite_asym p p' : finite p -> finite p' -> fltb p p' = true -> fgtb p p' = false.
Proof.
  intros [x ->] [y ->]. unfold fgtb. simpl. unfold Rltb.
  destruct (Rlt_dec x y); [|discriminate]. intros _.
  destruct (Rlt_dec y x); [lra | reflexivity].
Qed.

Lemma branch_of_equal p : finite p -> branch_of p p = Keep.
Proof.
  intros Hp. unfold branch_of. rewrite (fgtb_finite_irrefl p Hp).
  change (fltb p p) with (fgtb p p). rewrite (fgtb_finite_irrefl p Hp). reflexivity.
Qed.

Lemma branch_of_greater p p' : fgtb p p' = true -> branch_of p p' = Forward.
Proof. intros H. unfold branch_of. rewrite H. reflexivity. Qed.

Lemma branch_of_less p p' :
  finite p -> finite p' -> fltb p p' = true -> branch_of p p' = Backward.
Proof.
  intros Hp Hp' H. unfold branch_of.
  rewrite (fltb_finite_asym p p' Hp Hp' H), H. reflexivity.
Qed.

(** ** Example inputs *)

Lemma reads_world_with o t :
  store (world_with o) !! 1%positive = Some o ->
  matrix_at (world_with o) 1%positive t ->
  reads "pearson" (world_with o) t R_two [0; 1]%Z [-1; 0]%Z 5%positive V_two.
Proof.
  intros _ Ht.
  exists 1%positive, 6%positive, cell_order_two, 2%positive, 3%positive, 4%positive.
  repeat split; try reflexivity. exact Ht.
Qed.

Lemma reads_two :
  reads "pearson" world_two (Dense T_two) R_two [0; 1]%Z [-1; 0]%Z 5%positive V_two.
Proof. apply reads_world_with; reflexivity. Qed.

Lemma reads_tie :
  reads "pearson" world_tie (Dense T_zero) R_two [0; 1]%Z [-1; 0]%Z 5%positive V_two.
Proof. apply reads_world_with; reflexivity. Qed.

Lemma reads_sparse :
  reads "pearson" world_sparse (Sparse csr_two) R_two [0; 1]%Z [-1; 0]%Z 5%positive V_two.
Proof. apply reads_world_with; reflexivity. Qed.

Lemma tree_chain_two : tree [0; 1]%Z [-1; 0]%Z.
Proof.
  split.
  - apply NoDup_cons. split; [|apply NoDup_singleton].
    intros H. apply list_elem_of_singleton in H. discriminate.
  - reflexivity.
  - intros x Hx. apply elem_of_cons in Hx as [->|Hx]; [lia|].
    apply list_elem_of_singleton in Hx. subst. lia.
  - intros [|[|i]] p; simpl; intros [= <-];
      [left; reflexivity | right; exists 0; split; [lia | reflexivity]].
Qed.

Lemma tree_read_two : tree_read [0; 1]%Z [-1; 0]%Z [-1; 0]%Z.
Proof. split; [reflexivity | exact tree_chain_two]. Qed.

Lemma assigned_two_0 : assigned_center R_two 0 = 0.
Proof. unfold assigned_center, argmax. cbn. Rdecide. reflexivity. Qed.

Lemma assigned_two_1 : assigned_center R_two 1 = 1.
Proof. unfold assigned_center, argmax. cbn. Rdecide. reflexivity. Qed.

Lemma cells_two a : a < 2 -> cells_of R_two a = [a].
Proof.
  intros Ha. unfold cells_of. cbn [R_two of_rows nrows length seq List.filter].
  rewrite assigned_two_0, assigned_two_1.
  destruct a as [|[|a]]; [reflexivity | reflexivity | lia].
Qed.

Lemma unnormalized_two_01 : unnormalized T_two R_two 0 1 = Fin 1.
Proof. unfold unnormalized. rewrite !cells_two by lia. cbn. f_equal. lra. Qed.

Lemma unnormalized_two_10 : unnormalized T_two R_two 1 0 = Fin 0.
Proof. unfold unnormalized. rewrite !cells_two by lia. cbn. f_equal. lra. Qed.

Lemma unnormalized_zero a b : a < 2 -> b < 2 -> unnormalized T_zero R_two a b = Fin 0.
Proof.
  intros Ha Hb. unfold unnormalized. rewrite !cells_two by lia.
  destruct a as [|[|a]], b as [|[|b]]; try lia; cbn; f_equal; lra.
Qed.

Lemma center_two :
  exists C, _compute_center_transition_matrix (Dense T_two) R_two = Ok C
    /\ nrows C = 2 /\ ncols C = 2
    /\ data C 0 1 = Fin 1 /\ data C 1 0 = Fin 0.
Proof.
  destruct (center_matrix_closed_form (Dense T_two) R_two)
    as (C & HC & Hr & Hc & Hd); [simpl; lia ..|].
  exists C. split; [exact HC|]. split; [exact Hr|]. split; [exact Hc|].
  cbn [dense_of R_two of_rows ncols length] in Hd. split.
  - rewrite (Hd 0 1) by lia. cbn [Nat.eqb]. unfold row_total.
    cbn [R_two of_rows ncols length off_diagonal seq List.filter Nat.eqb negb map].
    rewrite unnormalized_two_01. unfold clean. cbn. Rdecide. cbn. f_equal. field.
  - rewrite (Hd 1 0) by lia. cbn [Nat.eqb]. rewrite unnormalized_two_10.
    apply clean_div_zero.
Qed.

Lemma center_zero :
  exists C, _compute_center_transition_matrix (Dense T_zero) R_two = Ok C
    /\ nrows C = 2 /\ ncols C = 2
    /\ data C 0 1 = Fin 0 /\ data C 1 0 = Fin 0.
Proof.
  destruct (center_matrix_closed_form (Dense T_zero) R_two)
    as (C & HC & Hr & Hc & Hd); [simpl; lia ..|].
  exists C. split; [exact HC|]. split; [exact Hr|]. split; [exact Hc|].
  cbn [dense_of R_two of_rows ncols length] in Hd. split.
  - rewrite (Hd 0 1) by lia. cbn [Nat.eqb]. rewrite unnormalized_zero by lia.
    apply clean_div_zero.
  - rewrite (Hd 1 0) by lia. cbn [Nat.eqb]. rewrite unnormalized_zero by lia.
    apply clean_div_zero.
Qed.

Lemma scores_chain_two C :
  nrows C = 2 -> ncols C = 2 ->
  segment_scores C [0; 1]%Z
  = Ok (fadd (Fin 0) (log_entry (data C 0 1)), fadd (Fin 0) (log_entry (data C 1 0))).
Proof.
  intros Hr Hc. unfold segment_scores. rewrite !segment_probability_unfold.
  cbn [_get_edges truthy rev app length Nat.sub seq map nth mapM fst snd].
  rewrite !getitem_in_range by (rewrite ?Hr, ?Hc; lia). reflexivity.
Qed.

Lemma orient_total_two C :
  nrows C = 2 -> ncols C = 2 ->
  exists D, foldM (orient_segment_array C V_two) [[0; 1]%Z] V_two = Ok D.
Proof.
  intros Hr Hc. cbn [foldM]. rewrite orient_segment_array_branch.
  rewrite (scores_chain_two C Hr Hc). cbn [rbind fst snd].
  destruct (branch_of _ _); cbn; eauto.
Qed.

Lemma directed_tree_chain_two t :
  (exists C, _compute_center_transition_matrix t R_two = Ok C
             /\ nrows C = 2 /\ ncols C = 2) ->
  exists D, directed_tree 2 t R_two [0; 1]%Z [-1; 0]%Z V_two = Ok D.
Proof.
  intros (C & HC & Hr & Hc). unfold directed_tree.
  assert (E1 : mapM (index1 [-1; 0]%Z) (argsort [0; 1]%Z) = Ok [-1; 0]%Z) by reflexivity.
  rewrite E1. cbn [rbind].
  assert (E2 : _get_all_segments 2 (argsort [0; 1]%Z) [-1; 0]%Z = Ok [[0; 1]%Z])
    by reflexivity.
  rewrite E2, HC. cbn [rbind]. apply orient_total_two; assumption.
Qed.

Lemma construct_returns_fresh fuel key w t Rm co cp lV V D :
  reads key w t Rm co cp lV V ->
  directed_tree fuel t Rm co cp V = Ok D ->
  construct_velocity_tree fuel key w = (Ok (fresh (dom (store w))), final_world w D).
Proof.
  intros Hreads HD. destruct (construct_velocity_tree fuel key w) as [r w'] eqn:E.
  pose proof (construct_velocity_tree_run _ _ _ _ _ _ _ _ _ _ _ Hreads E) as H.
  rewrite HD in H. destruct H as [-> ->]. reflexivity.
Qed.

Lemma run_two :
  construct_velocity_tree 2 "pearson" world_two
  = (Ok (fresh_of world_two), world_after world_two).
Proof.
  destruct center_two as (C & HC & Hr & Hc & _).
  destruct (directed_tree_chain_two (Dense T_two)) as [D HD]; [eauto|].
  unfold world_after. rewrite (construct_returns_fresh _ _ _ _ _ _ _ _ _ D reads_two HD).
  reflexivity.
Qed.

Lemma run_tie :
  construct_velocity_tree 2 "pearson" world_tie
  = (Ok (fresh_of world_tie), world_after world_tie).
Proof.
  destruct center_zero as (C & HC & Hr & Hc & _).
  destruct (directed_tree_chain_two (Dense T_zero)) as [D HD]; [eauto|].
  unfold world_after. rewrite (construct_returns_fresh _ _ _ _ _ _ _ _ _ D reads_tie HD).
  reflexivity.
Qed.

(** * The claims *)

(** C5.  A successful [construct_velocity_tree] modifies none of the
    objects it reads: [adata.obsp] and every object that existed before,
    among them the dict [adata.uns("cell_order")] and each of its entries,
    are unchanged; [adata.uns] only gains the key "directed_velocity_tree",
    bound to a new array, and that array is the one returned. *)
Theorem construct_only_adds_directed_tree fuel key w l w' :
  construct_velocity_tree fuel key w = (Ok l, w') ->
  obsp w' = obsp w
  /\ (uns w' = <["directed_velocity_tree" := l]> (uns w))
  /\ uns w' !! "directed_velocity_tree" = Some l
  /\ (l ∉ dom (store w))
  /\ (forall l0, l0 ∈ dom (store w) -> store w' !! l0 = store w !! l0)
  /\ (forall lco d,
        uns w !! "cell_order" = Some lco -> store w !! lco = Some (ODict d) ->
        uns w' !! "cell_order" = Some lco
        /\ store w' !! lco = Some (ODict d)
        /\ forall k lk o, d !! k = Some lk -> store w !! lk = Some o ->
             store w' !! lk = Some o).
Proof.
  intros Hrun.
  pose proof (construct_velocity_tree_triple w fuel key w (ext_refl w)) as H.
  rewrite Hrun in H. destruct H as (Hobsp & Hstore & Huns & Hfresh). simpl in *.
  assert (Hold : forall l0 o, store w !! l0 = Some o -> store w' !! l0 = Some o).
  { intros l0 o Hl0. rewrite Hstore; [exact Hl0|]. apply elem_of_dom. eauto. }
  split; [exact Hobsp|]. split; [exact Huns|].
  split; [rewrite Huns; apply lookup_insert_eq|].
  split; [exact Hfresh|]. split; [exact Hstore|].
  intros lco d Hco Hd. split; [|split].
  - rewrite Huns. rewrite lookup_insert_ne by discriminate. exact Hco.
  - apply Hold, Hd.
  - intros k lk o _ Hlk. apply Hold, Hlk.
Qed.

Lemma construct_only_adds_directed_tree_witness :
  obsp (world_after world_two) = obsp world_two
  /\ (uns (world_after world_two)
      = <["directed_velocity_tree" := fresh_of world_two]> (uns world_two))
  /\ uns (world_after world_two) !! "directed_velocity_tree" = Some (fresh_of world_two)
  /\ (fresh_of world_two ∉ dom (store world_two))
  /\ (forall l0, l0 ∈ dom (store world_two) ->
        store (world_after world_two) !! l0 = store world_two !! l0)
  /\ (forall lco d,
        uns world_two !! "cell_order" = Some lco ->
        store world_two !! lco = Some (ODict d) ->
        uns (world_after world_two) !! "cell_order" = Some lco
        /\ store (world_after world_two) !! lco = Some (ODict d)
        /\ forall k lk o, d !! k = Some lk -> store world_two !! lk = Some o ->
             store (world_after world_two) !! lk = Some o).
Proof.
  exact (construct_only_adds_directed_tree 2 "pearson" world_two
           (fresh_of world_two) (world_after world_two) run_two).
Defined.

(** Whatever is raised, [adata] and the objects that existed are as
    before. *)
Lemma construct_error_leaves_adata fuel key w e w' :
  construct_velocity_tree fuel key w = (Raise e, w') ->
  obsp w' = obsp w /\ uns w' = uns w
  /\ forall l0, l0 ∈ dom (store w) -> store w' !! l0 = store w !! l0.
Proof.
  intros Hrun.
  pose proof (construct_velocity_tree_triple w fuel key w (ext_refl w)) as H.
  rewrite Hrun in H. destruct H as (Hobsp & Hstore & Huns). auto.
Qed.

(** C8, as amended.  [construct_velocity_tree] raises KeyError if the
    key transition_matrix_key + "_transition_matrix" is absent from
    [adata.obsp] or the key "cell_order" is absent from [adata.uns]; it
    raises before anything is computed or modified: the state at the raise
    is the state at the call. *)
Theorem missing_key_raises_first fuel key w :
  obsp w !! (key +:+ "_transition_matrix") = None \/ uns w !! "cell_order" = None ->
  construct_velocity_tree fuel key w = (Raise KeyError, w).
Proof.
  intros H. unfold construct_velocity_tree.
  unfold bind at 1, obsp_contains.
  destruct (obsp w !! (key +:+ "_transition_matrix")) as [lT|] eqn:ET.
  - destruct H as [H|H]; [discriminate|].
    rewrite bool_decide_eq_true_2 by eauto. cbn [negb].
    unfold bind at 1, uns_contains. rewrite H.
    rewrite bool_decide_eq_false_2 by (intros [? ?]; discriminate). reflexivity.
  - rewrite bool_decide_eq_false_2 by (intros [? ?]; discriminate). reflexivity.
Qed.

Lemma missing_key_raises_first_witness :
  construct_velocity_tree 2 "pearson" world_no_matrix = (Raise KeyError, world_no_matrix).
Proof.
  apply (missing_key_raises_first 2 "pearson" world_no_matrix). left. reflexivity.
Defined.

(** C8 as stated fails in its "only if": with both keys present and a
    [cell_order] dict that lacks "R", KeyError is raised all the same. *)
Lemma key_error_with_both_keys_present :
  is_Some (obsp world_no_R !! ("pearson" +:+ "_transition_matrix"))
  /\ is_Some (uns world_no_R !! "cell_order")
  /\ construct_velocity_tree 2 "pearson" world_no_R = (Raise KeyError, world_no_R).
Proof.
  split; [eexists; reflexivity|]. split; [eexists; reflexivity|]. reflexivity.
Qed.

Lemma stored_positions s i j p :
  In p (List.filter (fun p => nth p (indices s) 0 =? j)
          (seq (nth i (indptr s) 0) (nth (S i) (indptr s) 0 - nth i (indptr s) 0)))
  <-> stored_at s i j p.
Proof.
  unfold stored_at. rewrite List.filter_In, in_seq, Nat.eqb_eq. intuition lia.
Qed.

(** Every entry of [toarray s] is the single value stored for it, or 0. *)
Lemma toarray_entry s i j :
  no_duplicate_entries s ->
  (forall p, stored_at s i j p -> data (toarray s) i j = nth p (values s) (Fin 0))
  /\ ((forall p, ~ stored_at s i j p) -> data (toarray s) i j = Fin 0).
Proof.
  intros Hnd. cbn [toarray data].
  pose proof (stored_positions s i j) as Hpos.
  assert (Huniq : List.NoDup
            (List.filter (fun p => nth p (indices s) 0 =? j)
               (seq (nth i (indptr s) 0)
                    (nth (S i) (indptr s) 0 - nth i (indptr s) 0)))).
  { apply List.NoDup_filter, List.seq_NoDup. }
  destruct (List.filter _ _) as [|p0 [|p1 rest]].
  - split; [|reflexivity]. intros p Hp. apply Hpos in Hp. destruct Hp.
  - split.
    + intros p Hp. apply Hpos in Hp. destruct Hp as [<-|[]].
      cbn. apply fadd_zero_l.
    + intros Hno. exfalso. apply (Hno p0), Hpos. left. reflexivity.
  - exfalso. apply List.NoDup_cons_iff in Huniq as [Hnin _]. apply Hnin.
    left. symmetry. apply (Hnd i j).
    + apply Hpos. left. reflexivity.
    + apply Hpos. right. left. reflexivity.
Qed.

Lemma toarray_dense_equivalent s :
  no_duplicate_entries s -> dense_equivalent s (toarray s).
Proof.
  intros Hnd. split; [reflexivity|]. split; [reflexivity|].
  intros i j _ _. apply toarray_entry, Hnd.
Qed.

Lemma stored_or_not s i j :
  (exists p, stored_at s i j p) \/ (forall p, ~ stored_at s i j p).
Proof.
  pose proof (stored_positions s i j) as Hpos.
  destruct (List.filter _ _) as [|p0 rest].
  - right. intros p Hp. apply Hpos in Hp. destruct Hp.
  - left. exists p0. apply Hpos. left. reflexivity.
Qed.

(** Two dense equivalents of a sparse matrix have the same entries. *)
Lemma dense_equivalent_entries s m1 m2 i j :
  dense_equivalent s m1 -> dense_equivalent s m2 ->
  i < csr_rows s -> j < csr_cols s -> data m1 i j = data m2 i j.
Proof.
  intros (_ & _ & H1) (_ & _ & H2) Hi Hj.
  destruct (H1 i j Hi Hj) as [Hs1 Hz1], (H2 i j Hi Hj) as [Hs2 Hz2].
  destruct (stored_or_not s i j) as [[p Hp]|Hno].
  - rewrite (Hs1 p Hp), (Hs2 p Hp). reflexivity.
  - rewrite Hz1, Hz2 by exact Hno. reflexivity.
Qed.

Lemma block_sum_ext T1 T2 Rm ia ib a b :
  (forall i j, In i ia -> In j ib -> data T1 i j = data T2 i j) ->
  block_sum T1 Rm ia ib a b = block_sum T2 Rm ia ib a b.
Proof.
  intros H. unfold block_sum. f_equal.
  induction ia as [|i ia IH]; simpl; [reflexivity|].
  rewrite IH by (intros; apply H; [right|]; assumption). f_equal.
  apply List.map_ext_in. intros j Hj. rewrite (H i j) by (auto; left; reflexivity).
  reflexivity.
Qed.

(** [q] reads the transition matrix inside its shape only. *)
Lemma block_q_ext T1 T2 Rm ia ib a b :
  nrows T1 = nrows T2 -> ncols T1 = ncols T2 ->
  (forall i j, i < nrows T1 -> j < ncols T1 -> data T1 i j = data T2 i j) ->
  block_q T1 Rm ia ib a b = block_q T2 Rm ia ib a b.
Proof.
  intros Hr Hc H. unfold block_q. rewrite <- Hr, <- Hc.
  destruct (negb (is_empty ia) && negb (is_empty ib)); [|reflexivity].
  destruct (forallb (fun i => i <? nrows T1) ia) eqn:Ea; [|reflexivity].
  destruct (forallb (fun j => j <? ncols T1) ib) eqn:Eb; [|reflexivity].
  simpl. f_equal. apply block_sum_ext. intros i j Hi Hj.
  rewrite List.forallb_forall in Ea, Eb.
  apply H; [apply Nat.ltb_lt, Ea, Hi | apply Nat.ltb_lt, Eb, Hj].
Qed.

(** The center-level matrix depends on the entries of the transition
    matrix inside its shape only. *)
Lemma center_matrix_ext T1 T2 Rm :
  nrows T1 = nrows T2 -> ncols T1 = ncols T2 ->
  (forall i j, i < nrows T1 -> j < ncols T1 -> data T1 i j = data T2 i j) ->
  _compute_center_transition_matrix (Dense T1) Rm
  = _compute_center_transition_matrix (Dense T2) Rm.
Proof.
  intros Hr Hc H. unfold _compute_center_transition_matrix.
  destruct (argmax_axis1 Rm) as [assignment|]; [|reflexivity]. cbn [rbind].
  f_equal. apply foldM_ext_in. intros st a _.
  apply foldM_ext_in. intros [tr tot] b _. unfold inner_body.
  destruct (a =? b); [reflexivity|].
  rewrite (block_q_ext T1 T2) by assumption. reflexivity.
Qed.

(** C9.  A sparse transition matrix is converted to its equivalent dense
    array and then processed as a dense one.  For a sparse matrix without
    duplicate entries: [toarray], which the function applies, gives an
    array of the same shape with every stored entry at its place and 0
    elsewhere; and for any array [m] with that property,
    [_compute_center_transition_matrix] returns for the sparse matrix what
    it returns for [m], and so does [construct_velocity_tree] on two states
    that differ in that object only. *)
Theorem sparse_input_is_densified s m Rm fuel key w1 w2 co cp lV V :
  no_duplicate_entries s ->
  dense_equivalent s m ->
  reads key w1 (Sparse s) Rm co cp lV V ->
  reads key w2 (Dense m) Rm co cp lV V ->
  dom (store w1) = dom (store w2) ->
  dense_equivalent s (toarray s)
  /\ _compute_center_transition_matrix (Sparse s) Rm
     = _compute_center_transition_matrix (Dense m) Rm
  /\ fst (construct_velocity_tree fuel key w1) = fst (construct_velocity_tree fuel key w2)
  /\ forall l, fst (construct_velocity_tree fuel key w1) = Ok l ->
       store (snd (construct_velocity_tree fuel key w1)) !! l
       = store (snd (construct_velocity_tree fuel key w2)) !! l.
Proof.
  intros Hnd Hm H1 H2 Hdom.
  pose proof (toarray_dense_equivalent s Hnd) as Hto.
  assert (HC : _compute_center_transition_matrix (Sparse s) Rm
               = _compute_center_transition_matrix (Dense m) Rm).
  { change (_compute_center_transition_matrix (Sparse s) Rm)
      with (_compute_center_transition_matrix (Dense (toarray s)) Rm).
    destruct Hm as (Hr & Hc & Hm0).
    apply center_matrix_ext; [symmetry; exact Hr | symmetry; exact Hc |].
    intros i j Hi Hj.
    apply (dense_equivalent_entries s); [exact Hto | split; [|split]; assumption | |];
      assumption. }
  split; [exact Hto|]. split; [exact HC|].
  destruct (construct_velocity_tree fuel key w1) as [r1 w1'] eqn:E1.
  destruct (construct_velocity_tree fuel key w2) as [r2 w2'] eqn:E2.
  pose proof (construct_velocity_tree_run _ _ _ _ _ _ _ _ _ _ _ H1 E1) as R1.
  pose proof (construct_velocity_tree_run _ _ _ _ _ _ _ _ _ _ _ H2 E2) as R2.
  assert (HD : directed_tree fuel (Dense m) Rm co cp V
               = directed_tree fuel (Sparse s) Rm co cp V).
  { unfold directed_tree. rewrite HC. reflexivity. }
  rewrite HD in R2.
  simpl. destruct (directed_tree fuel (Sparse s) Rm co cp V) as [D|e].
  - destruct R1 as [-> ->], R2 as [-> ->]. rewrite Hdom. split; [reflexivity|].
    intros l [= <-]. unfold final_world. simpl. rewrite Hdom.
    rewrite !lookup_insert_eq. reflexivity.
  - subst. split; [reflexivity | discriminate].
Qed.

Lemma no_duplicate_entries_two : no_duplicate_entries csr_two.
Proof.
  intros i j p p' [Hp _] [Hp' _]. cbn [csr_two indptr] in Hp, Hp'.
  destruct i as [|[|[|i]]]; simpl in Hp, Hp'; lia.
Qed.

Lemma dense_equivalent_two : dense_equivalent csr_two T_two.
Proof.
  split; [reflexivity|]. split; [reflexivity|].
  intros i j Hi Hj. cbn [csr_two csr_rows csr_cols] in Hi, Hj. split.
  - intros p [Hp Hq]. cbn [csr_two indptr indices] in Hp, Hq.
    destruct i as [|[|i]]; simpl in Hp; [|lia|lia].
    assert (p = 0) as -> by lia. simpl in Hq. subst j. reflexivity.
  - intros Hno.
    destruct i as [|[|i]]; [|destruct j as [|[|j]]; [reflexivity|reflexivity|lia]|lia].
    destruct j as [|[|j]]; [reflexivity| |lia].
    exfalso. apply (Hno 0). split; simpl; [lia|reflexivity].
Qed.

Lemma sparse_input_is_densified_witness :
  dense_equivalent csr_two (toarray csr_two)
  /\ _compute_center_transition_matrix (Sparse csr_two) R_two
     = _compute_center_transition_matrix (Dense T_two) R_two
  /\ fst (construct_velocity_tree 2 "pearson" world_sparse)
     = fst (construct_velocity_tree 2 "pearson" world_two)
  /\ forall l, fst (construct_velocity_tree 2 "pearson" world_sparse) = Ok l ->
       store (snd (construct_velocity_tree 2 "pearson" world_sparse)) !! l
       = store (snd (construct_velocity_tree 2 "pearson" world_two)) !! l.
Proof.
  apply (sparse_input_is_densified csr_two T_two R_two 2 "pearson" world_sparse world_two
           [0; 1]%Z [-1; 0]%Z 5%positive V_two
           no_duplicate_entries_two dense_equivalent_two reads_sparse reads_two).
  unfold world_sparse, world_two, world_with. simpl.
  rewrite !dom_insert_L. reflexivity.
Defined.

(** C7.  On a segment whose forward and reversed final scores are equal,
    both entries of each of its edges keep the values of the undirected
    tree; on a segment whose scores differ, the entry in the winning
    direction is the maximum of the two weights and the opposite entry is
    0.  The scores are finite, so one of the three cases applies. *)
Theorem tie_keeps_winner_takes_max fuel key w t Rm co cp lV V parents l w' :
  reads key w t Rm co cp lV V ->
  tree_read co cp parents ->
  construct_velocity_tree fuel key w = (Ok l, w') ->
  exists D segs C,
    store w' !! l = Some (OArray2 D)
    /\ _get_all_segments fuel (argsort co) parents = Ok segs
    /\ _compute_center_transition_matrix t Rm = Ok C
    /\ forall seg, seg ∈ segs ->
         exists p p',
           segment_scores C seg = Ok (p, p')
           /\ (p = p' \/ fgtb p p' = true \/ fltb p p' = true)
           /\ forall r c, In (r, c) (edges_of seg) ->
                exists x y,
                  getitem V r c = Ok x /\ getitem V c r = Ok y
                  /\ (p = p' -> getitem D r c = Ok x /\ getitem D c r = Ok y)
                  /\ (fgtb p p' = true ->
                        getitem D r c = Ok (py_max x y) /\ getitem D c r = Ok (Fin 0))
                  /\ (fltb p p' = true ->
                        getitem D c r = Ok (py_max x y) /\ getitem D r c = Ok (Fin 0))
                  /\ (forall a b, x = Fin a -> y = Fin b ->
                        py_max x y = Fin (Rmax a b)).
Proof.
  intros Hreads Htree Hrun.
  destruct (construct_velocity_tree_entries _ _ _ _ _ _ _ _ _ _ _ _ Hreads Htree Hrun)
    as (D & segs & C & HD & Hsegs & HC & Hentries).
  exists D, segs, C. split; [exact HD|]. split; [exact Hsegs|]. split; [exact HC|].
  intros seg Hseg. destruct (Hentries seg Hseg) as (p & p' & Hs & Hp & Hp' & He).
  exists p, p'. split; [exact Hs|]. split.
  { destruct (branch_of_finite p p' Hp Hp') as [[E _]|[[E _]|[E _]]]; auto. }
  intros r c Hin. apply list_elem_of_In, list_elem_of_lookup in Hin as [i Hi].
  destruct (He i r c Hi) as (x & y & Hx & Hy & H1 & H2).
  exists x, y. split; [exact Hx|]. split; [exact Hy|]. split; [|split; [|split]].
  - intros <-. rewrite (branch_of_equal p Hp) in H1, H2. auto.
  - intros E. rewrite (branch_of_greater p p' E) in H1, H2. auto.
  - intros E. rewrite (branch_of_less p p' Hp Hp' E) in H1, H2. auto.
  - intros a b -> ->. apply py_max_finite.
Qed.

Lemma tie_keeps_winner_takes_max_witness :
  exists D segs C,
    store (world_after world_two) !! fresh_of world_two = Some (OArray2 D)
    /\ _get_all_segments 2 (argsort [0; 1]%Z) [-1; 0]%Z = Ok segs
    /\ _compute_center_transition_matrix (Dense T_two) R_two = Ok C
    /\ forall seg, seg ∈ segs ->
         exists p p',
           segment_scores C seg = Ok (p, p')
           /\ (p = p' \/ fgtb p p' = true \/ fltb p p' = true)
           /\ forall r c, In (r, c) (edges_of seg) ->
                exists x y,
                  getitem V_two r c = Ok x /\ getitem V_two c r = Ok y
                  /\ (p = p' -> getitem D r c = Ok x /\ getitem D c r = Ok y)
                  /\ (fgtb p p' = true ->
                        getitem D r c = Ok (py_max x y) /\ getitem D c r = Ok (Fin 0))
                  /\ (fltb p p' = true ->
                        getitem D c r = Ok (py_max x y) /\ getitem D r c = Ok (Fin 0))
                  /\ (forall a b, x = Fin a -> y = Fin b ->
                        py_max x y = Fin (Rmax a b)).
Proof.
  exact (tie_keeps_winner_takes_max 2 "pearson" world_two (Dense T_two) R_two
           [0; 1]%Z [-1; 0]%Z 5%positive V_two [-1; 0]%Z
           (fresh_of world_two) (world_after world_two)
           reads_two tree_read_two run_two).
Defined.

Lemma Rmax_nonzero a b :
  (0 <= a)%R -> (0 <= b)%R -> a <> 0%R \/ b <> 0%R -> Fin (Rmax a b) <> Fin 0.
Proof.
  intros Ha Hb Hne [= E]. pose proof (Rmax_l a b). pose proof (Rmax_r a b).
  destruct Hne; lra.
Qed.

(** C4, as amended.  Every parent-child edge {u, v} of the tree lies on a
    segment.  If the two final scores of that segment differ and the two
    weights of the edge are non-negative with at least one non-zero, then
    exactly one of the entries (u, v) and (v, u) of the directed tree is
    non-zero; if the scores are equal, both entries keep their input
    values. *)
Theorem one_direction_unless_tie fuel key w t Rm co cp lV V parents l w' :
  reads key w t Rm co cp lV V ->
  tree_read co cp parents ->
  construct_velocity_tree fuel key w = (Ok l, w') ->
  exists D segs C,
    store w' !! l = Some (OArray2 D)
    /\ _get_all_segments fuel (argsort co) parents = Ok segs
    /\ _compute_center_transition_matrix t Rm = Ok C
    /\ forall u v, parent_of (argsort co) parents u v -> v <> (-1)%Z ->
         exists seg p p' x y dx dy,
           seg ∈ segs /\ (adjacent u v seg \/ adjacent v u seg)
           /\ segment_scores C seg = Ok (p, p')
           /\ getitem V u v = Ok x /\ getitem V v u = Ok y
           /\ getitem D u v = Ok dx /\ getitem D v u = Ok dy
           /\ (p = p' -> dx = x /\ dy = y)
           /\ (p <> p' ->
               forall a b, x = Fin a -> y = Fin b ->
                 (0 <= a)%R -> (0 <= b)%R -> a <> 0%R \/ b <> 0%R ->
                 (dx <> Fin 0 /\ dy = Fin 0) \/ (dx = Fin 0 /\ dy <> Fin 0)).
Proof.
  intros Hreads Htree Hrun.
  destruct (construct_velocity_tree_entries _ _ _ _ _ _ _ _ _ _ _ _ Hreads Htree Hrun)
    as (D & segs & C & HD & Hsegs & HC & Hentries).
  exists D, segs, C. split; [exact HD|]. split; [exact Hsegs|]. split; [exact HC|].
  intros u v Hpar Hne. destruct Htree as [_ Htree].
  destruct (get_all_segments_cover _ _ Htree fuel segs Hsegs u v Hpar Hne)
    as (seg & Hseg & Hadj).
  destruct (Hentries seg Hseg) as (p & p' & Hs & Hp & Hp' & He).
  destruct Hadj as [(i & H1 & H2)|(i & H1 & H2)].
  - assert (Hi : edges_of seg !! i = Some (u, v)) by (apply edges_of_lookup; auto).
    destruct (He i u v Hi) as (x & y & Hx & Hy & Hd1 & Hd2).
    exists seg, p, p', x, y. eexists. eexists.
    split; [exact Hseg|]. split; [left; exists i; auto|]. split; [exact Hs|].
    split; [exact Hx|]. split; [exact Hy|]. split; [exact Hd1|]. split; [exact Hd2|].
    split.
    + intros <-. rewrite (branch_of_equal p Hp). auto.
    + intros Hpp a b -> -> Ha Hb Hab.
      pose proof (Rmax_nonzero a b Ha Hb Hab) as Hmax.
      destruct (branch_of_finite p p' Hp Hp') as [[E _]|[[_ ->]|(_ & _ & ->)]];
        [contradiction | left | right]; simpl; rewrite ?py_max_finite; auto.
  - assert (Hi : edges_of seg !! i = Some (v, u)) by (apply edges_of_lookup; auto).
    destruct (He i v u Hi) as (y & x & Hy & Hx & Hd1 & Hd2).
    exists seg, p, p', x, y. eexists. eexists.
    split; [exact Hseg|]. split; [right; exists i; auto|]. split; [exact Hs|].
    split; [exact Hx|]. split; [exact Hy|]. split; [exact Hd2|]. split; [exact Hd1|].
    split.
    + intros <-. rewrite (branch_of_equal p Hp). auto.
    + intros Hpp a b -> -> Ha Hb Hab.
      assert (Hab' : b <> 0%R \/ a <> 0%R) by tauto.
      pose proof (Rmax_nonzero b a Hb Ha Hab') as Hmax.
      destruct (branch_of_finite p p' Hp Hp') as [[E _]|[[_ ->]|(_ & _ & ->)]];
        [contradiction | right | left]; simpl; rewrite ?py_max_finite; auto.
Qed.

Lemma one_direction_unless_tie_witness :
  exists D segs C,
    store (world_after world_two) !! fresh_of world_two = Some (OArray2 D)
    /\ _get_all_segments 2 (argsort [0; 1]%Z) [-1; 0]%Z = Ok segs
    /\ _compute_center_transition_matrix (Dense T_two) R_two = Ok C
    /\ forall u v, parent_of (argsort [0; 1]%Z) [-1; 0]%Z u v -> v <> (-1)%Z ->
         exists seg p p' x y dx dy,
           seg ∈ segs /\ (adjacent u v seg \/ adjacent v u seg)
           /\ segment_scores C seg = Ok (p, p')
           /\ getitem V_two u v = Ok x /\ getitem V_two v u = Ok y
           /\ getitem D u v = Ok dx /\ getitem D v u = Ok dy
           /\ (p = p' -> dx = x /\ dy = y)
           /\ (p <> p' ->
               forall a b, x = Fin a -> y = Fin b ->
                 (0 <= a)%R -> (0 <= b)%R -> a <> 0%R \/ b <> 0%R ->
                 (dx <> Fin 0 /\ dy = Fin 0) \/ (dx = Fin 0 /\ dy <> Fin 0)).
Proof.
  exact (one_direction_unless_tie 2 "pearson" world_two (Dense T_two) R_two
           [0; 1]%Z [-1; 0]%Z 5%positive V_two [-1; 0]%Z
           (fresh_of world_two) (world_after world_two)
           reads_two tree_read_two run_two).
Defined.

(** C4 as stated fails on a tie: without velocity both scores of the
    segment (0, 1) are equal, and the edge {0, 1}, of weight 3 in the input,
    keeps the non-zero weight 3 in both directions. *)
Lemma tie_leaves_both_directions :
  construct_velocity_tree 2 "pearson" world_tie
  = (Ok (fresh_of world_tie), world_after world_tie)
  /\ getitem V_two 0 1 = Ok (Fin 3)
  /\ exists D,
       store (world_after world_tie) !! fresh_of world_tie = Some (OArray2 D)
       /\ getitem D 0 1 = Ok (Fin 3) /\ getitem D 1 0 = Ok (Fin 3)
       /\ Fin 3 <> Fin 0.
Proof.
  split; [exact run_tie|]. split; [reflexivity|].
  destruct (construct_velocity_tree_entries _ _ _ _ _ _ _ _ _ _ _ _
              reads_tie tree_read_two run_tie)
    as (D & segs & C & HD & Hsegs & HC & Hentries).
  exists D. split; [exact HD|].
  assert (E : _get_all_segments 2 (argsort [0; 1]%Z) [-1; 0]%Z = Ok [[0; 1]%Z])
    by reflexivity.
  rewrite E in Hsegs. injection Hsegs as <-.
  destruct center_zero as (C0 & HC0 & Hr & Hc & H01 & H10).
  rewrite HC0 in HC. injection HC as <-.
  destruct (Hentries [0; 1]%Z (list_elem_of_here _ _)) as (p & p' & Hs & Hp & _ & He).
  rewrite (scores_chain_two C0 Hr Hc), H01, H10 in Hs. injection Hs as <- <-.
  destruct (He 0 0%Z 1%Z eq_refl) as (x & y & Hx & Hy & H1 & H2).
  rewrite (branch_of_equal _ Hp) in H1, H2. simpl in H1, H2.
  injection Hx as <-. injection Hy as <-.
  split; [exact H1|]. split; [exact H2|].
  intros [= E3]. lra.
Qed.

Lemma last_item_cumsum l p : last_item (cumsum l) = Ok p -> p = fsum l.
Proof.
  destruct l as [|x l]; [discriminate|]. unfold last_item, cumsum.
  rewrite last_cumsum_from by discriminate. intros [= <-]. reflexivity.
Qed.

Lemma last_score_log1p_sum C edges xs scores p :
  _calculate_segment_probability C edges = Ok scores ->
  mapM (fun e => getitem C (fst e) (snd e)) edges = Ok (map Fin xs) ->
  Forall (fun x => 0 <= x)%R xs ->
  last_item scores = Ok p ->
  p = Fin (Rsum (map (fun x => ln (1 + x)) xs)).
Proof.
  intros Hs Hps Hnn. rewrite segment_probability_unfold in Hs.
  rewrite (mapM_rbind _ log_entry _ _ Hps) in Hs. simpl in Hs. injection Hs as <-.
  assert (E : map log_entry (map Fin xs) = map Fin (map (fun x => ln (1 + x)) xs)).
  { rewrite !List.map_map. apply map_ext_in. intros x Hx.
    apply log_entry_probability. rewrite List.Forall_forall in Hnn. auto. }
  rewrite E. intros Hl. rewrite (last_item_cumsum _ _ Hl). apply fsum_Fin.
Qed.

Lemma segment_scores_log1p_sum C seg p p' :
  segment_scores C seg = Ok (p, p') ->
  (forall xs, mapM (fun e => getitem C (fst e) (snd e)) (edges_of seg) = Ok (map Fin xs) ->
     Forall (fun x => 0 <= x)%R xs ->
     p = Fin (Rsum (map (fun x => ln (1 + x)) xs)))
  /\ (forall xs, mapM (fun e => getitem C (fst e) (snd e)) (edges_of (rev seg))
                 = Ok (map Fin xs) ->
        Forall (fun x => 0 <= x)%R xs ->
        p' = Fin (Rsum (map (fun x => ln (1 + x)) xs))).
Proof.
  unfold segment_scores.
  destruct (_calculate_segment_probability C (_get_edges seg None)) as [sp|] eqn:E1;
    simpl; [|discriminate].
  destruct (_calculate_segment_probability C (_get_edges (rev seg) None)) as [spr|] eqn:E2;
    simpl; [|discriminate].
  destruct (last_item sp) as [q|] eqn:L1; simpl; [|discriminate].
  destruct (last_item spr) as [q'|] eqn:L2; simpl; [|discriminate].
  intros [= <- <-]. split; intros xs Hxs Hnn.
  - exact (last_score_log1p_sum C _ xs sp q E1 Hxs Hnn L1).
  - exact (last_score_log1p_sum C _ xs spr q' E2 Hxs Hnn L2).
Qed.

(** C1, as amended.  For every segment of the tree the two direction
    scores exist; the final forward score is the sum over the segment's
    edges (a, b) of log(1 + C[a, b]) ([np.log1p], not the logarithm) of the
    center-level transition probabilities, the final reversed score the
    same sum over the reversed edges; and [construct_velocity_tree] orients
    each edge of the segment in the direction whose final score is strictly
    larger. *)
Theorem score_is_log1p_sum_larger_wins fuel key w t Rm co cp lV V parents l w' :
  reads key w t Rm co cp lV V ->
  tree_read co cp parents ->
  construct_velocity_tree fuel key w = (Ok l, w') ->
  exists D segs C,
    store w' !! l = Some (OArray2 D)
    /\ _get_all_segments fuel (argsort co) parents = Ok segs
    /\ _compute_center_transition_matrix t Rm = Ok C
    /\ forall seg, seg ∈ segs ->
         exists sp spr p p',
           _calculate_segment_probability C (_get_edges seg None) = Ok sp
           /\ _calculate_segment_probability C (_get_edges (rev seg) None) = Ok spr
           /\ last_item sp = Ok p /\ last_item spr = Ok p'
           /\ (forall xs,
                 mapM (fun e => getitem C (fst e) (snd e)) (edges_of seg) = Ok (map Fin xs) ->
                 Forall (fun x => 0 <= x)%R xs ->
                 p = Fin (Rsum (map (fun x => ln (1 + x)) xs)))
           /\ (forall xs,
                 mapM (fun e => getitem C (fst e) (snd e)) (edges_of (rev seg))
                 = Ok (map Fin xs) ->
                 Forall (fun x => 0 <= x)%R xs ->
                 p' = Fin (Rsum (map (fun x => ln (1 + x)) xs)))
           /\ forall r c, In (r, c) (edges_of seg) ->
                exists x y,
                  getitem V r c = Ok x /\ getitem V c r = Ok y
                  /\ (fgtb p p' = true ->
                        getitem D r c = Ok (py_max x y) /\ getitem D c r = Ok (Fin 0))
                  /\ (fltb p p' = true ->
                        getitem D c r = Ok (py_max x y) /\ getitem D r c = Ok (Fin 0)).
Proof.
  intros Hreads Htree Hrun.
  destruct (construct_velocity_tree_entries _ _ _ _ _ _ _ _ _ _ _ _ Hreads Htree Hrun)
    as (D & segs & C & HD & Hsegs & HC & Hentries).
  exists D, segs, C. split; [exact HD|]. split; [exact Hsegs|]. split; [exact HC|].
  intros seg Hseg. destruct (Hentries seg Hseg) as (p & p' & Hs & Hp & Hp' & He).
  destruct (segment_scores_log1p_sum C seg p p' Hs) as [Hf Hr].
  unfold segment_scores in Hs.
  destruct (_calculate_segment_probability C (_get_edges seg None)) as [sp|] eqn:E1;
    simpl in Hs; [|discriminate].
  destruct (_calculate_segment_probability C (_get_edges (rev seg) None)) as [spr|] eqn:E2;
    simpl in Hs; [|discriminate].
  destruct (last_item sp) as [q|] eqn:L1; simpl in Hs; [|discriminate].
  destruct (last_item spr) as [q'|] eqn:L2; simpl in Hs; [|discriminate].
  injection Hs as -> ->.
  exists sp, spr, p, p'. repeat (split; [first [reflexivity | assumption]|]).
  intros r c Hin. apply list_elem_of_In, list_elem_of_lookup in Hin as [i Hi].
  destruct (He i r c Hi) as (x & y & Hx & Hy & H1 & H2).
  exists x, y. split; [exact Hx|]. split; [exact Hy|]. split.
  - intros E. rewrite (branch_of_greater p p' E) in H1, H2. auto.
  - intros E. rewrite (branch_of_less p p' Hp Hp' E) in H1, H2. auto.
Qed.

Lemma score_is_log1p_sum_larger_wins_witness :
  exists D segs C,
    store (world_after world_two) !! fresh_of world_two = Some (OArray2 D)
    /\ _get_all_segments 2 (argsort [0; 1]%Z) [-1; 0]%Z = Ok segs
    /\ _compute_center_transition_matrix (Dense T_two) R_two = Ok C
    /\ forall seg, seg ∈ segs ->
         exists sp spr p p',
           _calculate_segment_probability C (_get_edges seg None) = Ok sp
           /\ _calculate_segment_probability C (_get_edges (rev seg) None) = Ok spr
           /\ last_item sp = Ok p /\ last_item spr = Ok p'
           /\ (forall xs,
                 mapM (fun e => getitem C (fst e) (snd e)) (edges_of seg) = Ok (map Fin xs) ->
                 Forall (fun x => 0 <= x)%R xs ->
                 p = Fin (Rsum (map (fun x => ln (1 + x)) xs)))
           /\ (forall xs,
                 mapM (fun e => getitem C (fst e) (snd e)) (edges_of (rev seg))
                 = Ok (map Fin xs) ->
                 Forall (fun x => 0 <= x)%R xs ->
                 p' = Fin (Rsum (map (fun x => ln (1 + x)) xs)))
           /\ forall r c, In (r, c) (edges_of seg) ->
                exists x y,
                  getitem V_two r c = Ok x /\ getitem V_two c r = Ok y
                  /\ (fgtb p p' = true ->
                        getitem D r c = Ok (py_max x y) /\ getitem D c r = Ok (Fin 0))
                  /\ (fltb p p' = true ->
                        getitem D c r = Ok (py_max x y) /\ getitem D r c = Ok (Fin 0)).
Proof.
  exact (score_is_log1p_sum_larger_wins 2 "pearson" world_two (Dense T_two) R_two
           [0; 1]%Z [-1; 0]%Z 5%positive V_two [-1; 0]%Z
           (fresh_of world_two) (world_after world_two)
           reads_two tree_read_two run_two).
Defined.

(** C1 as stated fails: on the segment (0, 1) with transition probability
    C[0, 1] = 1 the log-likelihood is log 1 = 0, and the score computed is
    log1p 1 = ln 2. *)
Lemma score_is_not_log_likelihood :
  exists C,
    _compute_center_transition_matrix (Dense T_two) R_two = Ok C
    /\ getitem C 0 1 = Ok (Fin 1)
    /\ log_likelihood C [(0, 1)%Z] = Ok (Fin 0)
    /\ exists scores,
         _calculate_segment_probability C [(0, 1)%Z] = Ok scores
         /\ last_item scores = Ok (Fin (ln 2))
         /\ Fin (ln 2) <> Fin 0.
Proof.
  destruct center_two as (C & HC & Hr & Hc & H01 & _).
  assert (Hget : getitem C 0 1 = Ok (Fin 1)).
  { rewrite getitem_in_range by (rewrite ?Hr, ?Hc; lia).
    change (Z.to_nat 0) with 0. change (Z.to_nat 1) with 1. rewrite H01. reflexivity. }
  exists C. split; [exact HC|]. split; [exact Hget|]. split; [|].
  - unfold log_likelihood. cbn [mapM fst snd]. rewrite Hget. cbn.
    Rdecide. cbn. rewrite ln_1. do 2 f_equal. lra.
  - rewrite segment_probability_unfold. cbn [mapM fst snd]. rewrite Hget.
    cbn [rbind]. eexists. split; [reflexivity|]. split.
    + unfold log_entry. cbn. Rdecide. cbn.
      replace (0 + ln (1 + 1))%R with (ln 2); [reflexivity|].
      replace (1 + 1)%R with 2%R by lra. lra.
    + intros [= E]. pose proof ln_lt_2. lra.
Qed.

(** C3.  For a tree given by a traversal order and the parents along it,
    [_get_all_segments] returns, with fuel for the longest path: for a
    single leaf the order itself as the only segment; for several leaves
    segments that each start at a leaf or bifurcation node, follow the
    parent relation and stop at the first bifurcation node or root met;
    and in both cases every parent-child edge of the tree lies on one of
    the segments. *)
Theorem segments_decompose_tree (orders parents : list Z) (fuel : nat) :
  tree orders parents ->
  length orders <= fuel ->
  exists segs,
    _get_all_segments fuel orders parents = Ok segs
    /\ (length (leaf_nodes_of orders parents) = 1 -> segs = [orders])
    /\ (1 < length (leaf_nodes_of orders parents) ->
        forall seg, seg ∈ segs ->
          (exists start, seg !! 0 = Some start
             /\ (is_leaf orders parents start \/ is_bifurcation parents start))
          /\ 2 <= length seg
          /\ (forall i x y, seg !! i = Some x -> seg !! S i = Some y ->
                parent_of orders parents x y)
          /\ (exists z, last seg = Some z
                /\ (is_bifurcation parents z \/ is_root orders parents z))
          /\ (forall i x, seg !! i = Some x -> 0 < i -> S i < length seg ->
                ~ (is_bifurcation parents x \/ is_root orders parents x)))
    /\ (forall c p, parent_of orders parents c p -> p <> (-1)%Z ->
          exists seg, seg ∈ segs /\ (adjacent c p seg \/ adjacent p c seg)).
Proof.
  intros T Hfuel.
  destruct (get_all_segments_total orders parents T fuel Hfuel) as [segs Hrun].
  exists segs. split; [exact Hrun|]. split; [|split].
  - intros E. unfold _get_all_segments in Hrun.
    fold (leaf_nodes_of orders parents) in Hrun. rewrite E in Hrun. simpl in Hrun.
    congruence.
  - intros Hl seg Hseg.
    assert (Hl' : length (leaf_nodes_of orders parents) <> 1) by lia.
    destruct (get_all_segments_paths orders parents T fuel segs Hl' Hrun)
      as (ends & He & _ & Hsegs).
    apply Hsegs in Hseg as (a & Ha & Hg).
    apply (get_path_spec orders parents ends) in Hg.
    assert (Hend : forall x, x ∈ ends <->
              is_bifurcation parents x \/ is_root orders parents x).
    { intros x. rewrite (He x), bifurcation_spec.
      rewrite (pd_parent_of orders parents T). unfold is_root, is_bifurcation.
      split; [tauto|]. intros [H|H]; [tauto|]. right. split; [|exact H].
      destruct H as (i & Hi & _). eapply list_elem_of_lookup_2; eauto. }
    split; [|split; [|split; [|split]]].
    + exists a. split; [apply (path_head orders parents ends a seg Hg)|].
      apply elem_of_app in Ha as [Ha|Ha].
      * left. apply (leaf_nodes_spec orders parents), Ha.
      * right. apply bifurcation_spec in Ha. exact Ha.
    + apply (path_length orders parents ends a seg Hg).
    + intros i x y Hx Hy. apply (pd_parent_of orders parents T).
      apply (path_chain orders parents ends a seg Hg i x y Hx Hy).
    + destruct (path_last_end orders parents ends a seg Hg) as (z & Hz & Hzin).
      exists z. split; [exact Hz | apply Hend, Hzin].
    + intros i x Hx Hi Hlen Hin. apply Hend in Hin.
      apply (path_interior orders parents ends a seg i x Hg Hx Hi Hlen Hin).
  - apply (get_all_segments_cover orders parents T fuel segs Hrun).
Qed.

(** A root with two children, each a leaf. *)
Lemma tree_fork : tree [0; 1; 2]%Z [-1; 0; 0]%Z.
Proof.
  split.
  - apply NoDup_ListNoDup. repeat constructor; simpl; lia.
  - reflexivity.
  - intros x Hx. repeat (apply elem_of_cons in Hx as [->|Hx]; [lia|]).
    apply elem_of_nil in Hx. contradiction.
  - intros [|[|[|i]]] p; simpl; intros [= <-];
      [left; reflexivity | right; exists 0; split; [lia | reflexivity] ..].
Qed.

Lemma segments_decompose_tree_witness :
  exists segs,
    _get_all_segments 3 [0; 1; 2]%Z [-1; 0; 0]%Z = Ok segs
    /\ (length (leaf_nodes_of [0; 1; 2]%Z [-1; 0; 0]%Z) = 1 -> segs = [[0; 1; 2]%Z])
    /\ (1 < length (leaf_nodes_of [0; 1; 2]%Z [-1; 0; 0]%Z) ->
        forall seg, seg ∈ segs ->
          (exists start, seg !! 0 = Some start
             /\ (is_leaf [0; 1; 2]%Z [-1; 0; 0]%Z start
                 \/ is_bifurcation [-1; 0; 0]%Z start))
          /\ 2 <= length seg
          /\ (forall i x y, seg !! i = Some x -> seg !! S i = Some y ->
                parent_of [0; 1; 2]%Z [-1; 0; 0]%Z x y)
          /\ (exists z, last seg = Some z
                /\ (is_bifurcation [-1; 0; 0]%Z z
                    \/ is_root [0; 1; 2]%Z [-1; 0; 0]%Z z))
          /\ (forall i x, seg !! i = Some x -> 0 < i -> S i < length seg ->
                ~ (is_bifurcation [-1; 0; 0]%Z x
                   \/ is_root [0; 1; 2]%Z [-1; 0; 0]%Z x)))
    /\ (forall c p, parent_of [0; 1; 2]%Z [-1; 0; 0]%Z c p -> p <> (-1)%Z ->
          exists seg, seg ∈ segs /\ (adjacent c p seg \/ adjacent p c seg)).
Proof.
  apply (segments_decompose_tree [0; 1; 2]%Z [-1; 0; 0]%Z 3 tree_fork). simpl. lia.
Defined.

Example segments_of_fork :
  _get_all_segments 3 [0; 1; 2]%Z [-1; 0; 0]%Z = Ok [[1; 0]%Z; [2; 0]%Z].
Proof. vm_compute. reflexivity. Qed.

(** ** The Scribe wrapper *)

Section ScribeResult.
Context {layer dataframe series mask network : Type}.
Context {E : Scribe.Externals layer dataframe series mask network}.

Ltac bind_step H :=
  match type of H with
  | rbind ?c _ = Ok _ => destruct c eqn:?; [cbn [rbind] in H|discriminate H]
  end.

Lemma list_item_Ok (l : list string) i x : Scribe.list_item l i = Ok x -> l !! i = Some x.
Proof. unfold Scribe.list_item. destruct (l !! i); [intros [= ->]; reflexivity|discriminate]. Qed.

Lemma layer_item_Ok (a : Scribe.AnnData layer dataframe network) k x :
  Scribe.layer_item a k = Ok x -> Scribe.layers a !! k = Some x.
Proof.
  unfold Scribe.layer_item. destruct (Scribe.layers a !! k); [intros [= ->]; reflexivity|discriminate].
Qed.

Lemma old_layer_is_present (a : Scribe.AnnData layer dataframe network) k x :
  String.eqb k "old" && negb (Scribe.has_layer (Scribe.set_layer a k x) "old") = false.
Proof.
  destruct (String.eqb_spec k "old") as [->|]; [|reflexivity].
  unfold Scribe.has_layer, Scribe.set_layer. cbn [Scribe.layers andb].
  rewrite lookup_insert_eq. rewrite bool_decide_eq_true_2 by eauto. reflexivity.
Qed.

(** A successful [scribe_network] has prepared the object, run the
    inference on it and collected its results. *)
Lemma scribe_network_results adata TF_list genes rate umi nt_layers do_CLR ref res_dict :
  Scribe.scribe_network adata (Scribe.n_obs adata) TF_list genes rate umi nt_layers
                        do_CLR ref = Ok res_dict ->
  exists k0 k1 a,
    nt_layers !! 0 = Some k0 /\ nt_layers !! 1 = Some k1
    /\ scribe_prepared adata rate umi k0 k1 a
    /\ scribe_results a TF_list genes k0 k1 do_CLR ref res_dict.
Proof.
  unfold Scribe.scribe_network. intros H.
  do 13 bind_step H.
  rewrite old_layer_is_present in H. cbn [rbind] in H.
  do 2 bind_step H.
  destruct (Scribe.uns _ !! "causal_net") as [rdi|] eqn:Hrdi in H;
    cbn [rbind] in H; [|discriminate H].
  repeat match goal with
         | H : Scribe.list_item _ _ = Ok _ |- _ => apply list_item_Ok in H
         | H : Scribe.layer_item _ _ = Ok _ |- _ => apply layer_item_Ok in H
         end.
  eexists _, _, _. split; [eassumption|]. split; [eassumption|]. split.
  { unfold scribe_prepared. eexists _, _, _, _, _, _, _, _, _, _, _.
    repeat (split; [eassumption|]). reflexivity. }
  destruct do_CLR.
  - destruct (Scribe.CLR rdi) as [clr|] eqn:Hclr; cbn [rbind] in H; [|discriminate H].
    cbn in H. destruct ref as [f|].
    + do 3 bind_step H. cbn [last rbind snd] in H. do 4 bind_step H.
      injection H as <-.
      unfold scribe_results.
      eexists _, _, _, _, _, _. split; [eassumption|]. split; [eassumption|].
      split; [eassumption|].
      split; [eexists; split; [eassumption|split; reflexivity]|].
      split; [|reflexivity].
      eexists _, _, _, _, _, _, _. repeat (split; [eassumption|]). reflexivity.
    + injection H as <-.
      unfold scribe_results.
      eexists _, _, _, _, _, _. split; [eassumption|]. split; [eassumption|].
      split; [eassumption|].
      split; [eexists; split; [eassumption|split; reflexivity]|].
      split; reflexivity.
  - cbn [rbind] in H. destruct ref as [f|].
    + do 3 bind_step H. cbn [last rbind snd] in H. do 4 bind_step H.
      injection H as <-.
      unfold scribe_results.
      eexists _, _, _, _, _, _. split; [eassumption|]. split; [eassumption|].
      split; [eassumption|]. split; [split; reflexivity|].
      split; [|reflexivity].
      eexists _, _, _, _, _, _, _. repeat (split; [eassumption|]). reflexivity.
    + injection H as <-.
      unfold scribe_results.
      eexists _, _, _, _, _, _. split; [eassumption|]. split; [eassumption|].
      split; [eassumption|]. split; [split; reflexivity|].
      split; reflexivity.
Qed.

(** C10.  When [scribe] returns, the object returned is the copy of its
    input taken before the filtering: it has the input's numbers of cells
    and genes, its layers and its annotations, and its [.uns] is the
    input's with the key 'causal_net' set to the dict of the inferred
    network results.  That dict holds, under "RDI", the network that
    [causal_net_dynamics_coupling] left in [.uns['causal_net']] of the
    filtered and normalised object it was run on, with the transcription
    factors read from the motif file; under "CLR", with [do_CLR], what [CLR]
    makes of that network; and under "filtered", with a ChIP-seq reference,
    what [TF_link_gene_chip] keeps of the last of them. *)
Theorem scribe_returns_augmented_copy adata genes gene_filter_rate cell_filter_UMI
    motif_ref nt_layers do_CLR TF_link_ENCODE_ref r :
  Scribe.scribe adata genes gene_filter_rate cell_filter_UMI motif_ref nt_layers do_CLR
                TF_link_ENCODE_ref = Ok r ->
  Scribe.n_obs r = Scribe.n_obs adata /\ Scribe.n_vars r = Scribe.n_vars adata
  /\ Scribe.layers r = Scribe.layers adata
  /\ Scribe.obs r = Scribe.obs adata /\ Scribe.var r = Scribe.var adata
  /\ exists motifs TF_list k0 k1 a res_dict,
       Scribe.read_csv motif_ref = Ok motifs
       /\ Scribe.loc_column motifs "TF" = Ok TF_list
       /\ nt_layers !! 0 = Some k0 /\ nt_layers !! 1 = Some k1
       /\ scribe_prepared adata gene_filter_rate cell_filter_UMI k0 k1 a
       /\ scribe_results a TF_list genes k0 k1 do_CLR TF_link_ENCODE_ref res_dict
       /\ Scribe.uns r = <["causal_net" := Scribe.UDict res_dict]> (Scribe.uns adata).
Proof.
  unfold Scribe.scribe. intros H.
  destruct (negb Scribe.Scribe_installed); [discriminate H|].
  do 3 bind_step H.
  injection H as <-. cbn.
  repeat (split; [reflexivity|]).
  lazymatch goal with
  | E : Scribe.scribe_network _ _ _ _ _ _ _ _ _ = Ok ?d |- _ =>
      destruct (scribe_network_results _ _ _ _ _ _ _ _ _ E)
        as (k0 & k1 & prepared & Hk0 & Hk1 & Hprep & Hres)
  end.
  eexists _, _, k0, k1, prepared, _.
  split; [reflexivity|]. split; [eassumption|].
  split; [exact Hk0|]. split; [exact Hk1|]. split; [exact Hprep|].
  split; [exact Hres|reflexivity].
Qed.

End ScribeResult.

Lemma scribe_returns_augmented_copy_witness :
  exists r,
    Scribe.scribe (E := externals_numbered) adata_numbered None (1 / 10) 10000
                  "motifs.csv" ["new"; "total"] true None = Ok r
    /\ Scribe.n_obs r = 2 /\ Scribe.n_vars r = 3
    /\ Scribe.uns r !! "causal_net"
       = Some (Scribe.UDict [("RDI", Scribe.UNet 7); ("CLR", Scribe.UNet 8)]).
Proof.
  destruct (Scribe.scribe (E := externals_numbered) adata_numbered None (1 / 10) 10000
              "motifs.csv" ["new"; "total"] true None) as [r|e] eqn:Hrun;
    [|discriminate Hrun].
  exists r. split; [reflexivity|].
  destruct (scribe_returns_augmented_copy _ _ _ _ _ _ _ _ _ Hrun)
    as (Ho & Hv & _ & _ & _ & motifs & TF_list & k0 & k1 & a & res_dict
        & _ & _ & _ & _ & _ & Hres & Huns).
  split; [exact Ho|]. split; [exact Hv|].
  destruct Hres as (TFs & coupled & rdi & clr_items & net & chip_items
                    & _ & Hc & Hrdi & (clr & Hclr & -> & _) & -> & ->).
  cbn in Hc. injection Hc as <-. cbn in Hrdi. rewrite lookup_insert_eq in Hrdi.
  injection Hrdi as <-. cbn in Hclr. injection Hclr as <-.
  rewrite Huns. apply lookup_insert_eq.
Defined.

(** * Further properties *)

(** ** Edge pairs *)

Lemma rev_is_reverse {A} (l : list A) : rev l = reverse l.
Proof. unfold reverse. apply rev_alt. Qed.

Lemma rev_lookup_lt {A} (l : list A) i :
  i < length l -> rev l !! i = l !! (length l - S i).
Proof. rewrite rev_is_reverse. apply reverse_lookup. Qed.

(** X1.  The edge pairs of a reversed segment are the edge pairs of the
    segment, each one swapped, in reverse order: both directions of a
    segment are scored on the same undirected edges. *)
Theorem reversed_segment_swaps_edges (segment : list Z) :
  _get_edges (rev segment) None
  = rev (map (fun rc => (snd rc, fst rc)) (_get_edges segment None)).
Proof.
  fold (edges_of (rev segment)). fold (edges_of segment).
  apply list_eq. intros i. apply option_eq. intros [r c].
  rewrite edges_of_lookup.
  destruct (decide (i < length (edges_of segment))) as [Hlt|Hge].
  - pose proof Hlt as Hlt'. rewrite edges_of_length in Hlt'.
    rewrite (rev_lookup_lt (map _ _)) by (rewrite length_map; exact Hlt).
    rewrite length_map, list_lookup_fmap, edges_of_length.
    rewrite (rev_lookup_lt segment i), (rev_lookup_lt segment (S i)) by lia.
    replace (length segment - S i) with (S (length segment - 1 - S i)) by lia.
    replace (length segment - S (S i)) with (length segment - 1 - S i) by lia.
    destruct (edges_of segment !! (length segment - 1 - S i)) as [[c' r']|] eqn:E; simpl.
    + apply edges_of_lookup in E as [E1 E2]. rewrite E1, E2. split.
      * intros [[= ->] [= ->]]. reflexivity.
      * intros [= -> ->]. auto.
    + split; [|discriminate]. intros [H1 H2].
      assert (H : edges_of segment !! (length segment - 1 - S i) = Some (c, r))
        by (apply edges_of_lookup; auto).
      congruence.
  - rewrite (lookup_ge_None_2 (rev (map _ _))) by (rewrite length_rev, length_map; lia).
    split; [|discriminate]. intros [_ H]. apply lookup_lt_Some in H.
    rewrite length_rev in H. rewrite edges_of_length in Hge. lia.
Qed.

(** X2.  With a list of parents, [_get_edges] pairs every node with its
    parent and leaves out the nodes whose parent is -1; an empty list of
    parents counts as no parents, and the consecutive pairs of the order are
    returned. *)
Theorem edges_with_parents_skip_roots (orders parents : list Z) (p o : Z) :
  (p, o) ∈ _get_edges orders (Some parents)
  <-> match parents with
      | [] => exists i, orders !! i = Some p /\ orders !! S i = Some o
      | _ :: _ => parent_of orders parents o p /\ p <> (-1)%Z
      end.
Proof.
  destruct parents as [|q parents].
  - change (_get_edges orders (Some [])) with (edges_of orders).
    rewrite list_elem_of_lookup. split; intros [i H]; exists i; apply edges_of_lookup, H.
  - unfold _get_edges, truthy, parent_of. cbn [default].
    rewrite list_elem_of_In, List.filter_In, <- list_elem_of_In. cbn [fst].
    rewrite elem_of_lookup_zip_with. split.
    + intros [(i & p' & o' & [= <- <-] & Hp & Ho) Hne].
      split; [eauto|]. apply negb_true_iff, Z.eqb_neq in Hne. exact Hne.
    + intros [(i & Ho & Hp) Hne]. split.
      * exists i, p, o. auto.
      * apply negb_true_iff, Z.eqb_neq. exact Hne.
Qed.

(** ** _get_path *)

Lemma path_loop_diverges (S : Z -> Prop) pd ends :
  (forall x, S x -> (x ∉ ends) /\ exists y, pd !! x = Some y /\ S y) ->
  forall fuel cur path, S cur -> path_loop fuel pd ends cur path = Raise OutOfFuel.
Proof.
  intros HS. induction fuel as [|fuel IH]; intros cur path Hcur; [reflexivity|].
  destruct (HS cur Hcur) as (Hnot & y & Hy & HSy). simpl.
  rewrite (proj2 (inb_false cur ends) Hnot).
  unfold dict_getitem_Z. rewrite Hy. simpl. apply IH, HSy.
Qed.

(** X3.  On a parent dictionary with a cycle that holds no end node the
    loop of [_get_path] never exits: from a start node whose parent lies on
    such a cycle, no number of iterations gives a result. *)
Theorem get_path_never_returns_on_cycle (S : Z -> Prop) (pd : gmap Z Z)
    (ends : list Z) (start p : Z) :
  pd !! start = Some p -> p <> (-1)%Z -> S p ->
  (forall x, S x -> (x ∉ ends) /\ exists y, pd !! x = Some y /\ S y) ->
  forall fuel, _get_path fuel pd start ends = Raise OutOfFuel.
Proof.
  intros Hp Hne HSp HS fuel. unfold _get_path, dict_getitem_Z. rewrite Hp. simpl.
  rewrite (proj2 (Z.eqb_neq p (-1)) Hne).
  rewrite (path_loop_diverges S pd ends HS fuel p [start; p] HSp). reflexivity.
Qed.

Lemma get_path_never_returns_on_cycle_witness :
  _get_path 1000 {[ 0%Z := 1%Z; 1%Z := 0%Z ]} 0 [] = Raise OutOfFuel.
Proof.
  apply (get_path_never_returns_on_cycle (fun x => x = 0%Z \/ x = 1%Z) _ [] 0%Z 1%Z).
  - reflexivity.
  - discriminate.
  - right. reflexivity.
  - intros x Hx. split; [apply not_elem_of_nil|].
    destruct Hx as [-> | ->].
    + exists 1%Z. split; [reflexivity|]. right. reflexivity.
    + exists 0%Z. split; [reflexivity|]. left. reflexivity.
Defined.

Lemma path_loop_leaves_dict pd ends z :
  pd !! z = None ->
  forall rest cur path fuel,
    chain pd (cur :: rest) ->
    (forall x, x ∈ cur :: rest -> x ∉ ends) ->
    last (cur :: rest) = Some z ->
    length rest < fuel ->
    path_loop fuel pd ends cur path = Raise KeyError.
Proof.
  intros Hz. induction rest as [|y rest IH]; intros cur path fuel Hc Hn Hl Hf.
  - destruct fuel as [|fuel]; [lia|]. simpl in Hl. injection Hl as ->. simpl.
    rewrite (proj2 (inb_false z ends)) by (apply Hn, list_elem_of_here).
    unfold dict_getitem_Z. rewrite Hz. reflexivity.
  - destruct fuel as [|fuel]; [simpl in Hf; lia|]. simpl.
    rewrite (proj2 (inb_false cur ends)) by (apply Hn, list_elem_of_here).
    unfold dict_getitem_Z. rewrite (Hc 0 cur y eq_refl eq_refl). simpl.
    apply IH.
    + intros i a b Ha Hb. apply (Hc (Datatypes.S i) a b); assumption.
    + intros x Hx. apply Hn, list_elem_of_further, Hx.
    + exact Hl.
    + simpl in Hf. lia.
Qed.

(** X4.  When the walk of [_get_path] up the parents meets no end node and
    arrives at a node that is no key of the dictionary (the -1 above a root
    that is no end node, for one), KeyError is raised. *)
Theorem get_path_key_error_past_the_dict (fuel : nat) (pd : gmap Z Z)
    (ends : list Z) (start p z : Z) (rest : list Z) :
  pd !! start = Some p -> p <> (-1)%Z ->
  chain pd (p :: rest) ->
  (forall x, x ∈ p :: rest -> x ∉ ends) ->
  last (p :: rest) = Some z -> pd !! z = None ->
  length rest < fuel ->
  _get_path fuel pd start ends = Raise KeyError.
Proof.
  intros Hp Hne Hc Hn Hl Hz Hf. unfold _get_path, dict_getitem_Z. rewrite Hp. simpl.
  rewrite (proj2 (Z.eqb_neq p (-1)) Hne).
  rewrite (path_loop_leaves_dict pd ends z Hz rest p [start; p] fuel Hc Hn Hl Hf).
  reflexivity.
Qed.

Lemma get_path_key_error_past_the_dict_witness :
  _get_path 2 {[ 0%Z := 1%Z; 1%Z := (-1)%Z ]} 0 [] = Raise KeyError.
Proof.
  apply (get_path_key_error_past_the_dict 2 _ [] 0%Z 1%Z (-1)%Z [(-1)%Z]).
  - reflexivity.
  - discriminate.
  - intros [|[|i]] a b; simpl; try discriminate. intros [= <-] [= <-]. reflexivity.
  - intros x _. apply not_elem_of_nil.
  - reflexivity.
  - reflexivity.
  - simpl. lia.
Defined.

Lemma path_loop_length fuel pd ends cur path path' :
  path_loop fuel pd ends cur path = Ok path' -> length path' < length path + fuel.
Proof.
  revert cur path. induction fuel as [|fuel IH]; intros cur path; simpl; [discriminate|].
  destruct (inb cur ends).
  - intros [= <-]. lia.
  - destruct (dict_getitem_Z pd cur) as [y|]; simpl; [|discriminate].
    intros H. apply IH in H. rewrite length_app in H. simpl in H. lia.
Qed.

(** X5.  What [_get_path] returns, for any dictionary: None exactly for a
    start node whose parent is -1; otherwise the start node, its parent and
    the chain of parents from there, which ends at the first end node
    met. *)
Theorem get_path_contract (fuel : nat) (pd : gmap Z Z) (ends : list Z) (start : Z)
    (r : option (list Z)) :
  _get_path fuel pd start ends = Ok r ->
  match r with
  | None => pd !! start = Some (-1)%Z
  | Some path =>
      exists p ext,
        path = start :: p :: ext
        /\ pd !! start = Some p /\ p <> (-1)%Z
        /\ chain pd (p :: ext)
        /\ (exists z, last (p :: ext) = Some z /\ z ∈ ends)
        /\ (forall i x, (p :: ext) !! i = Some x -> i < length ext -> x ∉ ends)
        /\ length ext < fuel
  end.
Proof.
  unfold _get_path, dict_getitem_Z.
  destruct (pd !! start) as [p|] eqn:Hp; simpl; [|discriminate].
  destruct (Z.eqb_spec p (-1)) as [->|Hne].
  - intros [= <-]. reflexivity.
  - destruct (path_loop fuel pd ends p [start; p]) as [path|] eqn:E; simpl;
      [|discriminate].
    intros [= <-].
    destruct (path_loop_spec _ _ _ _ _ _ E) as (ext & -> & Hc & Hl & Hint).
    apply path_loop_length in E. rewrite length_app in E. simpl in E.
    exists p, ext. repeat split; auto. lia.
Qed.

Lemma get_path_contract_witness :
  exists p ext,
    [0; 1; 2]%Z = 0%Z :: p :: ext
    /\ ({[ 0%Z := 1%Z; 1%Z := 2%Z; 2%Z := (-1)%Z ]} : gmap Z Z) !! 0%Z = Some p
    /\ p <> (-1)%Z
    /\ chain {[ 0%Z := 1%Z; 1%Z := 2%Z; 2%Z := (-1)%Z ]} (p :: ext)
    /\ (exists z, last (p :: ext) = Some z /\ z ∈ [2%Z])
    /\ (forall i x, (p :: ext) !! i = Some x -> i < length ext -> x ∉ [2%Z])
    /\ length ext < 3.
Proof.
  apply (get_path_contract 3 {[ 0%Z := 1%Z; 1%Z := 2%Z; 2%Z := (-1)%Z ]} [2%Z] 0%Z
           (Some [0; 1; 2]%Z)).
  reflexivity.
Defined.

(** ** The segments of a tree *)

(** X6.  The segments returned for a tree are pairwise distinct, hold node
    ids that are not negative (so never the -1 above a root), have no edge
    from a node to itself, and no undirected edge occurs twice, be it in one
    segment or in two. *)
Theorem segments_share_no_edge (orders parents : list Z) (fuel : nat)
    (segs : list (list Z)) :
  tree orders parents ->
  _get_all_segments fuel orders parents = Ok segs ->
  NoDup segs
  /\ (forall s x, s ∈ segs -> x ∈ s -> (0 <= x)%Z)
  /\ (forall s i r c, s ∈ segs -> edges_of s !! i = Some (r, c) -> r <> c)
  /\ edges_isolated segs.
Proof.
  intros T Hrun. exact (get_all_segments_separated orders parents T fuel segs Hrun).
Qed.

Lemma segments_share_no_edge_witness :
  NoDup [[1; 0]; [2; 0]]%Z
  /\ (forall s x, s ∈ [[1; 0]; [2; 0]]%Z -> x ∈ s -> (0 <= x)%Z)
  /\ (forall s i r c, s ∈ [[1; 0]; [2; 0]]%Z -> edges_of s !! i = Some (r, c) -> r <> c)
  /\ edges_isolated [[1; 0]; [2; 0]]%Z.
Proof.
  apply (segments_share_no_edge [0; 1; 2]%Z [-1; 0; 0]%Z 3 _ tree_fork).
  reflexivity.
Defined.

Lemma fst_zip_take (l k : list Z) : map fst (zip l k) = take (length k) l.
Proof.
  revert k. induction l as [|x l IH]; intros [|y k]; simpl; try reflexivity.
  f_equal. apply IH.
Qed.

Lemma root_nodes_key_error (pd : gmap Z Z) (x : Z) :
  pd !! x = None ->
  forall orders acc, x ∈ orders ->
    foldM (fun l node =>
             let? p := dict_getitem_Z pd node in
             Ok (if (p =? -1)%Z then l ++ [node] else l))
          orders acc = Raise KeyError.
Proof.
  intros Hx. induction orders as [|y orders IH]; intros acc Hin.
  - apply elem_of_nil in Hin. contradiction.
  - simpl. unfold dict_getitem_Z at 1.
    destruct (pd !! y) as [p|] eqn:Hy; simpl; [|reflexivity].
    apply IH. apply elem_of_cons in Hin as [->|Hin]; [congruence|exact Hin].
Qed.

(** X7.  When [parents] is shorter than [orders], the nodes past its end
    get no entry in the parent dictionary, and unless the tree counts
    exactly one leaf, collecting the root nodes raises KeyError. *)
Theorem short_parents_raise_key_error (fuel : nat) (orders parents : list Z) :
  NoDup orders ->
  length parents < length orders ->
  length (leaf_nodes_of orders parents) <> 1 ->
  _get_all_segments fuel orders parents = Raise KeyError.
Proof.
  intros Hnd Hlen Hleaf. unfold _get_all_segments.
  fold (leaf_nodes_of orders parents).
  rewrite (proj2 (Nat.eqb_neq _ 1) Hleaf).
  destruct (lookup_lt_is_Some_2 orders (length parents) Hlen) as [x Hx].
  assert (Hnone : make_parents_dict orders parents !! x = None).
  { unfold make_parents_dict.
    destruct (fold_insert_lookup (zip orders parents) ∅ x) as [_ H2].
    - rewrite fst_zip_take. eapply sublist_NoDup; [exact Hnd|apply sublist_take].
    - rewrite H2; [apply lookup_empty|].
      rewrite fst_zip_take. intros Hin.
      apply list_elem_of_lookup in Hin as [i Hi].
      pose proof (lookup_lt_Some _ _ _ Hi) as Hlt. rewrite length_take in Hlt.
      rewrite lookup_take_lt in Hi by lia.
      pose proof (NoDup_lookup _ _ _ _ Hnd Hi Hx). lia. }
  rewrite (root_nodes_key_error _ x Hnone orders []); [reflexivity|].
  eapply list_elem_of_lookup_2. exact Hx.
Qed.

Lemma short_parents_raise_key_error_witness :
  _get_all_segments 3 [0; 1; 2]%Z [-1; 0]%Z = Raise KeyError.
Proof.
  apply (short_parents_raise_key_error 3 [0; 1; 2]%Z [-1; 0]%Z).
  - apply NoDup_ListNoDup. repeat constructor; simpl; lia.
  - simpl. lia.
  - simpl. lia.
Defined.

(** ** The center-level matrix on arbitrary floats *)

(** X8.  Whatever floats [T] and [R] hold, nan and infinities included:
    for [R] with a column and [T] with a row and a column for every cell,
    [_compute_center_transition_matrix] raises nothing, and its result is
    square with one row per center, has a zero diagonal, and holds neither
    nan nor an infinity. *)
Theorem center_matrix_never_nan (t : matrix_input) (Rm : ndarray) :
  0 < ncols Rm ->
  nrows Rm <= nrows (dense_of t) ->
  nrows Rm <= ncols (dense_of t) ->
  exists C,
    _compute_center_transition_matrix t Rm = Ok C
    /\ nrows C = ncols Rm /\ ncols C = ncols Rm
    /\ forall a b, a < ncols Rm -> b < ncols Rm ->
         finite (data C a b) /\ (a = b -> data C a b = Fin 0).
Proof.
  intros Hk Hr Hc.
  destruct (center_matrix_closed_form t Rm Hk Hr Hc) as (C & HC & Hn & Hm & Hd).
  exists C. split; [exact HC|]. split; [exact Hn|]. split; [exact Hm|].
  intros a b Ha Hb. rewrite (Hd a b Ha Hb). split.
  - destruct (a =? b); [exists 0%R; reflexivity|apply clean_finite].
  - intros ->. rewrite Nat.eqb_refl. reflexivity.
Qed.

Lemma center_matrix_never_nan_witness :
  exists C,
    _compute_center_transition_matrix (Dense T_bad) R_two = Ok C
    /\ nrows C = 2 /\ ncols C = 2
    /\ forall a b, a < 2 -> b < 2 ->
         finite (data C a b) /\ (a = b -> data C a b = Fin 0).
Proof.
  apply (center_matrix_never_nan (Dense T_bad) R_two); simpl; lia.
Defined.

Lemma filter_none {A} (f : A -> bool) (l : list A) :
  (forall x, In x l -> f x = false) -> List.filter f l = [].
Proof.
  induction l as [|x l IH]; intros H; simpl; [reflexivity|].
  rewrite (H x) by (left; reflexivity). apply IH. intros y Hy. apply H. right. exact Hy.
Qed.

Lemma cells_of_other Rm c0 a :
  (forall i, i < nrows Rm -> assigned_center Rm i = c0) ->
  a <> c0 -> cells_of Rm a = [].
Proof.
  intros H Ha. unfold cells_of. apply filter_none. intros i Hi.
  apply in_seq in Hi. rewrite H by lia. apply Nat.eqb_neq. auto.
Qed.

Lemma block_q_empty T Rm ia ib a b :
  ia = [] \/ ib = [] -> block_q T Rm ia ib a b = Ok (Fin 0).
Proof.
  unfold block_q. intros [-> | ->]; [reflexivity|].
  rewrite andb_false_r. reflexivity.
Qed.

Lemma unnormalized_empty T Rm a b :
  cells_of Rm a = [] \/ cells_of Rm b = [] -> unnormalized T Rm a b = Fin 0.
Proof.
  unfold unnormalized. intros [E|E]; rewrite E; [reflexivity|].
  replace (flat_map _ _) with (@nil float64); [reflexivity|].
  generalize (cells_of Rm a). intros l. induction l; simpl; auto.
Qed.

(** X9.  When every cell is assigned to the same center (or there is no
    cell at all), no entry of the transition matrix is read: whatever its
    shape and contents, the result is the zero matrix. *)
Theorem one_cluster_gives_zero_matrix (t : matrix_input) (Rm : ndarray) (c0 : nat) :
  0 < ncols Rm ->
  (forall i, i < nrows Rm -> assigned_center Rm i = c0) ->
  exists C,
    _compute_center_transition_matrix t Rm = Ok C
    /\ nrows C = ncols Rm /\ ncols C = ncols Rm
    /\ forall a b, a < ncols Rm -> b < ncols Rm -> data C a b = Fin 0.
Proof.
  intros Hk Hone.
  set (T' := enlarge (dense_of t) (nrows Rm) (nrows Rm)).
  assert (Hempty : forall a b, a <> b -> cells_of Rm a = [] \/ cells_of Rm b = []).
  { intros a b Hab. destruct (decide (a = c0)) as [->|Ha].
    - right. apply (cells_of_other Rm c0); auto.
    - left. apply (cells_of_other Rm c0); auto. }
  assert (Heq : _compute_center_transition_matrix t Rm
                = _compute_center_transition_matrix (Dense T') Rm).
  { unfold _compute_center_transition_matrix. fold (dense_of t).
    unfold argmax_axis1. rewrite (proj2 (Nat.eqb_neq _ 0)) by lia. cbn [rbind].
    f_equal. apply foldM_ext_in. intros st a _.
    apply foldM_ext_in. intros [tr tot] b _. unfold inner_body.
    destruct (a =? b) eqn:E; [reflexivity|]. apply Nat.eqb_neq in E.
    rewrite !where_eq_cells.
    rewrite !block_q_empty by (apply Hempty; exact E). reflexivity. }
  destruct (center_matrix_closed_form (Dense T') Rm Hk) as (C & HC & Hn & Hm & Hd).
  { simpl. lia. }
  { simpl. lia. }
  exists C. split; [rewrite Heq; exact HC|]. split; [exact Hn|]. split; [exact Hm|].
  intros a b Ha Hb. rewrite (Hd a b Ha Hb).
  destruct (a =? b) eqn:E; [reflexivity|]. apply Nat.eqb_neq in E.
  rewrite unnormalized_empty by (apply Hempty; exact E). apply clean_div_zero.
Qed.

Lemma one_cluster_gives_zero_matrix_witness :
  exists C,
    _compute_center_transition_matrix (Dense (of_rows [])) R_one_cell = Ok C
    /\ nrows C = 2 /\ ncols C = 2
    /\ forall a b, a < 2 -> b < 2 -> data C a b = Fin 0.
Proof.
  apply (one_cluster_gives_zero_matrix (Dense (of_rows [])) R_one_cell 0).
  - simpl. lia.
  - intros i Hi. simpl in Hi. replace i with 0 by lia. exact assigned_one_cell.
Defined.

Lemma foldM_raises_only {A B} (e0 : exn) (f : A -> B -> result A) (l : list B) :
  (forall a x e, f a x = Raise e -> e = e0) ->
  forall a e, foldM f l a = Raise e -> e = e0.
Proof.
  intros Hf. induction l as [|x l IH]; intros a e; simpl; [discriminate|].
  destruct (f a x) as [a1|e1] eqn:E; simpl.
  - apply IH.
  - intros [= <-]. eapply Hf, E.
Qed.

Lemma foldM_ok_each {A B} (f : A -> B -> result A) (l : list B) a a' x :
  foldM f l a = Ok a' -> In x l -> exists a0 a1, f a0 x = Ok a1.
Proof.
  revert a. induction l as [|y l IH]; intros a; simpl; [intros _ []|].
  destruct (f a y) as [a1|] eqn:E; simpl; [|discriminate].
  intros H [->|Hin]; [eauto|]. eapply IH; eauto.
Qed.

Lemma block_q_raises_only T Rm ia ib a b e :
  block_q T Rm ia ib a b = Raise e -> e = IndexError.
Proof.
  unfold block_q. destruct (_ && _); [|discriminate].
  destruct (_ && _); [discriminate|]. intros [= <-]. reflexivity.
Qed.

Lemma inner_body_raises_only T Rm cl a st b e :
  inner_body T Rm cl a st b = Raise e -> e = IndexError.
Proof.
  unfold inner_body. destruct st as [tr tot]. destruct (a =? b); [discriminate|].
  destruct (block_q T Rm (cl a) (cl b) a b) as [q|e1] eqn:E; simpl; [discriminate|].
  intros [= <-]. eapply block_q_raises_only, E.
Qed.

(** X10.  When two centers both have cells and a cell of the first one has
    no row in the transition matrix, [_compute_center_transition_matrix]
    raises IndexError. *)
Theorem small_transition_matrix_raises_index_error (t : matrix_input) (Rm : ndarray)
    (a b i : nat) :
  a < ncols Rm -> b < ncols Rm -> a <> b ->
  In i (cells_of Rm a) -> cells_of Rm b <> [] ->
  nrows (dense_of t) <= i ->
  _compute_center_transition_matrix t Rm = Raise IndexError.
Proof.
  intros Ha Hb Hab Hi Hcb Hrow.
  unfold _compute_center_transition_matrix. fold (dense_of t).
  unfold argmax_axis1. rewrite (proj2 (Nat.eqb_neq _ 0)) by lia. cbn [rbind].
  set (cl := fun i => where_eq _ i).
  assert (Hcl : forall c, cl c = cells_of Rm c) by (intros c; apply where_eq_cells).
  destruct (foldM _ (seq 0 (ncols Rm)) _) as [st|e] eqn:E; cbn [rbind].
  - exfalso.
    destruct (foldM_ok_each _ _ _ _ a E) as (st0 & st1 & Ea); [apply in_seq; lia|].
    destruct (foldM_ok_each _ _ _ _ b Ea) as ([tr tot] & st3 & Eb); [apply in_seq; lia|].
    unfold inner_body in Eb. rewrite (proj2 (Nat.eqb_neq a b) Hab) in Eb.
    rewrite !Hcl in Eb. unfold block_q in Eb.
    destruct (cells_of Rm a) as [|i0 ia] eqn:Eia; [destruct Hi|].
    destruct (cells_of Rm b) as [|j0 ib] eqn:Eib; [contradiction|].
    cbn [is_empty negb andb] in Eb.
    assert (Hf : forallb (fun i => i <? nrows (dense_of t)) (i0 :: ia) = false).
    { apply not_true_is_false. intros Hall. rewrite forallb_forall in Hall.
      specialize (Hall i Hi). apply Nat.ltb_lt in Hall. lia. }
    rewrite Hf in Eb. discriminate.
  - f_equal. revert E. apply foldM_raises_only. intros st x e' H.
    revert H. apply foldM_raises_only. intros st' y e''.
    apply inner_body_raises_only.
Qed.

Lemma small_transition_matrix_raises_index_error_witness :
  _compute_center_transition_matrix (Dense T_one_row) R_two = Raise IndexError.
Proof.
  apply (small_transition_matrix_raises_index_error (Dense T_one_row) R_two 1 0 1).
  - simpl. lia.
  - simpl. lia.
  - discriminate.
  - rewrite cells_two by lia. left. reflexivity.
  - rewrite cells_two by lia. discriminate.
  - simpl. lia.
Defined.

(** ** Scores *)

Lemma norm_index_lt n i k : norm_index n i = Ok k -> k < n.
Proof.
  unfold norm_index.
  destruct ((0 <=? i)%Z && (i <? Z.of_nat n)%Z) eqn:E.
  - intros [= <-]. apply andb_true_iff in E as [E1 E2].
    apply Z.leb_le in E1. apply Z.ltb_lt in E2. lia.
  - destruct ((- Z.of_nat n <=? i)%Z && (i <? 0)%Z) eqn:E'; [|discriminate].
    intros [= <-]. apply andb_true_iff in E' as [E1 E2].
    apply Z.leb_le in E1. apply Z.ltb_lt in E2. lia.
Qed.

Lemma getitem_data m r c x :
  getitem m r c = Ok x -> exists i j, i < nrows m /\ j < ncols m /\ x = data m i j.
Proof.
  unfold getitem.
  destruct (norm_index (nrows m) r) as [i|] eqn:Ei; simpl; [|discriminate].
  destruct (norm_index (ncols m) c) as [j|] eqn:Ej; simpl; [|discriminate].
  intros [= <-]. exists i, j.
  split; [eapply norm_index_lt; eauto|]. split; [eapply norm_index_lt; eauto|reflexivity].
Qed.

Lemma ln_1p_nonneg x : (0 <= x)%R -> (0 <= ln (1 + x))%R.
Proof.
  intros Hx. destruct (Req_dec x 0) as [->|Hne].
  - rewrite Rplus_0_r, ln_1. lra.
  - rewrite <- ln_1. left. apply ln_increasing; lra.
Qed.

Lemma cumsum_from_real (ps : list R) :
  Forall (fun p => 0 <= p)%R ps ->
  forall a, exists vs,
    cumsum_from (Fin a) (map Fin ps) = map Fin vs
    /\ length vs = length ps
    /\ Forall (fun v => a <= v)%R vs
    /\ forall i x y, vs !! i = Some x -> vs !! S i = Some y -> (x <= y)%R.
Proof.
  induction 1 as [|p ps Hp _ IH]; intros a.
  - exists []. repeat split; [constructor|]. intros i x y H. discriminate.
  - destruct (IH (a + p)%R) as (vs & Hvs & Hlen & Hge & Hsorted).
    exists ((a + p)%R :: vs). simpl. rewrite Hvs.
    split; [reflexivity|]. split; [lia|]. split.
    + constructor; [lra|]. eapply Forall_impl; [exact Hge|]. simpl. intros; lra.
    + intros [|i] x y; simpl.
      * intros [= <-] Hy. rewrite Forall_forall in Hge. apply Hge.
        eapply list_elem_of_lookup_2. exact Hy.
      * apply Hsorted.
Qed.

(** X11.  On a center matrix without negative entries (nor nan, nor
    infinity), [_calculate_segment_probability] returns one score for every
    edge pair; the scores are not negative and never decrease along the
    pairs. *)
Theorem scores_grow_along_the_pairs (C : ndarray) (edges : list (Z * Z))
    (scores : list float64) :
  (forall i j, i < nrows C -> j < ncols C -> nonneg (data C i j)) ->
  _calculate_segment_probability C edges = Ok scores ->
  exists vs,
    scores = map Fin vs
    /\ length vs = length edges
    /\ Forall (fun v => 0 <= v)%R vs
    /\ forall i x y, vs !! i = Some x -> vs !! S i = Some y -> (x <= y)%R.
Proof.
  intros Hnn. rewrite segment_probability_unfold.
  destruct (mapM _ edges) as [picked|] eqn:E; simpl; [|discriminate].
  intros [= <-].
  assert (Hp : exists ps, picked = map Fin ps /\ length ps = length edges
                          /\ Forall (fun p => 0 <= p)%R ps).
  { clear -Hnn E. revert picked E.
    induction edges as [|e edges IH]; intros picked; simpl.
    - intros [= <-]. exists []. repeat split. constructor.
    - destruct (getitem C e.1 e.2) as [q|] eqn:Eq; simpl; [|discriminate].
      destruct (mapM _ edges) as [ys|]; simpl; [|discriminate].
      intros [= <-]. destruct (IH ys eq_refl) as (ps & -> & Hlen & Hps).
      apply getitem_data in Eq as (i & j & Hi & Hj & ->).
      destruct (Hnn i j Hi Hj) as (x & -> & Hx).
      exists (ln (1 + x) :: ps). simpl. rewrite log_entry_probability by exact Hx.
      split; [reflexivity|]. split; [lia|].
      constructor; [apply ln_1p_nonneg, Hx | exact Hps]. }
  destruct Hp as (ps & -> & Hlen & Hps).
  destruct (cumsum_from_real ps Hps 0%R) as (vs & Hvs & Hlen' & Hge & Hsorted).
  exists vs. unfold cumsum. split; [exact Hvs|]. split; [lia|]. split; assumption.
Qed.

Lemma scores_grow_along_the_pairs_witness :
  exists scores vs,
    _calculate_segment_probability T_two [(0, 1); (1, 0)]%Z = Ok scores
    /\ scores = map Fin vs
    /\ length vs = 2
    /\ Forall (fun v => 0 <= v)%R vs
    /\ forall i x y, vs !! i = Some x -> vs !! S i = Some y -> (x <= y)%R.
Proof.
  assert (E : exists scores,
             _calculate_segment_probability T_two [(0, 1); (1, 0)]%Z = Ok scores).
  { rewrite segment_probability_unfold. cbn [mapM fst snd].
    rewrite !getitem_in_range by (simpl; lia). cbn [rbind]. eexists. reflexivity. }
  destruct E as [scores E].
  destruct (scores_grow_along_the_pairs T_two [(0, 1); (1, 0)]%Z scores) as [vs Hvs].
  - intros [|[|i]] [|[|j]] Hi Hj; simpl in Hi, Hj; try lia;
      eexists; (split; [reflexivity|]); lra.
  - exact E.
  - exists scores, vs. split; [exact E|exact Hvs].
Defined.

(** ** Runs of construct_velocity_tree *)

Lemma reads_one_center :
  reads "pearson" world_one_center (Dense T_one_cell) R_single [0]%Z [-1]%Z
        5%positive T_one_cell.
Proof.
  exists 1%positive, 6%positive, cell_order_two, 2%positive, 3%positive, 4%positive.
  repeat split; reflexivity.
Qed.

(** X12.  On a tree of one center whose parent entry is not the center
    itself (-1 as a rule), the only segment is the center alone: it has no
    edge, reading the last score of the empty score array raises
    IndexError, and [adata] is left as it was. *)
Theorem single_center_raises_index_error (fuel : nat) (key : string) (w : world)
    (t : matrix_input) (Rm : ndarray) (c : Z) (cp : list Z) (lV : loc) (V : ndarray)
    (p : Z) :
  reads key w t Rm [c] cp lV V ->
  index1 cp 0 = Ok p -> p <> 0%Z ->
  0 < ncols Rm ->
  nrows Rm <= nrows (dense_of t) ->
  nrows Rm <= ncols (dense_of t) ->
  fst (construct_velocity_tree fuel key w) = Raise IndexError
  /\ obsp (snd (construct_velocity_tree fuel key w)) = obsp w
  /\ uns (snd (construct_velocity_tree fuel key w)) = uns w.
Proof.
  intros Hreads Hp Hne Hk Hr Hc.
  destruct (construct_velocity_tree fuel key w) as [r w'] eqn:Hrun.
  pose proof (construct_velocity_tree_run _ _ _ _ _ _ _ _ _ _ _ Hreads Hrun) as H.
  destruct (center_matrix_closed_form t Rm Hk Hr Hc) as (C & HC & _).
  assert (E : directed_tree fuel t Rm [c] cp V = Raise IndexError).
  { unfold directed_tree.
    change (argsort [c]) with [0%Z]. cbn [mapM]. rewrite Hp. cbn [rbind].
    assert (Hs : _get_all_segments fuel [0%Z] [p] = Ok [[0%Z]]).
    { unfold _get_all_segments. cbn [List.filter inb existsb].
      rewrite (proj2 (Z.eqb_neq 0 p)) by auto. reflexivity. }
    rewrite Hs, HC. reflexivity. }
  rewrite E in H. subst r. cbn [fst snd].
  destruct (construct_error_leaves_adata _ _ _ _ _ Hrun) as (Ho & Hu & _). auto.
Qed.

Lemma single_center_raises_index_error_witness :
  fst (construct_velocity_tree 1 "pearson" world_one_center) = Raise IndexError
  /\ obsp (snd (construct_velocity_tree 1 "pearson" world_one_center))
     = obsp world_one_center
  /\ uns (snd (construct_velocity_tree 1 "pearson" world_one_center))
     = uns world_one_center.
Proof.
  apply (single_center_raises_index_error 1 "pearson" world_one_center
           (Dense T_one_cell) R_single 0%Z [-1]%Z 5%positive T_one_cell (-1)%Z
           reads_one_center).
  - reflexivity.
  - discriminate.
  - simpl. lia.
  - simpl. lia.
  - simpl. lia.
Defined.

(** A successful run, as the fold of the array loop over the segments of
    the tree read. *)
Lemma construct_velocity_tree_fold fuel key w t Rm co cp lV V parents l w' :
  reads key w t Rm co cp lV V ->
  tree_read co cp parents ->
  construct_velocity_tree fuel key w = (Ok l, w') ->
  exists D segs C,
    store w' !! l = Some (OArray2 D)
    /\ _get_all_segments fuel (argsort co) parents = Ok segs
    /\ _compute_center_transition_matrix t Rm = Ok C
    /\ well_separated segs
    /\ foldM (orient_segment_array C V) segs V = Ok D.
Proof.
  intros Hreads [Hpar Htree] Hrun.
  pose proof (construct_velocity_tree_run _ _ _ _ _ _ _ _ _ _ _ Hreads Hrun) as H.
  unfold directed_tree in H. rewrite Hpar in H. cbn [rbind] in H.
  destruct (_get_all_segments fuel (argsort co) parents) as [segs|] eqn:Hsegs;
    cbn [rbind] in H; [|discriminate].
  destruct (_compute_center_transition_matrix t Rm) as [C|] eqn:HC;
    cbn [rbind] in H; [|discriminate].
  destruct (foldM (orient_segment_array C V) segs V) as [D|] eqn:HD; [|discriminate].
  destruct H as [[= ->] ->].
  exists D, segs, C. split; [apply lookup_insert_eq|].
  split; [reflexivity|]. split; [reflexivity|]. split; [|exact HD].
  exact (get_all_segments_separated _ _ Htree fuel segs Hsegs).
Qed.

(** X13.  The loop writes to the entries of the segments' edges only: an
    entry (r, c) of the returned array whose pair of nodes is no edge of any
    segment, in either direction, is the entry of the undirected tree. *)
Theorem entries_off_the_segments_are_kept (fuel : nat) (key : string) (w : world)
    (t : matrix_input) (Rm : ndarray) (co cp : list Z) (lV : loc) (V : ndarray)
    (parents : list Z) (l : loc) (w' : world) :
  reads key w t Rm co cp lV V ->
  tree_read co cp parents ->
  construct_velocity_tree fuel key w = (Ok l, w') ->
  exists D segs,
    store w' !! l = Some (OArray2 D)
    /\ _get_all_segments fuel (argsort co) parents = Ok segs
    /\ forall r c, (0 <= r)%Z -> (0 <= c)%Z ->
         (forall seg rc, seg ∈ segs -> rc ∈ edges_of seg -> ~ touches rc r c) ->
         getitem D r c = getitem V r c.
Proof.
  intros Hreads Htree Hrun.
  destruct (construct_velocity_tree_fold _ _ _ _ _ _ _ _ _ _ _ _ Hreads Htree Hrun)
    as (D & segs & C & HD & Hsegs & _ & (_ & Hnn & _) & Hfold).
  exists D, segs. split; [exact HD|]. split; [exact Hsegs|].
  intros r c Hr Hc Hoff.
  apply (segments_elsewhere C V segs V D r c); [|exact Hr|exact Hc| |exact Hfold].
  - intros seg Hseg. apply edges_of_nonneg. intros x Hx.
    apply (Hnn seg x); apply list_elem_of_In; assumption.
  - intros seg rc Hseg Hrc. apply (Hoff seg rc); apply list_elem_of_In; assumption.
Qed.

Lemma entries_off_the_segments_are_kept_witness :
  exists D segs,
    store (world_after world_two) !! fresh_of world_two = Some (OArray2 D)
    /\ _get_all_segments 2 (argsort [0; 1]%Z) [-1; 0]%Z = Ok segs
    /\ forall r c, (0 <= r)%Z -> (0 <= c)%Z ->
         (forall seg rc, seg ∈ segs -> rc ∈ edges_of seg -> ~ touches rc r c) ->
         getitem D r c = getitem V_two r c.
Proof.
  exact (entries_off_the_segments_are_kept 2 "pearson" world_two (Dense T_two) R_two
           [0; 1]%Z [-1; 0]%Z 5%positive V_two [-1; 0]%Z
           (fresh_of world_two) (world_after world_two)
           reads_two tree_read_two run_two).
Defined.

(** X14.  Whatever [construct_velocity_tree] raises, and wherever:
    [adata.obsp] and [adata.uns] are as at the call, no key has been added,
    and every object that existed holds the value it had. *)
Theorem any_error_leaves_adata (fuel : nat) (key : string) (w : world) (e : exn)
    (w' : world) :
  construct_velocity_tree fuel key w = (Raise e, w') ->
  obsp w' = obsp w /\ uns w' = uns w
  /\ uns w' !! "directed_velocity_tree" = uns w !! "directed_velocity_tree"
  /\ forall l0 o, store w !! l0 = Some o -> store w' !! l0 = Some o.
Proof.
  intros Hrun.
  destruct (construct_error_leaves_adata _ _ _ _ _ Hrun) as (Ho & Hu & Hs).
  split; [exact Ho|]. split; [exact Hu|]. split; [rewrite Hu; reflexivity|].
  intros l0 o Hl. rewrite Hs; [exact Hl|]. apply elem_of_dom. eauto.
Qed.

Lemma any_error_leaves_adata_witness :
  obsp (snd (construct_velocity_tree 1 "pearson" world_one_center))
  = obsp world_one_center
  /\ uns (snd (construct_velocity_tree 1 "pearson" world_one_center))
     = uns world_one_center
  /\ uns (snd (construct_velocity_tree 1 "pearson" world_one_center))
       !! "directed_velocity_tree"
     = uns world_one_center !! "directed_velocity_tree"
  /\ forall l0 o,
       store world_one_center !! l0 = Some o ->
       store (snd (construct_velocity_tree 1 "pearson" world_one_center)) !! l0 = Some o.
Proof.
  apply (any_error_leaves_adata 1 "pearson" world_one_center IndexError
           (snd (construct_velocity_tree 1 "pearson" world_one_center))).
  reflexivity.
Defined.

Lemma reads_final_world key w t Rm co cp lV V D :
  reads key w t Rm co cp lV V -> reads key (final_world w D) t Rm co cp lV V.
Proof.
  intros (lT & lco & dco & lR & lord & lpar & HT & Hco & Hdco & HR & Hord & Hpar
          & HV & Hsord & Hspar & HsV & HsR & HsT).
  assert (Hne : forall l o, store w !! l = Some o -> fresh (dom (store w)) <> l).
  { intros l o Hl E. apply (is_fresh (dom (store w))). rewrite E.
    apply elem_of_dom. eauto. }
  exists lT, lco, dco, lR, lord, lpar. unfold final_world. cbn [obsp uns store].
  split; [exact HT|]. split; [rewrite lookup_insert_ne by discriminate; exact Hco|].
  split; [rewrite lookup_insert_ne by eauto; exact Hdco|].
  split; [exact HR|]. split; [exact Hord|]. split; [exact Hpar|]. split; [exact HV|].
  split; [rewrite lookup_insert_ne by eauto; exact Hsord|].
  split; [rewrite lookup_insert_ne by eauto; exact Hspar|].
  split; [rewrite lookup_insert_ne by eauto; exact HsV|].
  split; [rewrite lookup_insert_ne by eauto; exact HsR|].
  destruct t; simpl in *; rewrite lookup_insert_ne by eauto; exact HsT.
Qed.

(** X15.  A second call after a successful one succeeds too: it reads the
    same inputs, returns a new array with the same contents, binds the key
    "directed_velocity_tree" to it, and leaves the first array as it
    was. *)
Theorem second_run_gives_the_same_tree (fuel : nat) (key : string) (w : world)
    (t : matrix_input) (Rm : ndarray) (co cp : list Z) (lV : loc) (V : ndarray)
    (l : loc) (w' : world) :
  reads key w t Rm co cp lV V ->
  construct_velocity_tree fuel key w = (Ok l, w') ->
  exists l2 w'' D,
    construct_velocity_tree fuel key w' = (Ok l2, w'')
    /\ l2 <> l
    /\ store w' !! l = Some (OArray2 D)
    /\ store w'' !! l = Some (OArray2 D)
    /\ store w'' !! l2 = Some (OArray2 D)
    /\ uns w'' !! "directed_velocity_tree" = Some l2.
Proof.
  intros Hreads Hrun.
  pose proof (construct_velocity_tree_run _ _ _ _ _ _ _ _ _ _ _ Hreads Hrun) as H.
  destruct (directed_tree fuel t Rm co cp V) as [D|] eqn:HD; [|discriminate].
  destruct H as [[= ->] ->].
  pose proof (reads_final_world _ _ _ _ _ _ _ _ D Hreads) as Hreads'.
  pose proof (construct_returns_fresh fuel _ _ _ _ _ _ _ _ D Hreads' HD) as Hrun'.
  set (l := fresh (dom (store w))) in *.
  set (w1 := final_world w D) in *.
  assert (Hl : store w1 !! l = Some (OArray2 D)) by apply lookup_insert_eq.
  assert (Hne : fresh (dom (store w1)) <> l).
  { intros E. apply (is_fresh (dom (store w1))). rewrite E. apply elem_of_dom. eauto. }
  exists (fresh (dom (store w1))), (final_world w1 D), D.
  split; [exact Hrun'|]. split; [exact Hne|]. split; [exact Hl|].
  unfold final_world at 1 2 3. cbn [store uns].
  split; [rewrite lookup_insert_ne by exact Hne; exact Hl|].
  split; apply lookup_insert_eq.
Qed.

Lemma second_run_gives_the_same_tree_witness :
  exists l2 w'' D,
    construct_velocity_tree 2 "pearson" (world_after world_two) = (Ok l2, w'')
    /\ l2 <> fresh_of world_two
    /\ store (world_after world_two) !! fresh_of world_two = Some (OArray2 D)
    /\ store w'' !! fresh_of world_two = Some (OArray2 D)
    /\ store w'' !! l2 = Some (OArray2 D)
    /\ uns w'' !! "directed_velocity_tree" = Some l2.
Proof.
  exact (second_run_gives_the_same_tree 2 "pearson" world_two (Dense T_two) R_two
           [0; 1]%Z [-1; 0]%Z 5%positive V_two
           (fresh_of world_two) (world_after world_two) reads_two run_two).
Defined.

Lemma py_max_zero : py_max (Fin 0) (Fin 0) = Fin 0.
Proof. unfold py_max. destruct (fgtb _ _); reflexivity. Qed.

(** X16.  The orientation creates no edge: where the undirected tree has
    weight 0 in both directions, the returned array has 0 too. *)
Theorem orientation_adds_no_edge (fuel : nat) (key : string) (w : world)
    (t : matrix_input) (Rm : ndarray) (co cp : list Z) (lV : loc) (V : ndarray)
    (parents : list Z) (l : loc) (w' : world) :
  reads key w t Rm co cp lV V ->
  tree_read co cp parents ->
  construct_velocity_tree fuel key w = (Ok l, w') ->
  exists D,
    store w' !! l = Some (OArray2 D)
    /\ forall r c, (0 <= r)%Z -> (0 <= c)%Z ->
         getitem V r c = Ok (Fin 0) -> getitem V c r = Ok (Fin 0) ->
         getitem D r c = Ok (Fin 0).
Proof.
  intros Hreads Htree Hrun.
  destruct (construct_velocity_tree_fold _ _ _ _ _ _ _ _ _ _ _ _ Hreads Htree Hrun)
    as (D & segs & C & HD & Hsegs & _ & Hsep & Hfold).
  exists D. split; [exact HD|]. intros r c Hr Hc Hrc Hcr.
  destruct (decide (Exists (fun seg =>
              Exists (fun rc => rc = (r, c) \/ rc = (c, r)) (edges_of seg)) segs))
    as [Hex|Hno].
  - apply Exists_exists in Hex as (seg & Hseg & Hex).
    apply Exists_exists in Hex as (rc & Hin & Ht).
    apply list_elem_of_lookup in Hin as [i Hi].
    destruct rc as [r0 c0].
    destruct (oriented_entries C V segs D seg i r0 c0 Hsep Hseg Hi Hfold)
      as (q & q' & x & y & _ & Hx & Hy & H1 & H2).
    assert (Hxy : x = Fin 0 /\ y = Fin 0).
    { destruct Ht as [[= -> ->]|[= -> ->]]; split; congruence. }
    destruct Hxy as [-> ->].
    assert (Hw : written (branch_of q q') (Fin 0) (Fin 0) = (Fin 0, Fin 0)).
    { destruct (branch_of q q'); simpl; rewrite ?py_max_zero; reflexivity. }
    rewrite Hw in H1, H2. destruct Ht as [[= -> ->]|[= -> ->]]; assumption.
  - destruct Hsep as (_ & Hnn & _).
    rewrite (segments_elsewhere C V segs V D r c); [exact Hrc| |exact Hr|exact Hc| |exact Hfold].
    + intros seg Hseg. apply edges_of_nonneg. intros x Hx.
      apply (Hnn seg x); apply list_elem_of_In; assumption.
    + intros seg rc Hseg Hin Ht. apply Hno.
      apply Exists_exists. exists seg. split; [apply list_elem_of_In, Hseg|].
      apply Exists_exists. exists rc. split; [apply list_elem_of_In, Hin|exact Ht].
Qed.

Lemma orientation_adds_no_edge_witness :
  exists D,
    store (world_after world_two) !! fresh_of world_two = Some (OArray2 D)
    /\ forall r c, (0 <= r)%Z -> (0 <= c)%Z ->
         getitem V_two r c = Ok (Fin 0) -> getitem V_two c r = Ok (Fin 0) ->
         getitem D r c = Ok (Fin 0).
Proof.
  exact (orientation_adds_no_edge 2 "pearson" world_two (Dense T_two) R_two
           [0; 1]%Z [-1; 0]%Z 5%positive V_two [-1; 0]%Z
           (fresh_of world_two) (world_after world_two)
           reads_two tree_read_two run_two).
Defined.

(** X17.  With both top-level keys present, a "cell_order" dict without
    the entry "R" or without the entry "centers_order" makes
    [construct_velocity_tree] raise KeyError, with nothing modified. *)
Theorem missing_cell_order_entry_raises_key_error (fuel : nat) (key : string)
    (w : world) (lT lco : loc) (d : gmap string loc) :
  obsp w !! (key +:+ "_transition_matrix") = Some lT ->
  uns w !! "cell_order" = Some lco ->
  store w !! lco = Some (ODict d) ->
  d !! "R" = None \/ d !! "centers_order" = None ->
  construct_velocity_tree fuel key w = (Raise KeyError, w).
Proof.
  intros HT Hco Hd Hmiss. unfold construct_velocity_tree.
  unfold bind at 1, obsp_contains.
  rewrite bool_decide_eq_true_2 by (rewrite HT; eauto). cbn [negb].
  unfold bind at 1, uns_contains.
  rewrite bool_decide_eq_true_2 by (rewrite Hco; eauto). cbn [negb].
  rewrite (bind_ok _ _ _ _ _ (obsp_getitem_ok _ _ _ HT)).
  rewrite (bind_ok _ _ _ _ _ (uns_getitem_ok _ _ _ Hco)).
  assert (Hkey : forall k, d !! k = None -> dict_getitem lco k w = (Raise KeyError, w)).
  { intros k Hk. unfold dict_getitem, deref, bind, raise. rewrite Hd, Hk. reflexivity. }
  destruct (d !! "R") as [lR|] eqn:HR.
  - destruct Hmiss as [Hm|Hm]; [discriminate|].
    rewrite (bind_ok _ _ _ _ _ (dict_getitem_ok _ _ _ _ _ Hd HR)).
    rewrite (bind_ok _ _ _ _ _ (uns_getitem_ok _ _ _ Hco)).
    unfold bind at 1. rewrite (Hkey _ Hm). reflexivity.
  - unfold bind at 1. rewrite (Hkey _ HR). reflexivity.
Qed.

Lemma missing_cell_order_entry_raises_key_error_witness :
  construct_velocity_tree 2 "pearson" world_no_R = (Raise KeyError, world_no_R).
Proof.
  apply (missing_cell_order_entry_raises_key_error 2 "pearson" world_no_R
           1%positive 6%positive ∅); try reflexivity.
  left. reflexivity.
Defined.

Lemma reads_no_center :
  reads "pearson" world_no_center (Dense T_two) R_no_center [0; 1]%Z [-1; 0]%Z
        5%positive V_two.
Proof.
  exists 1%positive, 6%positive, cell_order_two, 2%positive, 3%positive, 4%positive.
  repeat split; reflexivity.
Qed.

(** X18.  With a tree that is read well and segmented, an assignment
    matrix without any column makes [construct_velocity_tree] raise
    ValueError (the argmax of an empty row), and [adata] is left as it
    was. *)
Theorem no_center_column_raises_value_error (fuel : nat) (key : string) (w : world)
    (t : matrix_input) (Rm : ndarray) (co cp : list Z) (lV : loc) (V : ndarray)
    (parents : list Z) :
  reads key w t Rm co cp lV V ->
  tree_read co cp parents ->
  length (argsort co) <= fuel ->
  ncols Rm = 0 ->
  fst (construct_velocity_tree fuel key w) = Raise ValueError
  /\ obsp (snd (construct_velocity_tree fuel key w)) = obsp w
  /\ uns (snd (construct_velocity_tree fuel key w)) = uns w.
Proof.
  intros Hreads [Hpar Htree] Hfuel Hk.
  destruct (construct_velocity_tree fuel key w) as [r w'] eqn:Hrun.
  pose proof (construct_velocity_tree_run _ _ _ _ _ _ _ _ _ _ _ Hreads Hrun) as H.
  assert (E : directed_tree fuel t Rm co cp V = Raise ValueError).
  { unfold directed_tree. rewrite Hpar. cbn [rbind].
    destruct (get_all_segments_total _ _ Htree fuel Hfuel) as [segs ->]. cbn [rbind].
    unfold _compute_center_transition_matrix, argmax_axis1. rewrite Hk. reflexivity. }
  rewrite E in H. subst r. cbn [fst snd].
  destruct (construct_error_leaves_adata _ _ _ _ _ Hrun) as (Ho & Hu & _). auto.
Qed.

Lemma no_center_column_raises_value_error_witness :
  fst (construct_velocity_tree 2 "pearson" world_no_center) = Raise ValueError
  /\ obsp (snd (construct_velocity_tree 2 "pearson" world_no_center))
     = obsp world_no_center
  /\ uns (snd (construct_velocity_tree 2 "pearson" world_no_center))
     = uns world_no_center.
Proof.
  apply (no_center_column_raises_value_error 2 "pearson" world_no_center
           (Dense T_two) R_no_center [0; 1]%Z [-1; 0]%Z 5%positive V_two [-1; 0]%Z
           reads_no_center tree_read_two).
  - simpl. lia.
  - reflexivity.
Defined.

Lemma foldM_invariant {A B} (P : A -> Prop) (f : A -> B -> result A) (l : list B) :
  (forall a x a', P a -> f a x = Ok a' -> P a') ->
  forall a a', P a -> foldM f l a = Ok a' -> P a'.
Proof.
  intros Hf. induction l as [|x l IH]; intros a a' Ha; simpl.
  - intros [= <-]. exact Ha.
  - destruct (f a x) as [a1|] eqn:E; simpl; [|discriminate].
    apply IH. eapply Hf; eauto.
Qed.

Lemma setitem_shape D r c v D' :
  setitem D r c v = Ok D' -> nrows D' = nrows D /\ ncols D' = ncols D.
Proof.
  unfold setitem.
  destruct (norm_index (nrows D) r); simpl; [|discriminate].
  destruct (norm_index (ncols D) c); simpl; [|discriminate].
  intros [= <-]. split; reflexivity.
Qed.

Lemma write_of_shape b V D rc D' :
  write_of b V D rc = Ok D' -> nrows D' = nrows D /\ ncols D' = ncols D.
Proof.
  destruct rc as [r c].
  destruct b; simpl;
    repeat match goal with
           | |- rbind ?x _ = Ok _ -> _ =>
               let E := fresh "E" in destruct x eqn:E; simpl; [|discriminate]
           end;
    intros E';
    repeat match goal with
           | H : setitem _ _ _ _ = Ok _ |- _ => apply setitem_shape in H
           end;
    intuition congruence.
Qed.

(** X19.  The array returned has the shape of the undirected tree. *)
Theorem directed_tree_has_the_shape_of_the_tree (fuel : nat) (key : string)
    (w : world) (t : matrix_input) (Rm : ndarray) (co cp : list Z) (lV : loc)
    (V : ndarray) (l : loc) (w' : world) :
  reads key w t Rm co cp lV V ->
  construct_velocity_tree fuel key w = (Ok l, w') ->
  exists D,
    store w' !! l = Some (OArray2 D)
    /\ nrows D = nrows V /\ ncols D = ncols V.
Proof.
  intros Hreads Hrun.
  pose proof (construct_velocity_tree_run _ _ _ _ _ _ _ _ _ _ _ Hreads Hrun) as H.
  destruct (directed_tree fuel t Rm co cp V) as [D|] eqn:HD; [|discriminate].
  destruct H as [[= ->] ->].
  exists D. split; [apply lookup_insert_eq|].
  unfold directed_tree in HD.
  destruct (mapM (index1 cp) (argsort co)) as [parents|]; cbn [rbind] in HD;
    [|discriminate].
  destruct (_get_all_segments fuel (argsort co) parents) as [segs|]; cbn [rbind] in HD;
    [|discriminate].
  destruct (_compute_center_transition_matrix t Rm) as [C|]; cbn [rbind] in HD;
    [|discriminate].
  apply (foldM_invariant (fun D => nrows D = nrows V /\ ncols D = ncols V)
           (orient_segment_array C V) segs) with (a := V); [|split; reflexivity|exact HD].
  intros D0 seg D1 [Hn Hm]. rewrite orient_segment_array_branch.
  destruct (segment_scores C seg) as [pp|]; simpl; [|discriminate].
  apply (foldM_invariant (fun D => nrows D = nrows V /\ ncols D = ncols V)).
  - intros D2 rc D3 [Hn2 Hm2] Hw. apply write_of_shape in Hw as [-> ->]. auto.
  - auto.
Qed.

Lemma directed_tree_has_the_shape_of_the_tree_witness :
  exists D,
    store (world_after world_two) !! fresh_of world_two = Some (OArray2 D)
    /\ nrows D = nrows V_two /\ ncols D = ncols V_two.
Proof.
  exact (directed_tree_has_the_shape_of_the_tree 2 "pearson" world_two (Dense T_two)
           R_two [0; 1]%Z [-1; 0]%Z 5%positive V_two
           (fresh_of world_two) (world_after world_two) reads_two run_two).
Defined.

Lemma picked_on_zero_matrix C edges picked :
  (forall i j, i < nrows C -> j < ncols C -> data C i j = Fin 0) ->
  mapM (fun e => let? p := getitem C (fst e) (snd e) in Ok (log_entry p)) edges
  = Ok picked ->
  picked = repeat (log_entry (Fin 0)) (length edges).
Proof.
  intros Hz. revert picked. induction edges as [|e edges IH]; intros picked; simpl.
  - intros [= <-]. reflexivity.
  - destruct (getitem C e.1 e.2) as [q|] eqn:Eq; simpl; [|discriminate].
    destruct (mapM _ edges) as [ys|]; simpl; [|discriminate].
    intros [= <-]. rewrite (IH ys eq_refl).
    apply getitem_data in Eq as (i & j & Hi & Hj & ->). rewrite Hz by assumption.
    reflexivity.
Qed.

Lemma scores_tie_on_zero_matrix C seg p p' :
  (forall i j, i < nrows C -> j < ncols C -> data C i j = Fin 0) ->
  segment_scores C seg = Ok (p, p') -> p = p'.
Proof.
  intros Hz. unfold segment_scores. rewrite !segment_probability_unfold.
  fold (edges_of seg). fold (edges_of (rev seg)).
  destruct (mapM _ (edges_of seg)) as [pk|] eqn:E1; simpl; [|discriminate].
  destruct (mapM _ (edges_of (rev seg))) as [pk'|] eqn:E2; simpl; [|discriminate].
  apply (picked_on_zero_matrix C _ _ Hz) in E1, E2.
  rewrite edges_of_length in E1, E2. rewrite length_rev in E2. subst pk pk'.
  destruct (last_item _) as [q|]; simpl; [|discriminate].
  intros [= <- <-]. reflexivity.
Qed.

(** X20.  When the center-level matrix is zero (no velocity from one
    center to another), the forward and the reversed score of every segment
    of the tree are equal, and the array returned is the undirected tree,
    entry by entry. *)
Theorem no_velocity_returns_the_tree (fuel : nat) (key : string) (w : world)
    (t : matrix_input) (Rm : ndarray) (co cp : list Z) (lV : loc) (V : ndarray)
    (parents : list Z) (l : loc) (w' : world) :
  reads key w t Rm co cp lV V ->
  tree_read co cp parents ->
  construct_velocity_tree fuel key w = (Ok l, w') ->
  (forall C, _compute_center_transition_matrix t Rm = Ok C ->
     forall i j, i < nrows C -> j < ncols C -> data C i j = Fin 0) ->
  exists D segs C,
    store w' !! l = Some (OArray2 D)
    /\ _get_all_segments fuel (argsort co) parents = Ok segs
    /\ _compute_center_transition_matrix t Rm = Ok C
    /\ (forall seg, seg ∈ segs ->
          exists p, finite p /\ segment_scores C seg = Ok (p, p))
    /\ forall r c, (0 <= r)%Z -> (0 <= c)%Z -> getitem D r c = getitem V r c.
Proof.
  intros Hreads [Hpar Htree] Hrun Hzero.
  pose proof (construct_velocity_tree_run _ _ _ _ _ _ _ _ _ _ _ Hreads Hrun) as H.
  unfold directed_tree in H. rewrite Hpar in H. cbn [rbind] in H.
  destruct (_get_all_segments fuel (argsort co) parents) as [segs|] eqn:Hsegs;
    cbn [rbind] in H; [|discriminate].
  destruct (_compute_center_transition_matrix t Rm) as [C|] eqn:HC;
    cbn [rbind] in H; [|discriminate].
  destruct (foldM (orient_segment_array C V) segs V) as [D|] eqn:Hfold; [|discriminate].
  destruct H as [[= ->] ->].
  pose proof (get_all_segments_separated _ _ Htree fuel segs Hsegs) as Hsep.
  specialize (Hzero C eq_refl).
  exists D, segs, C. split; [apply lookup_insert_eq|].
  split; [reflexivity|]. split; [reflexivity|]. split.
  { intros seg Hseg.
    destruct (fold_scores_ok C V segs V D Hfold seg Hseg) as (p & p' & Hs).
    pose proof (scores_tie_on_zero_matrix C seg p p' Hzero Hs) as <-.
    exists p. split; [|exact Hs].
    exact (proj1 (segment_scores_finite _ _ _ _ Hs)). }
  intros r c Hr Hc.
  destruct (decide (Exists (fun seg =>
              Exists (fun rc => rc = (r, c) \/ rc = (c, r)) (edges_of seg)) segs))
    as [Hex|Hno].
  - apply Exists_exists in Hex as (seg & Hseg & Hex).
    apply Exists_exists in Hex as (rc & Hin & Ht).
    apply list_elem_of_lookup in Hin as [i Hi].
    destruct rc as [r0 c0].
    destruct (oriented_entries C V segs D seg i r0 c0 Hsep Hseg Hi Hfold)
      as (q & q' & x & y & Hs & Hx & Hy & H1 & H2).
    pose proof (scores_tie_on_zero_matrix C seg q q' Hzero Hs) as <-.
    destruct (segment_scores_finite _ _ _ _ Hs) as [Hq _].
    rewrite (branch_of_equal q Hq) in H1, H2. simpl in H1, H2.
    destruct Ht as [[= -> ->]|[= -> ->]]; congruence.
  - destruct Hsep as (_ & Hnn & _).
    apply (segments_elsewhere C V segs V D r c); [|exact Hr|exact Hc| |exact Hfold].
    + intros seg Hseg. apply edges_of_nonneg. intros x Hx.
      apply (Hnn seg x); apply list_elem_of_In; assumption.
    + intros seg rc Hseg Hin Ht. apply Hno.
      apply Exists_exists. exists seg. split; [apply list_elem_of_In, Hseg|].
      apply Exists_exists. exists rc. split; [apply list_elem_of_In, Hin|exact Ht].
Qed.

Lemma center_zero_everywhere C :
  _compute_center_transition_matrix (Dense T_zero) R_two = Ok C ->
  forall i j, i < nrows C -> j < ncols C -> data C i j = Fin 0.
Proof.
  intros HC.
  destruct (center_matrix_closed_form (Dense T_zero) R_two)
    as (C0 & HC0 & Hr & Hc & Hd); [simpl; lia ..|].
  rewrite HC0 in HC. injection HC as <-.
  cbn [dense_of R_two of_rows ncols length] in *.
  intros i j Hi Hj. rewrite (Hd i j) by lia.
  destruct (i =? j); [reflexivity|].
  rewrite unnormalized_zero by lia. apply clean_div_zero.
Qed.

Lemma no_velocity_returns_the_tree_witness :
  exists D C p,
    store (world_after world_tie) !! fresh_of world_tie = Some (OArray2 D)
    /\ _compute_center_transition_matrix (Dense T_zero) R_two = Ok C
    /\ finite p /\ segment_scores C [0; 1]%Z = Ok (p, p)
    /\ forall r c, (0 <= r)%Z -> (0 <= c)%Z -> getitem D r c = getitem V_two r c.
Proof.
  destruct (no_velocity_returns_the_tree 2 "pearson" world_tie (Dense T_zero) R_two
           [0; 1]%Z [-1; 0]%Z 5%positive V_two [-1; 0]%Z
           (fresh_of world_tie) (world_after world_tie)
           reads_tie tree_read_two run_tie center_zero_everywhere)
    as (D & segs & C & HD & Hsegs & HC & Htie & Hent).
  injection Hsegs as <-.
  destruct (Htie [0; 1]%Z) as (p & Hp & Hs); [apply list_elem_of_here|].
  exists D, C, p. auto.
Defined.

(** ** A run that raises nothing *)

Lemma segments_nodes (orders parents : list Z) (fuel : nat) (segs : list (list Z)) :
  tree orders parents ->
  2 <= length orders ->
  _get_all_segments fuel orders parents = Ok segs ->
  forall s, s ∈ segs -> 2 <= length s /\ forall x, x ∈ s -> x ∈ orders.
Proof.
  intros T Hlen Hrun s Hs.
  destruct (decide (length (leaf_nodes_of orders parents) = 1)) as [E|Hl].
  - unfold _get_all_segments in Hrun. fold (leaf_nodes_of orders parents) in Hrun.
    rewrite E in Hrun. simpl in Hrun. injection Hrun as <-.
    apply list_elem_of_singleton in Hs. subst s. auto.
  - destruct (get_all_segments_paths orders parents T fuel segs Hl Hrun)
      as (ends & He & _ & Hsegs).
    apply Hsegs in Hs as (a & Ha & Hg).
    apply (get_path_spec orders parents ends) in Hg.
    split; [exact (path_length orders parents ends a s Hg)|].
    intros x Hx. apply list_elem_of_lookup in Hx as [i Hi].
    apply (path_nodes orders parents T ends He a s i x Hg); [|exact Hi].
    apply (starts_in_orders orders parents T), Ha.
Qed.

Lemma edges_of_nodes seg r c :
  In (r, c) (edges_of seg) -> r ∈ seg /\ c ∈ seg.
Proof.
  intros H. apply list_elem_of_In, list_elem_of_lookup in H as [i Hi].
  apply edges_of_lookup in Hi as [H1 H2].
  split; eapply list_elem_of_lookup_2; eauto.
Qed.

Lemma segment_probability_total C edges :
  edges <> [] ->
  (forall r c, In (r, c) edges ->
     (0 <= r < Z.of_nat (nrows C))%Z /\ (0 <= c < Z.of_nat (ncols C))%Z) ->
  exists scores p,
    _calculate_segment_probability C edges = Ok scores /\ last_item scores = Ok p.
Proof.
  intros Hne Hin. rewrite segment_probability_unfold.
  rewrite (mapM_all_ok _ (fun e => log_entry (data C (Z.to_nat e.1) (Z.to_nat e.2)))).
  - cbn [rbind]. destruct edges as [|e edges]; [contradiction|].
    cbn [map]. eexists. eexists. split; [reflexivity|].
    unfold last_item, cumsum. rewrite last_cumsum_from by discriminate. reflexivity.
  - intros [r c] He. destruct (Hin r c He) as [Hr Hc].
    cbn [fst snd]. rewrite getitem_in_range by assumption. reflexivity.
Qed.

Lemma write_of_total b V D r c :
  nrows D = nrows V -> ncols D = ncols V ->
  (0 <= r < Z.of_nat (nrows V))%Z -> (0 <= r < Z.of_nat (ncols V))%Z ->
  (0 <= c < Z.of_nat (nrows V))%Z -> (0 <= c < Z.of_nat (ncols V))%Z ->
  exists D', write_of b V D (r, c) = Ok D'.
Proof.
  intros Hn Hm Hr1 Hr2 Hc1 Hc2.
  assert (Hset : forall D0 i j v, nrows D0 = nrows V -> ncols D0 = ncols V ->
            (0 <= i < Z.of_nat (nrows V))%Z -> (0 <= j < Z.of_nat (ncols V))%Z ->
            exists D1, setitem D0 i j v = Ok D1
                       /\ nrows D1 = nrows V /\ ncols D1 = ncols V).
  { intros D0 i j v Hn0 Hm0 Hi Hj. unfold setitem.
    rewrite !norm_index_in_range by (rewrite ?Hn0, ?Hm0; assumption).
    eexists. split; [reflexivity|]. auto. }
  destruct b; simpl; rewrite !getitem_in_range by assumption; cbn [rbind].
  - destruct (Hset D r c (py_max (data V (Z.to_nat r) (Z.to_nat c))
                                 (data V (Z.to_nat c) (Z.to_nat r))) Hn Hm Hr1 Hc2)
      as (D1 & -> & Hn1 & Hm1). cbn [rbind].
    destruct (Hset D1 c r (Fin 0) Hn1 Hm1 Hc1 Hr2) as (D2 & -> & _). eauto.
  - destruct (Hset D c r (py_max (data V (Z.to_nat r) (Z.to_nat c))
                                 (data V (Z.to_nat c) (Z.to_nat r))) Hn Hm Hc1 Hr2)
      as (D1 & -> & Hn1 & Hm1). cbn [rbind].
    destruct (Hset D1 r c (Fin 0) Hn1 Hm1 Hr1 Hc2) as (D2 & -> & _). eauto.
  - destruct (Hset D c r (data V (Z.to_nat c) (Z.to_nat r)) Hn Hm Hc1 Hr2)
      as (D1 & -> & Hn1 & Hm1). cbn [rbind].
    destruct (Hset D1 r c (data V (Z.to_nat r) (Z.to_nat c)) Hn1 Hm1 Hr1 Hc2)
      as (D2 & -> & _). eauto.
Qed.

Lemma fold_write_total b V edges :
  (forall r c, In (r, c) edges ->
     (0 <= r < Z.of_nat (nrows V))%Z /\ (0 <= r < Z.of_nat (ncols V))%Z
     /\ (0 <= c < Z.of_nat (nrows V))%Z /\ (0 <= c < Z.of_nat (ncols V))%Z) ->
  forall D, nrows D = nrows V -> ncols D = ncols V ->
    exists D', foldM (write_of b V) edges D = Ok D'
               /\ nrows D' = nrows V /\ ncols D' = ncols V.
Proof.
  induction edges as [|[r c] edges IH]; intros Hin D Hn Hm; simpl.
  - eauto.
  - destruct (Hin r c (or_introl eq_refl)) as (H1 & H2 & H3 & H4).
    destruct (write_of_total b V D r c Hn Hm H1 H2 H3 H4) as [D1 E].
    rewrite E. cbn [rbind].
    apply write_of_shape in E as [Hn1 Hm1].
    apply IH; [|congruence|congruence].
    intros r' c' H. apply Hin. right. exact H.
Qed.

Lemma orient_fold_total C V segs :
  (forall s, In s segs ->
     2 <= length s
     /\ forall x, x ∈ s ->
          (0 <= x < Z.of_nat (nrows C))%Z /\ (0 <= x < Z.of_nat (ncols C))%Z
          /\ (0 <= x < Z.of_nat (nrows V))%Z /\ (0 <= x < Z.of_nat (ncols V))%Z) ->
  forall D, nrows D = nrows V -> ncols D = ncols V ->
    exists D', foldM (orient_segment_array C V) segs D = Ok D'.
Proof.
  induction segs as [|s segs IH]; intros Hin D Hn Hm; simpl; [eauto|].
  destruct (Hin s (or_introl eq_refl)) as [Hlen Hx].
  rewrite orient_segment_array_branch. unfold segment_scores.
  fold (edges_of s). fold (edges_of (rev s)).
  destruct (segment_probability_total C (edges_of s)) as (sp & p & -> & Hp).
  { intros E. pose proof (edges_of_length s) as H. rewrite E in H. simpl in H. lia. }
  { intros r c H. apply edges_of_nodes in H as [Hr Hc].
    destruct (Hx r Hr) as (? & _). destruct (Hx c Hc) as (_ & ? & _). auto. }
  cbn [rbind].
  destruct (segment_probability_total C (edges_of (rev s))) as (sp' & p' & -> & Hp').
  { intros E. pose proof (edges_of_length (rev s)) as H. rewrite E, length_rev in H.
    simpl in H. lia. }
  { intros r c H. apply edges_of_nodes in H as [Hr Hc].
    rewrite rev_is_reverse in Hr, Hc. rewrite elem_of_reverse in Hr, Hc.
    destruct (Hx r Hr) as (? & _). destruct (Hx c Hc) as (_ & ? & _). auto. }
  cbn [rbind]. rewrite Hp, Hp'. cbn [rbind fst snd].
  destruct (fold_write_total (branch_of p p') V (edges_of s)) with (D := D)
    as (D1 & E & Hn1 & Hm1); [|exact Hn|exact Hm|].
  { intros r c H. apply edges_of_nodes in H as [Hr Hc].
    destruct (Hx r Hr) as (_ & _ & ? & ?). destruct (Hx c Hc) as (_ & _ & ? & ?). auto. }
  rewrite E. cbn [rbind].
  apply IH; [|exact Hn1|exact Hm1].
  intros s' H. apply Hin. right. exact H.
Qed.

(** X21.  [construct_velocity_tree] raises nothing and returns when: the
    objects it reads are there; the centers form a tree of at least two
    nodes; [R] has a column and the transition matrix a row and a column
    for every cell; and every center index is within the columns of [R]
    and within the undirected tree. *)
Theorem construct_velocity_tree_succeeds (fuel : nat) (key : string) (w : world)
    (t : matrix_input) (Rm : ndarray) (co cp : list Z) (lV : loc) (V : ndarray)
    (parents : list Z) :
  reads key w t Rm co cp lV V ->
  tree_read co cp parents ->
  2 <= length (argsort co) <= fuel ->
  0 < ncols Rm ->
  nrows Rm <= nrows (dense_of t) ->
  nrows Rm <= ncols (dense_of t) ->
  (forall x, x ∈ argsort co ->
     (x < Z.of_nat (ncols Rm))%Z /\ (x < Z.of_nat (nrows V))%Z
     /\ (x < Z.of_nat (ncols V))%Z) ->
  exists l w' D,
    construct_velocity_tree fuel key w = (Ok l, w')
    /\ store w' !! l = Some (OArray2 D)
    /\ uns w' !! "directed_velocity_tree" = Some l.
Proof.
  intros Hreads [Hpar Htree] [Hlen Hfuel] Hk Hr Hc Hfit.
  destruct (get_all_segments_total _ _ Htree fuel Hfuel) as [segs Hsegs].
  destruct (center_matrix_closed_form t Rm Hk Hr Hc) as (C & HC & HnC & HmC & _).
  destruct (orient_fold_total C V segs) with (D := V) as [D HD]; [|reflexivity..|].
  { intros s Hs. apply list_elem_of_In in Hs.
    destruct (segments_nodes _ _ _ _ Htree Hlen Hsegs s Hs) as [H2 Hin].
    split; [exact H2|]. intros x Hx. specialize (Hin x Hx).
    pose proof (tree_nonneg _ _ Htree x Hin) as H0.
    destruct (Hfit x Hin) as (H1 & H3 & H4). rewrite HnC, HmC. lia. }
  assert (E : directed_tree fuel t Rm co cp V = Ok D).
  { unfold directed_tree. rewrite Hpar. cbn [rbind]. rewrite Hsegs. cbn [rbind].
    rewrite HC. cbn [rbind]. exact HD. }
  exists (fresh (dom (store w))), (final_world w D), D.
  split; [exact (construct_returns_fresh fuel _ _ _ _ _ _ _ _ D Hreads E)|].
  unfold final_world. cbn [store uns]. split; apply lookup_insert_eq.
Qed.

Lemma construct_velocity_tree_succeeds_witness :
  exists l w' D,
    construct_velocity_tree 2 "pearson" world_two = (Ok l, w')
    /\ store w' !! l = Some (OArray2 D)
    /\ uns w' !! "directed_velocity_tree" = Some l.
Proof.
  apply (construct_velocity_tree_succeeds 2 "pearson" world_two (Dense T_two) R_two
           [0; 1]%Z [-1; 0]%Z 5%positive V_two [-1; 0]%Z reads_two tree_read_two).
  - simpl. lia.
  - simpl. lia.
  - simpl. lia.
  - simpl. lia.
  - intros x Hx. change (argsort [0; 1]%Z) with [0; 1]%Z in Hx.
    apply elem_of_cons in Hx as [->|Hx]; [simpl; lia|].
    apply list_elem_of_singleton in Hx. subst x. simpl. lia.
Defined.

(** ** The Scribe wrapper: errors, keys and a dead branch *)

Section ScribeEdges.
Context {layer dataframe series mask network : Type}.
Context {E : Scribe.Externals layer dataframe series mask network}.

Ltac step_rbind H :=
  repeat match type of H with
         | rbind ?c _ = Ok _ => destruct c eqn:?; [cbn [rbind] in H|discriminate H]
         end.

Lemma dict_update_keys (d : list (string * Scribe.uns_value dataframe network)) k v :
  k ∉ map fst d -> map fst (Scribe.dict_update d k v) = map fst d ++ [k].
Proof.
  induction d as [|[k' v'] d IH]; intros Hk; simpl; [reflexivity|].
  simpl in Hk. apply not_elem_of_cons in Hk as [Hne Hk].
  destruct (String.eqb_spec k k'); [contradiction|].
  simpl. f_equal. apply IH, Hk.
Qed.

Lemma scribe_network_keys adata n TF_list genes rate umi nt_layers do_CLR ref res_dict :
  Scribe.scribe_network adata n TF_list genes rate umi nt_layers do_CLR ref = Ok res_dict ->
  map fst res_dict
  = "RDI" :: (if do_CLR then ["CLR"] else [])
          ++ (match ref with Some _ => ["filtered"] | None => [] end).
Proof.
  unfold Scribe.scribe_network. intros H. step_rbind H.
  match goal with
  | E : (if do_CLR then _ else _) = Ok ?d |- _ =>
      assert (Hd : map fst d = "RDI" :: (if do_CLR then ["CLR"] else []))
  end.
  { destruct do_CLR.
    - match goal with
      | E : rbind ?c _ = Ok _ |- _ => destruct c eqn:?; [cbn [rbind] in E|discriminate E]
      end.
      match goal with E : Ok _ = Ok _ |- _ => injection E as <- end. reflexivity.
    - match goal with E : Ok _ = Ok _ |- _ => injection E as <- end. reflexivity. }
  destruct ref.
  - step_rbind H. injection H as <-.
    rewrite dict_update_keys; rewrite Hd; [reflexivity|].
    intros Hin. destruct do_CLR;
      repeat (apply elem_of_cons in Hin as [Hin|Hin]; [discriminate|]);
      apply elem_of_nil in Hin; exact Hin.
  - injection H as <-. rewrite Hd, app_nil_r. reflexivity.
Qed.

(** X22.  The dict stored under 'causal_net' has the key "RDI", then "CLR"
    when [do_CLR] is set, then "filtered" when a ChIP-seq reference is
    given, and no other key. *)
Theorem causal_net_keys adata genes gene_filter_rate cell_filter_UMI motif_ref
    nt_layers do_CLR TF_link_ENCODE_ref r :
  Scribe.scribe adata genes gene_filter_rate cell_filter_UMI motif_ref nt_layers do_CLR
                TF_link_ENCODE_ref = Ok r ->
  exists res_dict,
    Scribe.uns r !! "causal_net" = Some (Scribe.UDict res_dict)
    /\ map fst res_dict
       = "RDI" :: (if do_CLR then ["CLR"] else [])
               ++ (match TF_link_ENCODE_ref with Some _ => ["filtered"] | None => [] end).
Proof.
  unfold Scribe.scribe. intros H.
  destruct (negb Scribe.Scribe_installed); [discriminate H|].
  step_rbind H. injection H as <-.
  match goal with
  | E : Scribe.scribe_network _ _ _ _ _ _ _ _ _ = Ok ?d |- _ =>
      exists d; split; [apply lookup_insert_eq | exact (scribe_network_keys _ _ _ _ _ _ _ _ _ _ E)]
  end.
Qed.

(** X23.  The branch that rebuilds the layer 'old' as total - new (or
    total - velocity) is never taken: when the second layer name is 'old',
    that layer has just been assigned.  [scribe] never subtracts layers: its
    outcome is the same for any subtraction. *)
Theorem scribe_never_subtracts_layers (f : layer -> layer -> layer)
    adata genes gene_filter_rate cell_filter_UMI motif_ref nt_layers do_CLR
    TF_link_ENCODE_ref :
  Scribe.scribe (E := with_layer_sub E f) adata genes gene_filter_rate cell_filter_UMI
                motif_ref nt_layers do_CLR TF_link_ENCODE_ref
  = Scribe.scribe (E := E) adata genes gene_filter_rate cell_filter_UMI
                  motif_ref nt_layers do_CLR TF_link_ENCODE_ref.
Proof.
  unfold Scribe.scribe, Scribe.scribe_network, Scribe.A1_if_sparse, with_layer_sub.
  cbn [Scribe.read_csv Scribe.loc_column Scribe.expressed_in_more_than
       Scribe.row_sum_greater Scribe.layer_issparse Scribe.A1 Scribe.mask_mul
       Scribe.layer_sub Scribe.intersection Scribe.add_id_gene Scribe.gene_columns
       Scribe.melt Scribe.merge Scribe.select_vars Scribe.select_obs
       Scribe.size_factors Scribe.TF_names Scribe.other_names Scribe.Scribe_installed
       Scribe.causal_net_dynamics_coupling Scribe.CLR Scribe.szFactor
       Scribe.normalize_data Scribe.TF_link_gene_chip].
  destruct (negb Scribe.Scribe_installed); [reflexivity|].
  repeat match goal with
         | |- rbind ?c _ = rbind ?c _ => destruct c; cbn [rbind]; [|reflexivity]
         | |- rbind (rbind _ _) ?k = rbind (rbind _ _) ?k =>
             apply (f_equal (fun c => rbind c k))
         end.
  rewrite !old_layer_is_present. reflexivity.
Qed.

(** X24.  With Scribe installed and the motif file read, a layer name of
    [nt_layers] that is no layer of [adata] makes [scribe] raise
    KeyError. *)
Theorem missing_layer_raises_key_error adata genes gene_filter_rate cell_filter_UMI
    motif_ref k0 k1 rest do_CLR TF_link_ENCODE_ref df tf :
  Scribe.Scribe_installed = true ->
  Scribe.read_csv motif_ref = Ok df ->
  Scribe.loc_column df "TF" = Ok tf ->
  Scribe.layers adata !! k0 = None \/ Scribe.layers adata !! k1 = None ->
  Scribe.scribe adata genes gene_filter_rate cell_filter_UMI motif_ref
                (k0 :: k1 :: rest) do_CLR TF_link_ENCODE_ref = Raise KeyError.
Proof.
  intros Hi Hcsv Htf Hmiss. unfold Scribe.scribe. rewrite Hi, Hcsv. cbn [negb rbind].
  rewrite Htf. cbn [rbind]. unfold Scribe.scribe_network, Scribe.list_item.
  cbn [lookup list_lookup rbind]. unfold Scribe.layer_item, Scribe.copy.
  destruct (Scribe.layers adata !! k0) as [x0|] eqn:E0; [|reflexivity].
  destruct Hmiss as [Hm|Hm]; [discriminate|]. rewrite Hm. reflexivity.
Qed.

(** X25.  With Scribe installed and the motif file read, fewer than two
    layer names in [nt_layers] make [scribe] raise IndexError (when the one
    name given is a layer of [adata]). *)
Theorem short_nt_layers_raise_index_error adata genes gene_filter_rate
    cell_filter_UMI motif_ref nt_layers do_CLR TF_link_ENCODE_ref df tf :
  Scribe.Scribe_installed = true ->
  Scribe.read_csv motif_ref = Ok df ->
  Scribe.loc_column df "TF" = Ok tf ->
  length nt_layers < 2 ->
  (forall k0, nt_layers !! 0 = Some k0 -> is_Some (Scribe.layers adata !! k0)) ->
  Scribe.scribe adata genes gene_filter_rate cell_filter_UMI motif_ref
                nt_layers do_CLR TF_link_ENCODE_ref = Raise IndexError.
Proof.
  intros Hi Hcsv Htf Hlen Hk. unfold Scribe.scribe. rewrite Hi, Hcsv. cbn [negb rbind].
  rewrite Htf. cbn [rbind]. unfold Scribe.scribe_network, Scribe.list_item.
  destruct nt_layers as [|k0 [|k1 rest]]; [reflexivity| |simpl in Hlen; lia].
  cbn [lookup list_lookup rbind]. unfold Scribe.layer_item, Scribe.copy.
  destruct (Hk k0 eq_refl) as [x0 ->]. reflexivity.
Qed.
End ScribeEdges.

Lemma causal_net_keys_witness :
  exists res_dict,
    Scribe.uns Scribe.result_example !! "causal_net" = Some (Scribe.UDict res_dict)
    /\ map fst res_dict = ["RDI"; "CLR"].
Proof.
  apply (causal_net_keys (E := Scribe.externals_example) Scribe.adata_example None
           (1 / 10) 10000 "motifs.csv" ["new"; "total"] true None Scribe.result_example).
  reflexivity.
Defined.

Lemma missing_layer_raises_key_error_witness :
  Scribe.scribe (E := Scribe.externals_example) Scribe.adata_example None (1 / 10) 10000
                "motifs.csv" ["new"; "spliced"] true None = Raise KeyError.
Proof.
  apply (missing_layer_raises_key_error (E := Scribe.externals_example)
           Scribe.adata_example None (1 / 10) 10000 "motifs.csv" "new" "spliced" []
           true None tt tt); try reflexivity.
  right. reflexivity.
Defined.

Lemma short_nt_layers_raise_index_error_witness :
  Scribe.scribe (E := Scribe.externals_example) Scribe.adata_example None (1 / 10) 10000
                "motifs.csv" ["new"] true None = Raise IndexError.
Proof.
  apply (short_nt_layers_raise_index_error (E := Scribe.externals_example)
           Scribe.adata_example None (1 / 10) 10000 "motifs.csv" ["new"] true None tt tt);
    try reflexivity.
  - simpl. lia.
  - intros k0 [= <-]. eexists. reflexivity.
Defined.
